(** * The word analyzer of enhanced_script.js, embedded in Rocq

    The development follows [src/enhanced_script.js]: the index built by
    [extractRootData] over [WORD_DATABASE], and the class
    [IntelligentWordAnalyzer] with its cascade [analyze] (direct lookup,
    inflections, affixes, similar words, compound words) and its cache; and,
    of the second script of the file, the lookup over [appState.database],
    the analysis of unknown words, the search history and the pages of the
    table.  The functions that write the page are not part of it.

    Conventions of the embedding.
    - A JavaScript string is a [string].  On the strings whose code units
      are all below 128 ([is_ascii]) the length, the indices, [toLowerCase],
      [trim] and the class [\w] below are those of ECMAScript; on other
      strings ECMAScript counts UTF-16 code units, lower-cases every letter
      of Unicode and trims every white space of Unicode, which the
      functions below do not.  The properties about the keys, the lengths
      and the buckets of the words of a database, and about what [trim]
      leaves of an input, ask for words of code units below 128
      ([is_ascii], [ascii_lexicon]).  Chinese glosses are opaque strings
      that the code only concatenates.
    - A JavaScript number that is a confidence or a similarity is a rational
      of [Q].  The only such numbers are the literals of the source and the
      quotients [intersection.size / union.size] of two set sizes; their
      comparisons in double precision agree with the comparisons of the
      rationals, since two distinct quotients of that size never round to
      the same double.
    - An exception ([TypeError]) is the [Throw] of the type [completion].
    - [Date.now()] is an explicit argument of [analyze]. *)

From Stdlib Require Import Ascii String QArith.
From Stdlib Require Import DecimalString DecimalNat.
From stdpp Require Import gmap strings list fin_maps sorting.

(** ** Strings as JavaScript uses them *)

Module JsString.

Definition is_upper (c : ascii) : bool :=
  let n := nat_of_ascii c in (65 <=? n)%nat && (n <=? 90)%nat.

Definition lower_char (c : ascii) : ascii :=
  if is_upper c then ascii_of_nat (nat_of_ascii c + 32) else c.

(** [String.prototype.toLowerCase], on code units below 128: the letters
    [A] to [Z] are the only ones that change. *)
Fixpoint toLowerCase (s : string) : string :=
  match s with
  | EmptyString => EmptyString
  | String c s' => String (lower_char c) (toLowerCase s')
  end.

(** White space of [trim] below 128: TAB, LF, VT, FF, CR and SPACE. *)
Definition is_space (c : ascii) : bool :=
  let n := nat_of_ascii c in
  ((9 <=? n)%nat && (n <=? 13)%nat) || (n =? 32)%nat.

Fixpoint trimStart (s : string) : string :=
  match s with
  | EmptyString => EmptyString
  | String c s' => if is_space c then trimStart s' else s
  end.

(** Drops the trailing white space: a character is kept when it is not a
    space or when something is kept after it. *)
Fixpoint trimEnd (s : string) : string :=
  match s with
  | EmptyString => EmptyString
  | String c s' =>
      match trimEnd s' with
      | EmptyString => if is_space c then EmptyString else String c EmptyString
      | t => String c t
      end
  end.

(** [String.prototype.trim]. *)
Definition trim (s : string) : string := trimEnd (trimStart s).

Fixpoint str_take (n : nat) (s : string) : string :=
  match n, s with
  | S n', String c s' => String c (str_take n' s')
  | _, _ => EmptyString
  end.

Fixpoint str_drop (n : nat) (s : string) : string :=
  match n, s with
  | S n', String _ s' => str_drop n' s'
  | _, _ => s
  end.

(** A relative index of [slice]: negative indices count from the end, and
    the result is clamped to [0 .. len]. *)
Definition clamp_index (len : nat) (i : Z) : nat :=
  if (i <? 0)%Z then Z.to_nat (Z.max (Z.of_nat len + i) 0)
  else Z.to_nat (Z.min i (Z.of_nat len)).

(** [String.prototype.slice(start, end)]; [None] is an omitted [end]. *)
Definition slice (s : string) (start : Z) (end_ : option Z) : string :=
  let len := String.length s in
  let from := clamp_index len start in
  let to := match end_ with
            | None => len
            | Some e => clamp_index len e
            end in
  str_take (to - from) (str_drop from s).

(** [String.prototype.startsWith(search)]. *)
Definition startsWith (s search : string) : bool :=
  (String.length search <=? String.length s)%nat
  && String.eqb (str_take (String.length search) s) search.

(** [String.prototype.endsWith(search)]. *)
Definition endsWith (s search : string) : bool :=
  (String.length search <=? String.length s)%nat
  && String.eqb (str_drop (String.length s - String.length search) s) search.

(** [String.prototype.includes(search)]: [search] occurs at some offset. *)
Fixpoint includes (s search : string) : bool :=
  startsWith s search
  || match s with
     | EmptyString => false
     | String _ s' => includes s' search
     end.

Definition chars (s : string) : list ascii := list_ascii_of_string s.

(** The template literal [`${n}`] of a non-negative integer. *)
Definition of_nat (n : nat) : string :=
  NilZero.string_of_uint (Nat.to_uint n).

(** [s[0]] inside a template literal: the first code unit, and the text
    [undefined] for the empty string. *)
Definition first_letter (s : string) : string :=
  match s with
  | EmptyString => "undefined"
  | String c _ => String c EmptyString
  end.

(** The class [\w] of a regular expression without the [u] flag. *)
Definition is_word_char (c : ascii) : bool :=
  let n := nat_of_ascii c in
  ((48 <=? n)%nat && (n <=? 57)%nat)
  || ((65 <=? n)%nat && (n <=? 90)%nat)
  || (n =? 95)%nat
  || ((97 <=? n)%nat && (n <=? 122)%nat).

Definition all_word_chars (s : string) : bool :=
  forallb is_word_char (chars s).

(** The strings on which the functions above are those of ECMAScript: every
    code unit is below 128. *)
Definition is_ascii (s : string) : bool :=
  forallb (fun c => (nat_of_ascii c <? 128)%nat) (chars s).

End JsString.

Import JsString.

(** ** Completions: a value or a thrown [TypeError] *)

Inductive error := TypeError.

Inductive completion (A : Type) : Type :=
| Return (a : A)
| Throw (e : error).

Arguments Return {A} a.
Arguments Throw {A} e.

#[export] Instance completion_ret : MRet completion := fun A a => Return a.

#[export] Instance completion_bind : MBind completion := fun A B f m =>
  match m with
  | Return a => f a
  | Throw e => Throw e
  end.

(** A [forEach] or [for ... of] whose body may throw. *)
Fixpoint foldM {A B} (f : A -> B -> completion A) (a : A) (l : list B) : completion A :=
  match l with
  | [] => Return a
  | b :: l' => a' ← f a b; foldM f a' l'
  end.

(** A [for ... of] loop that returns from the function at the first
    iteration that yields a result. *)
Fixpoint first_some {A B} (f : A -> option B) (l : list A) : option B :=
  match l with
  | [] => None
  | a :: l' => match f a with
               | Some b => Some b
               | None => first_some f l'
               end
  end.

(** ** The data model: entries of WORD_DATABASE and the values of ROOT_DATABASE *)

(** An element of [WORD_DATABASE]: a record of the mapping file. *)
Record Entry := mkEntry {
  english : string;
  chinese : string;
  pinyin : string;
  category : string;
  priority : Z
}.

#[export] Instance Entry_eq_dec : EqDecision Entry.
Proof. solve_decision. Defined.

(** What [ROOT_DATABASE[k]] can evaluate to when it is truthy: a word (the
    direct index), an array of words (the indexes by length and by first
    letter, in the same object), or a member that the object inherits, named
    by its key. *)
Inductive value :=
| VEntry (w : Entry)
| VArray (ws : list Entry)
| VInherited (k : string).

#[export] Instance value_eq_dec : EqDecision value.
Proof. solve_decision. Defined.

(** [v.chinese]: [None] is [undefined]. *)
Definition chinese_of (v : value) : option string :=
  match v with
  | VEntry w => Some (chinese w)
  | _ => None
  end.

(** String concatenation with [+] turns [undefined] into its name. *)
Definition to_text (o : option string) : string :=
  match o with
  | Some s => s
  | None => "undefined"
  end.

(** [Array.prototype.join('')] renders [undefined] as the empty string. *)
Definition join_text (l : list (option string)) : string :=
  fold_right (fun o acc => match o with Some s => s +:+ acc | None => acc end) "" l.

(** ** ROOT_DATABASE: one object for the three indexes *)

Module RootDatabase.

(** The object [ROOT_DATABASE]: its own properties, and its prototype when
    an assignment to the key [__proto__] replaced [Object.prototype] by a
    word. *)
Record t := mk {
  own : gmap string value;
  proto : option Entry
}.

(** [ROOT_DATABASE = {}]. *)
Definition empty : t := {| own := ∅; proto := None |}.

(** The members of [Object.prototype]. *)
Definition object_prototype_keys : list string :=
  [ "constructor"; "__proto__"; "hasOwnProperty"; "isPrototypeOf";
    "propertyIsEnumerable"; "toLocaleString"; "toString"; "valueOf";
    "__defineGetter__"; "__defineSetter__"; "__lookupGetter__";
    "__lookupSetter__" ].

Definition object_prototype (k : string) : option value :=
  if bool_decide (k ∈ object_prototype_keys) then Some (VInherited k) else None.

(** Is the field [k] of the word [w] present and truthy? *)
Definition field_truthy (w : Entry) (k : string) : bool :=
  if String.eqb k "english" then negb (String.eqb (english w) "")
  else if String.eqb k "chinese" then negb (String.eqb (chinese w) "")
  else if String.eqb k "pinyin" then negb (String.eqb (pinyin w) "")
  else if String.eqb k "category" then negb (String.eqb (category w) "")
  else if String.eqb k "priority" then negb (priority w =? 0)%Z
  else false.

(** A property that is not an own property, found along the prototype
    chain; [None] when it is missing or falsy. *)
Definition inherited (p : option Entry) (k : string) : option value :=
  match p with
  | None => object_prototype k
  | Some w =>
      if String.eqb k "__proto__" then Some (VEntry w)
      else if field_truthy w k then Some (VInherited k)
      else object_prototype k
  end.

(** [ROOT_DATABASE[k]] where the code tests or uses it as a truthy value;
    [None] is [undefined] (or a falsy inherited value). *)
Definition get (db : t) (k : string) : option value :=
  match own db !! k with
  | Some v => Some v
  | None => inherited (proto db) k
  end.

(** [ROOT_DATABASE[eng] = word]: an own property, except for the key
    [__proto__], whose setter replaces the prototype. *)
Definition set_word (db : t) (eng : string) (word : Entry) : t :=
  if String.eqb eng "__proto__"
  then {| own := own db; proto := Some word |}
  else {| own := <[eng := VEntry word]> (own db); proto := proto db |}.

(** [if (!ROOT_DATABASE[k]) ROOT_DATABASE[k] = []; ROOT_DATABASE[k].push(word)]
    for an index key [k] (one that starts with [length_] or [letter_]).
    A truthy value that is not an array has no [push]: calling it throws. *)
Definition push_word (db : t) (k : string) (word : Entry) : completion t :=
  match get db k with
  | None => Return {| own := <[k := VArray [word]]> (own db); proto := proto db |}
  | Some (VArray ws) =>
      Return {| own := <[k := VArray (ws ++ [word])%list]> (own db); proto := proto db |}
  | Some _ => Throw TypeError
  end.

Definition length_key (n : nat) : string := "length_" +:+ of_nat n.
Definition letter_key (eng : string) : string := "letter_" +:+ first_letter eng.

(** The body of the [forEach] of [extractRootData]; [eng.length] and
    [eng[0]] are the length and the first code unit of a word of code units
    below 128. *)
Definition index_word (db : t) (word : Entry) : completion t :=
  let eng := toLowerCase (english word) in
  let db1 := set_word db eng word in
  db2 ← push_word db1 (length_key (String.length eng)) word;
  push_word db2 (letter_key eng) word.

(** [extractRootData], as a function of [WORD_DATABASE].  [Return db] is a
    run to the end of the [forEach], which leaves [db] in [ROOT_DATABASE];
    [Throw] is a run that a [push] on a word interrupts. *)
Definition extractRootData (WORD_DATABASE : list Entry) : completion t :=
  foldM index_word empty WORD_DATABASE.

End RootDatabase.

Abbreviation ROOT_DATABASE := RootDatabase.t.
Import RootDatabase.

(** ** MORPHEME_RULES and the gloss tables *)

Module MORPHEME_RULES.
Definition prefixes : list string :=
  ["un"; "dis"; "re"; "pre"; "mis"; "over"; "under"; "sub"; "super";
   "inter"; "intra"; "trans"].
Definition suffixes : list string :=
  ["ing"; "ed"; "s"; "es"; "ly"; "ment"; "ness"; "tion"; "sion"; "able";
   "ible"; "al"; "ial"; "ful"; "less"; "ize"; "ise"; "ity"; "ism"; "ist";
   "ance"; "ence"; "hood"; "ship"; "dom"].
Definition inflections : list string :=
  ["s"; "es"; "ed"; "ing"; "er"; "est"].
End MORPHEME_RULES.

(** [meanings[k] || '']  for a table given as an object literal. *)
Fixpoint lookup_meaning (meanings : list (string * string)) (k : string) : string :=
  match meanings with
  | [] => ""
  | (k', m) :: rest => if String.eqb k k' then m else lookup_meaning rest k
  end.

Definition getInflectionMeaning (inflection : string) : string :=
  lookup_meaning
    [("s", "复数"); ("es", "复数"); ("ed", "过去式"); ("ing", "进行式");
     ("er", "比较级"); ("est", "最高级")] inflection.

Definition getPrefixMeaning (prefix : string) : string :=
  lookup_meaning
    [("un", "不"); ("dis", "非"); ("re", "再"); ("pre", "前"); ("mis", "误");
     ("over", "过"); ("under", "不足"); ("sub", "下"); ("super", "超");
     ("inter", "间"); ("intra", "内"); ("trans", "跨")] prefix.

Definition getSuffixMeaning (suffix : string) : string :=
  lookup_meaning
    [("ing", "中"); ("ed", "了"); ("s", "们"); ("es", "们"); ("ly", "地");
     ("ment", ""); ("ness", "性"); ("tion", ""); ("sion", ""); ("able", "可");
     ("ible", "可"); ("al", "的"); ("ial", "的"); ("ful", "充满");
     ("less", "无"); ("ize", "化"); ("ise", "化"); ("ity", "性");
     ("ism", "主义"); ("ist", "家"); ("ance", ""); ("ence", "");
     ("hood", "状态"); ("ship", "关系"); ("dom", "领域")] suffix.

(** ** The analysis record and its parts *)

Inductive MatchType :=
| not_found | direct | inflection | prefixed | suffixed | similar | compound.

#[export] Instance MatchType_eq_dec : EqDecision MatchType.
Proof. solve_decision. Defined.

Inductive PartType := base | inflection_part | prefix | suffix | component.

(** An element of [decomposition].  The object literals of the source carry
    [part] and [type], and then [chinese] (base, inflection, component),
    [meaning] (prefix, suffix) or [match] (component); a field that the
    literal does not have, or whose value is [undefined], is [None]. *)
Record Part := mkPart {
  part : string;
  type : PartType;
  part_chinese : option string;
  meaning : option string;
  match_ : option value
}.

(** The [result] of an analysis: a value of [ROOT_DATABASE] by reference, the
    copy [{...baseMatch, chinese: c}] of the affix strategy, or the word that
    the compound strategy synthesizes (which carries [compound: true]). *)
Inductive ResultObj :=
| RValue (v : value)
| RSpread (baseMatch : value) (chinese' : string)
| RCompound (w : Entry).

(** [result.chinese]: [None] is [undefined]. *)
Definition result_chinese (r : ResultObj) : option string :=
  match r with
  | RValue v => chinese_of v
  | RSpread _ c => Some c
  | RCompound w => Some (chinese w)
  end.

Record Analysis := mkAnalysis {
  original : string;
  normalized : string;
  found : bool;
  confidence : Q;
  matchType : MatchType;
  result : option ResultObj;
  decomposition : list Part;
  suggestions : list Entry;
  timestamp : Z
}.

(** What the strategies return to [analyze]. *)
Record InflectedMatch := {
  infl_result : value;
  infl_decomposition : list Part
}.

Record AffixMatch := {
  affix_type : MatchType;
  affix_confidence : Q;
  affix_result : ResultObj;
  affix_decomposition : list Part
}.

Record Candidate := {
  word : Entry;
  similarity : Q
}.

Record SimilarMatch := {
  sim_confidence : Q;
  sim_result : Entry;
  sim_suggestions : list Entry
}.

Record CompoundMatch := {
  comp_confidence : Q;
  comp_result : Entry;
  comp_decomposition : list Part
}.

(** ** IntelligentWordAnalyzer *)

Module IntelligentWordAnalyzer.

Section Strategies.

Variable db : ROOT_DATABASE.

(** [directMatch(word)]: [ROOT_DATABASE[word] || null]. *)
Definition directMatch (word : string) : option value :=
  get db word.

Definition try_inflection (word inflection : string) : option InflectedMatch :=
  if endsWith word inflection then
    let base_ := slice word 0 (Some (- Z.of_nat (String.length inflection))%Z) in
    match directMatch base_ with
    | Some match' =>
        Some {| infl_result := match';
                infl_decomposition :=
                  [ mkPart base_ base (chinese_of match') None None;
                    mkPart inflection inflection_part
                           (Some (getInflectionMeaning inflection)) None None ] |}
    | None => None
    end
  else None.

(** [matchInflections(word)]. *)
Definition matchInflections (word : string) : option InflectedMatch :=
  first_some (try_inflection word) MORPHEME_RULES.inflections.

Definition try_prefix (word prefix_ : string) : option AffixMatch :=
  if startsWith word prefix_
     && (String.length prefix_ + 2 <? String.length word)%nat then
    let base_ := slice word (Z.of_nat (String.length prefix_)) None in
    match directMatch base_ with
    | Some baseMatch =>
        Some {| affix_type := prefixed;
                affix_confidence := 0.85%Q;
                affix_result :=
                  RSpread baseMatch
                    (getPrefixMeaning prefix_ +:+ to_text (chinese_of baseMatch));
                affix_decomposition :=
                  [ mkPart prefix_ prefix None (Some (getPrefixMeaning prefix_)) None;
                    mkPart base_ base (chinese_of baseMatch) None None ] |}
    | None => None
    end
  else None.

Definition try_suffix (word suffix_ : string) : option AffixMatch :=
  if endsWith word suffix_
     && (String.length suffix_ + 2 <? String.length word)%nat then
    let base_ := slice word 0 (Some (- Z.of_nat (String.length suffix_))%Z) in
    match directMatch base_ with
    | Some baseMatch =>
        Some {| affix_type := suffixed;
                affix_confidence := 0.80%Q;
                affix_result :=
                  RSpread baseMatch
                    (to_text (chinese_of baseMatch) +:+ getSuffixMeaning suffix_);
                affix_decomposition :=
                  [ mkPart base_ base (chinese_of baseMatch) None None;
                    mkPart suffix_ suffix None (Some (getSuffixMeaning suffix_)) None ] |}
    | None => None
    end
  else None.

(** [matchWithAffixes(word)]: the prefixes, then the suffixes. *)
Definition matchWithAffixes (word : string) : option AffixMatch :=
  match first_some (try_prefix word) MORPHEME_RULES.prefixes with
  | Some m => Some m
  | None => first_some (try_suffix word) MORPHEME_RULES.suffixes
  end.

(** [new Set(iterable)]: the distinct elements, in insertion order. *)
Definition new_Set (l : list ascii) : list ascii :=
  fold_left (fun acc x => if bool_decide (x ∈ acc) then acc else (acc ++ [x])%list) l [].

(** [calculateSimilarity(str1, str2)].  The quotient is only reached for
    two different strings, neither of which is empty (the empty string is
    included in every string), so that [union] is not empty. *)
Definition calculateSimilarity (str1 str2 : string) : Q :=
  if String.eqb str1 str2 then 1.0%Q
  else if includes str1 str2 || includes str2 str1 then 0.9%Q
  else
    let set1 := new_Set (chars str1) in
    let set2 := new_Set (chars str2) in
    let intersection := new_Set (filter (fun x => x ∈ set2) set1) in
    let union := new_Set (set1 ++ set2)%list in
    (Z.of_nat (length intersection) # Pos.of_nat (length union))%Q.

Definition threshold : Q := 0.7%Q.

(** [ROOT_DATABASE[`length_${len}`] || []], as the [for ... of] loop
    takes it: iterating over a value that is not an array throws. *)
Definition wordsOfLength (len : nat) : completion (list Entry) :=
  match get db (length_key len) with
  | None => Return []
  | Some (VArray ws) => Return ws
  | Some _ => Throw TypeError
  end.

(** The inner loop of [findSimilarWords] over one bucket. *)
Definition scan_bucket (word : string) (candidates : list Candidate)
    (ws : list Entry) : list Candidate :=
  fold_left
    (fun candidates candidate =>
       let similarity := calculateSimilarity word (toLowerCase (english candidate)) in
       if Qle_bool threshold similarity
       then (candidates ++ [ {| word := candidate; similarity := similarity |} ])%list
       else candidates)
    ws candidates.

(** The bounds [lengthRange] of the outer loop. *)
Definition lengthRange (word : string) : nat * nat :=
  let targetLength := String.length word in
  (Nat.max 3 (targetLength - 3), targetLength + 3).

(** The lengths [len] that the outer loop goes through. *)
Definition lengths (word : string) : list nat :=
  let '(lo, hi) := lengthRange word in seq lo (hi + 1 - lo).

(** The outer loop of [findSimilarWords]. *)
Definition collect_candidates (word : string) : completion (list Candidate) :=
  foldM (fun candidates len =>
           ws ← wordsOfLength len;
           Return (scan_bucket word candidates ws))
        [] (lengths word).

(** [candidates.sort((a, b) => b.similarity - a.similarity)]: the sort of
    an array is stable, and the comparator puts the greater similarity
    first.  A stable sort has one result, which insertion computes. *)
Fixpoint insert_candidate (c : Candidate) (l : list Candidate) : list Candidate :=
  match l with
  | [] => [c]
  | d :: l' =>
      if Qle_bool (similarity d) (similarity c) then c :: d :: l'
      else d :: insert_candidate c l'
  end.

Definition sort_candidates (l : list Candidate) : list Candidate :=
  fold_right insert_candidate [] l.

(** [findSimilarWords(word)]. *)
Definition findSimilarWords (word_ : string) : completion (option SimilarMatch) :=
  candidates ← collect_candidates word_;
  match sort_candidates candidates with
  | [] => Return None
  | top :: rest =>
      Return (Some {| sim_confidence := similarity top;
                      sim_result := word top;
                      sim_suggestions := map word (take 4 rest) |})
  end.

(** The regular expressions of [analyzeCompoundWord] have two shapes:
    [^(\w+)(a1|...|an)$] and [^(a1|...|an)(\w+)$], with the flag [i]. *)
Inductive Pattern :=
| StemSuffix (alternatives : list string)
| PrefixStem (alternatives : list string).

Definition patterns : list Pattern :=
  [ StemSuffix ["graphy"; "logy"; "nomy"; "sophy"; "pathy"; "metry"; "scopy"];
    StemSuffix ["able"; "ible"; "ful"; "less"; "ness"; "ment"; "tion";
                "sion"; "ance"; "ence"];
    PrefixStem ["micro"; "macro"; "tele"; "hydro"; "psych"; "chron"; "geo";
                "bio"; "astro"; "therm"; "photo"];
    StemSuffix ["proof"; "resistant"; "free"; "wise"; "like"; "worthy"] ].

(** The length of the longest run of [\w] at the start of [s]. *)
Fixpoint word_run (s : string) : nat :=
  match s with
  | String c s' => if is_word_char c then S (word_run s') else 0
  | EmptyString => 0
  end.

(** Backtracking of the greedy [(\w+)] in front of an alternation that
    must end the input: [k] is the number of characters that the group
    holds, tried from the longest run down to one character. *)
Fixpoint match_stem_suffix (alternatives : list string) (s : string) (k : nat)
    : option (string * string) :=
  match k with
  | 0 => None
  | S k' =>
      let rest := str_drop k s in
      if existsb (String.eqb (toLowerCase rest)) alternatives
      then Some (str_take k s, rest)
      else match_stem_suffix alternatives s k'
  end.

(** The alternatives in order; after one of them the greedy [(\w+)] must
    reach the end of the input. *)
Definition match_prefix_stem (alternatives : list string) (s : string)
    : option (string * string) :=
  first_some
    (fun alt =>
       let n := String.length alt in
       let rest := str_drop n s in
       if startsWith (toLowerCase s) alt
          && (0 <? String.length rest)%nat && all_word_chars rest
       then Some (str_take n s, rest) else None)
    alternatives.

(** [word.match(pattern)]: the two captured groups, [match.slice(1)]. *)
Definition regex_match (pattern : Pattern) (s : string) : option (string * string) :=
  match pattern with
  | StemSuffix alts => match_stem_suffix alts s (word_run s)
  | PrefixStem alts => match_prefix_stem alts s
  end.

(** The loop over [parts]: it stops at the first part without a direct
    match ([allMatched = false]), which is [None] here. *)
Fixpoint match_parts (parts : list string) : option (list Part) :=
  match parts with
  | [] => Some []
  | p :: rest =>
      match directMatch p with
      | Some partMatch =>
          match match_parts rest with
          | Some decomposition =>
              Some (mkPart p component (chinese_of partMatch) None (Some partMatch)
                      :: decomposition)
          | None => None
          end
      | None => None
      end
  end.

Definition try_pattern (word : string) (pattern : Pattern) : option CompoundMatch :=
  match regex_match pattern word with
  | Some (g1, g2) =>
      let parts := filter (fun p => 3 ≤ String.length p)%nat [g1; g2] in
      if (2 <=? length parts)%nat then
        match match_parts parts with
        | Some decomposition =>
            if (2 <=? length decomposition)%nat then
              let combinedChinese := join_text (map part_chinese decomposition) in
              Some {| comp_confidence := 0.75%Q;
                      comp_result :=
                        {| english := word; chinese := combinedChinese;
                           pinyin := ""; category := "Compound"; priority := 4 |};
                      comp_decomposition := decomposition |}
            else None
        | None => None
        end
      else None
  | None => None
  end.

(** [analyzeCompoundWord(word)]. *)
Definition analyzeCompoundWord (word : string) : option CompoundMatch :=
  if (String.length word <? 6)%nat then None
  else first_some (try_pattern word) patterns.

End Strategies.

(** The state of an analyzer: [this.cache], a [Map] from normalized words
    to the analyses returned for them. *)
Record t := mk {
  cache : gmap string Analysis
}.

(** [constructor()]: [this.cache = new Map()]. *)
Definition constructor : t := {| cache := ∅ |}.

(** [word.toLowerCase().trim()]. *)
Definition normalize (word : string) : string := trim (toLowerCase word).

(** The assignments of a successful branch of [analyze] to [analysis]. *)
Definition matched (analysis : Analysis) (confidence' : Q) (matchType' : MatchType)
    (result' : ResultObj) (decomposition' : list Part) (suggestions' : list Entry)
    : Analysis :=
  {| original := original analysis;
     normalized := normalized analysis;
     found := true;
     confidence := confidence';
     matchType := matchType';
     result := Some result';
     decomposition := decomposition';
     suggestions := suggestions';
     timestamp := timestamp analysis |}.

(** [analyze] after the cache check: the cascade of the five strategies.
    [now] is the value of [Date.now()]. *)
Definition cascade (db : ROOT_DATABASE) (now : Z) (word : string) : completion Analysis :=
  let lowerWord := normalize word in
  let analysis :=
    {| original := word; normalized := lowerWord; found := false;
       confidence := 0%Q; matchType := not_found; result := None;
       decomposition := []; suggestions := []; timestamp := now |} in
  match directMatch db lowerWord with
  | Some directMatch' =>
      Return (matched analysis 1.0%Q direct (RValue directMatch') [] [])
  | None =>
  match matchInflections db lowerWord with
  | Some inflectedMatch =>
      Return (matched analysis 0.95%Q inflection (RValue (infl_result inflectedMatch))
                (infl_decomposition inflectedMatch) [])
  | None =>
  match matchWithAffixes db lowerWord with
  | Some affixMatch =>
      Return (matched analysis (affix_confidence affixMatch) (affix_type affixMatch)
                (affix_result affixMatch) (affix_decomposition affixMatch) [])
  | None =>
  similarMatch ← findSimilarWords db lowerWord;
  match similarMatch with
  | Some similarMatch =>
      Return (matched analysis (sim_confidence similarMatch) similar
                (RValue (VEntry (sim_result similarMatch))) []
                (sim_suggestions similarMatch))
  | None =>
  match analyzeCompoundWord db lowerWord with
  | Some compoundMatch =>
      Return (matched analysis (comp_confidence compoundMatch) compound
                (RCompound (comp_result compoundMatch))
                (comp_decomposition compoundMatch) [])
  | None => Return analysis
  end end end end end.

(** [analyze(word)]: the cached analysis of the normalized word when there
    is one; otherwise the cascade, whose analysis enters the cache.  When
    the cascade throws, nothing is cached. *)
Definition analyze (db : ROOT_DATABASE) (this : t) (now : Z) (word : string)
    : completion Analysis * t :=
  let lowerWord := normalize word in
  match cache this !! lowerWord with
  | Some analysis => (Return analysis, this)
  | None =>
      match cascade db now word with
      | Return analysis =>
          (Return analysis, {| cache := <[lowerWord := analysis]> (cache this) |})
      | Throw e => (Throw e, this)
      end
  end.

End IntelligentWordAnalyzer.

Import IntelligentWordAnalyzer.

(** ** Vocabulary of the properties *)

(** The analyzers that a program can hold: a new one, and the one left by a
    call of [analyze].  [ROOT_DATABASE] is built before the analyzer is
    created and stays as it is during the life of the analyzer. *)
Inductive reachable (db : ROOT_DATABASE) : IntelligentWordAnalyzer.t → Prop :=
| reachable_new : reachable db constructor
| reachable_analyze this now word :
    reachable db this → reachable db (snd (analyze db this now word)).

(** Every cached analysis is what the cascade returned for a word with that
    normalization. *)
Definition cache_sound (db : ROOT_DATABASE) (this : IntelligentWordAnalyzer.t) : Prop :=
  ∀ k a, cache this !! k = Some a →
    ∃ now word, normalize word = k ∧ cascade db now word = Return a.

(** The texts of the parts of a decomposition, concatenated in order. *)
Definition parts_text (l : list Part) : string :=
  fold_right (fun p acc => part p +:+ acc) "" l.

(** The invariant of an analysis. *)
Definition analysis_invariant (a : Analysis) : Prop :=
  (found a = true → (0 < confidence a)%Q ∧ result a ≠ None)
  ∧ (matchType a = not_found → found a = false).

(** The entries that [findSimilarWords] compares the word with: the buckets
    of the lengths of its range, one after the other. *)
Definition candidate_pool (db : ROOT_DATABASE) (word : string) : completion (list Entry) :=
  foldM (fun pool len => ws ← wordsOfLength db len; Return (pool ++ ws))
        [] (lengths word).

(** An entry with its similarity to the word. *)
Definition scored (word_ : string) (e : Entry) : Candidate :=
  {| word := e; similarity := calculateSimilarity word_ (toLowerCase (english e)) |}.

(** The entries of a list that reach the threshold, with their similarity. *)
Definition above_threshold (word_ : string) (ws : list Entry) : list Candidate :=
  filter (fun c => Qle_bool threshold (similarity c) = true) (map (scored word_) ws).

(** The key of a word in the direct index. *)
Definition key (w : Entry) : string := toLowerCase (english w).

(** The keys of the two buckets that [extractRootData] pushes a word to. *)
Definition length_index (w : Entry) : string := length_key (String.length (key w)).
Definition letter_index (w : Entry) : string := letter_key (key w).

(** A key of one of the two secondary indexes. *)
Definition is_index_key (ik : string) : Prop :=
  ∃ x, ik = "length_" +:+ x ∨ ik = "letter_" +:+ x.

(** The words of a database of a given length, and with a given first
    letter, in the order of the database. *)
Definition entries_of_length (n : nat) (WORD_DATABASE : list Entry) : list Entry :=
  filter (fun w => String.length (key w) = n) WORD_DATABASE.

Definition entries_of_letter (c : string) (WORD_DATABASE : list Entry) : list Entry :=
  filter (fun w => first_letter (key w) = c) WORD_DATABASE.

(** The word that the direct index holds for a key is the last word of the
    database with that key. *)
Definition last_with_key (k : string) (WORD_DATABASE : list Entry) : option Entry :=
  last (filter (fun w => key w = k) WORD_DATABASE).

(** What [extractRootData] pushes under the key [ik] for the word [w]. *)
Definition contribution (ik : string) (w : Entry) : list Entry :=
  (if decide (length_index w = ik) then [w] else [])
  ++ (if decide (letter_index w = ik) then [w] else []).

(** The state of a bucket that received the words [l]: it is absent when [l]
    is empty, and the slot may also have been taken by a word of that key. *)
Definition bucket_ok (l : list Entry) (slot : option value) : Prop :=
  match slot with
  | None => l = []
  | Some (VArray ws) => ws = l
  | Some (VEntry _) => True
  | Some (VInherited _) => False
  end.

(** The words of a database whose length is one of those that
    [findSimilarWords] goes through, bucket after bucket. *)
Definition pool_of (WORD_DATABASE : list Entry) (word : string) : list Entry :=
  flat_map (fun len => entries_of_length len WORD_DATABASE) (lengths word).



(** The fields of an analysis other than [original] and [timestamp]. *)
Definition content (a : Analysis)
    : string * bool * Q * MatchType * option ResultObj * list Part * list Entry :=
  (normalized a, found a, confidence a, matchType a, result a,
   decomposition a, suggestions a).

(** A database whose words all have an [english] of code units below 128:
    the databases on which the keys, the lengths and the first letters of
    the embedding are those of the code. *)
Definition ascii_lexicon (WORD_DATABASE : list Entry) : Prop :=
  Forall (fun w => is_ascii (english w) = true) WORD_DATABASE.

(** A character that normalization leaves as it is, wherever it stands. *)
Definition is_plain (c : ascii) : bool := negb (is_space c) && negb (is_upper c).

(** ** Small databases for concrete runs *)

Module Samples.

Definition E (english' chinese' : string) : Entry :=
  {| english := english'; chinese := chinese'; pinyin := "";
     category := "Nature/Existence"; priority := 1 |}.

(** The object that [extractRootData] builds when it does not throw. *)
Definition root_of (WORD_DATABASE : list Entry) : ROOT_DATABASE :=
  match extractRootData WORD_DATABASE with
  | Return db => db
  | Throw _ => RootDatabase.empty
  end.

Definition cat := E "cat" "猫".
Definition spaced_cat := E " cat" "猫".
Definition old_cat := E "cat" "貓".
Definition water := E "water" "水".
Definition box := E "box" "盒".
Definition abcdef := E "abcdef" "甲".
Definition bcd := E "bcd" "乙".
Definition ab := E "ab" "丙".
Definition photo := E "photo" "光".
Definition graphy := E "graphy" "写".
Definition happy := E "happy" "乐".
Definition abcde := E "abcde" "丁".
Definition length_5 := E "length_5" "戊".
Definition free := E "free" "自由".

End Samples.

(** ** The input handler of the analyzer

    [analyzeInput()] reads the input field, trims it, and calls [analyze] on
    a word that is not empty; [value] is the content of the field.  The
    result is [None] when the handler returns after its alert.  The calls of
    [showLoading] and [displayAnalysis] around the call of [analyze] act on
    the page only, where the page has the elements they look up. *)
Definition analyzeInput (db : ROOT_DATABASE) (this : IntelligentWordAnalyzer.t)
    (now : Z) (value : string)
    : option (completion Analysis) * IntelligentWordAnalyzer.t :=
  let word := trim value in
  if (String.length word =? 0)%nat then (None, this)
  else
    let '(analysis, this') := analyze db this now word in
    (Some analysis, this').

(** ** The main script: the lookup over [appState.database]

    The second script of the file keeps its own database in [appState] and
    looks words up in it with [findWordInDatabase], which writes the
    [analysis] of the item it finds. *)

Module MainScript.

(** [CONFIG]. *)
Definition itemsPerPage : nat := 10.
Definition maxHistory : nat := 50.

(** The [analysis] object of an item; the items of the mapping file may
    come without [confidence]. *)
Record Info := mkInfo {
  structure : string;
  morphemes : list string;
  meaning : string;
  matchType : string;
  confidence : option Q
}.

(** An item of [appState.database]. *)
Record Item := mkItem {
  english : string;
  chinese : string;
  pinyin : string;
  category : string;
  priority : Z;
  analysis : option Info
}.

(** [[...new Set(lemmas)]]: the distinct strings, in the order of their
    first occurrence. *)
Definition dedupe (l : list string) : list string :=
  fold_left (fun acc x => if bool_decide (x ∈ acc) then acc else acc ++ [x]) l [].

(** What the loop over the suffixes of [getLemmas] pushes for one suffix. *)
Definition suffix_lemmas (word suffix : string) : list string :=
  if endsWith word suffix
     && (String.length suffix + 2 <? String.length word)%nat then
    let base := slice word 0 (Some (- Z.of_nat (String.length suffix))%Z) in
    [base]
    ++ (if String.eqb suffix "es" && endsWith word "ies"
        then [slice word 0 (Some (-3)%Z) +:+ "y"] else [])
    ++ (if String.eqb suffix "ed" && endsWith word "ied"
        then [slice word 0 (Some (-3)%Z) +:+ "y"] else [])
  else [].

(** What the loop over the prefixes pushes for one prefix. *)
Definition prefix_lemmas (word prefix : string) : list string :=
  if startsWith word prefix
     && (String.length prefix + 2 <? String.length word)%nat
  then [slice word (Z.of_nat (String.length prefix)) None] else [].

(** [getLemmas(word)]. *)
Definition getLemmas (word : string) : list string :=
  let lemmas := [word] in
  let lemmas :=
    fold_left (fun lemmas suffix => lemmas ++ suffix_lemmas word suffix)
      ["s"; "es"; "ed"; "ing"; "ly"; "ment"; "ness"; "tion"] lemmas in
  let lemmas :=
    fold_left (fun lemmas prefix => lemmas ++ prefix_lemmas word prefix)
      ["un"; "dis"; "re"; "pre"; "mis"; "over"; "under"] lemmas in
  dedupe lemmas.

(** [calculateSimilarity(str1, str2)] of the main script: the test of
    inclusion comes first, so that a string and itself score 0.9. *)
Definition calculateSimilarity (str1 str2 : string) : Q :=
  let longer := if (String.length str2 <? String.length str1)%nat then str1 else str2 in
  let shorter := if (String.length str2 <? String.length str1)%nat then str2 else str1 in
  if (String.length longer =? 0)%nat then 1.0%Q
  else if includes longer shorter then 0.9%Q
  else
    let set1 := new_Set (chars str1) in
    let set2 := new_Set (chars str2) in
    let intersection := new_Set (filter (fun x => x ∈ set2) set1) in
    let union := new_Set (set1 ++ set2) in
    (Z.of_nat (length intersection) # Pos.of_nat (length union))%Q.

(** [a > b] on numbers. *)
Definition gt (a b : Q) : bool := negb (Qle_bool a b).

(** The copy [{ ...entry, similarity }] of [findFuzzyMatch]. *)
Record FuzzyMatch := mkFuzzy {
  entry : Item;
  similarity : Q
}.

(** [findFuzzyMatch(word)] over a database. *)
Definition findFuzzyMatch (database : list Item) (word : string) : option FuzzyMatch :=
  snd (fold_left
         (fun '(bestSimilarity, bestMatch) entry =>
            let similarity := calculateSimilarity word (toLowerCase (english entry)) in
            if gt similarity bestSimilarity && gt similarity 0.6%Q
            then (similarity, Some {| entry := entry; similarity := similarity |})
            else (bestSimilarity, bestMatch))
         database (0%Q, None)).

(** [database.find(item => item.english.toLowerCase() === word)]: the first
    such item, with its index. *)
Definition find_word (database : list Item) (word : string) : option (nat * Item) :=
  list_find (fun item => toLowerCase (english item) = word) database.

Definition with_analysis (item : Item) (info : Info) : Item :=
  {| english := english item; chinese := chinese item; pinyin := pinyin item;
     category := category item; priority := priority item;
     analysis := Some info |}.

Definition with_confidence (info : Info) (c : Q) : Info :=
  {| structure := structure info; morphemes := morphemes info;
     meaning := meaning info; matchType := matchType info;
     confidence := Some c |}.

(** The double quote of the template literals. *)
Definition dquote : string := String (ascii_of_nat 34) EmptyString.

(** What [findWordInDatabase] returns: an item of the database, which the
    caller holds by reference (here with its index), or the copy that
    [findFuzzyMatch] made, with its [similarity]. *)
Inductive Lookup :=
| InDatabase (index : nat) (item : Item)
| Copy (item : Item) (similarity : Q).

Definition found_item (r : Lookup) : Item :=
  match r with
  | InDatabase _ item => item
  | Copy item _ => item
  end.

(** [findWordInDatabase(word)]: the result, and [appState.database] after
    the call. *)
Definition findWordInDatabase (database : list Item) (word : string)
    : option Lookup * list Item :=
  match find_word database word with
  | Some (i, entry) =>
      let info :=
        match analysis entry with
        | Some info => info
        | None => {| structure := "Direct match"; morphemes := [word];
                     meaning := "Exact correspondence"; matchType := "direct";
                     confidence := None |}
        end in
      let entry := with_analysis entry (with_confidence info 1.0%Q) in
      (Some (InDatabase i entry), <[i := entry]> database)
  | None =>
      match first_some
              (fun lemma =>
                 match find_word database lemma with
                 | Some (i, entry) => Some (lemma, i, entry)
                 | None => None
                 end)
              (getLemmas word) with
      | Some (lemma, i, entry) =>
          let entry :=
            with_analysis entry
              {| structure := "Base form: " +:+ lemma;
                 morphemes := [lemma];
                 meaning := "From base word " +:+ dquote +:+ lemma +:+ dquote;
                 matchType := "lemma";
                 confidence := Some 0.9%Q |} in
          (Some (InDatabase i entry), <[i := entry]> database)
      | None =>
          match findFuzzyMatch database word with
          | Some {| entry := entry; similarity := similarity |} =>
              let entry :=
                with_analysis entry
                  {| structure := "Similar to " +:+ dquote +:+ english entry +:+ dquote;
                     morphemes := [english entry];
                     meaning := "Close match to " +:+ dquote +:+ english entry +:+ dquote;
                     matchType := "fuzzy";
                     confidence :=
                       Some (if Qeq_bool similarity 0 then 0.7%Q else similarity) |} in
              (Some (Copy entry similarity), database)
          | None => (None, database)
          end
      end
  end.

(** [String.prototype.indexOf(search)]: the first offset at which [search]
    occurs, or -1. *)
Fixpoint first_offset (s search : string) : option nat :=
  if startsWith s search then Some 0
  else match s with
       | EmptyString => None
       | String _ s' => S <$> first_offset s' search
       end.

Definition indexOf (s search : string) : Z :=
  match first_offset s search with
  | Some n => Z.of_nat n
  | None => (-1)%Z
  end.

(** The table [classicalRoots], in the order of its keys. *)
Definition classicalRoots : list (string * string) :=
  [ ("photo", "光"); ("graph", "写"); ("tele", "远"); ("phon", "声");
    ("bio", "生"); ("logy", "学"); ("demo", "民"); ("cracy", "治");
    ("geo", "地"); ("therm", "热"); ("hydro", "水"); ("psych", "心");
    ("chron", "时"); ("astr", "星"); ("anthrop", "人"); ("soci", "社") ].

Record FoundRoot := mkRoot {
  root : string;
  root_meaning : string;
  position : Z
}.

(** [foundRoots.sort((a, b) => a.position - b.position)]: a stable sort by
    increasing position. *)
Fixpoint insert_root (r : FoundRoot) (l : list FoundRoot) : list FoundRoot :=
  match l with
  | [] => [r]
  | r' :: l' =>
      if (position r <=? position r')%Z then r :: r' :: l'
      else r' :: insert_root r l'
  end.

Definition sort_roots (l : list FoundRoot) : list FoundRoot :=
  fold_right insert_root [] l.

(** [detectClassicalRoots(word)]. *)
Definition detectClassicalRoots (word : string) : list FoundRoot :=
  let foundRoots :=
    fold_left
      (fun foundRoots '(root, meaning) =>
         if includes word root
         then foundRoots ++ [ {| root := root; root_meaning := meaning;
                                position := indexOf word root |} ]
         else foundRoots)
      classicalRoots [] in
  sort_roots foundRoots.

(** The regular expressions of [segmentCompoundWord] have the two shapes of
    those of the analyzer, without the flag [i]. *)
Fixpoint match_stem_suffix (alternatives : list string) (s : string) (k : nat)
    : option (string * string) :=
  match k with
  | 0 => None
  | S k' =>
      let rest := str_drop k s in
      if existsb (String.eqb rest) alternatives
      then Some (str_take k s, rest)
      else match_stem_suffix alternatives s k'
  end.

Definition match_prefix_stem (alternatives : list string) (s : string)
    : option (string * string) :=
  first_some
    (fun alt =>
       let n := String.length alt in
       let rest := str_drop n s in
       if startsWith s alt && (0 <? String.length rest)%nat && all_word_chars rest
       then Some (str_take n s, rest) else None)
    alternatives.

Definition regex_match (pattern : Pattern) (s : string) : option (string * string) :=
  match pattern with
  | StemSuffix alts => match_stem_suffix alts s (word_run s)
  | PrefixStem alts => match_prefix_stem alts s
  end.

Definition patterns : list Pattern :=
  [ StemSuffix ["graphy"; "logy"; "nomy"; "sophy"; "pathy"];
    PrefixStem ["micro"; "macro"; "tele"; "hydro"; "psych"; "chron"];
    StemSuffix ["able"; "ible"; "ful"; "less"; "ness"; "ment"; "tion"; "sion"];
    PrefixStem ["un"; "dis"; "re"; "pre"; "mis"; "over"; "under"] ].

Definition is_vowel (c : ascii) : bool :=
  existsb (Ascii.eqb c) ["a"; "e"; "i"; "o"; "u"]%char.

(** The loop of [segmentCompoundWord] over the characters of the word:
    [rest] is what is left of the word from the index [i] on. *)
Fixpoint split_at_vowels (rest : string) (segments : list string)
    (currentSegment : string) : list string * string :=
  match rest with
  | EmptyString => (segments, currentSegment)
  | String c remaining =>
      let currentSegment := currentSegment +:+ String c EmptyString in
      match remaining with
      | EmptyString => split_at_vowels remaining segments currentSegment
      | String next _ =>
          if is_vowel c && negb (is_vowel next)
             && (2 <? String.length currentSegment)%nat
             && (2 <? String.length remaining)%nat
          then split_at_vowels remaining (segments ++ [currentSegment]) EmptyString
          else split_at_vowels remaining segments currentSegment
      end
  end.

(** [segmentCompoundWord(word)]. *)
Definition segmentCompoundWord (word : string) : list string :=
  match first_some (fun pattern => regex_match pattern word) patterns with
  | Some (g1, g2) => filter (fun segment => 1 < String.length segment) [g1; g2]
  | None =>
      let '(segments, currentSegment) := split_at_vowels word [] EmptyString in
      let segments :=
        if (0 <? String.length currentSegment)%nat
        then segments ++ [currentSegment] else segments in
      if (1 <? length segments)%nat then segments else [word]
  end.

(** The part of [analyzeWord] that keeps [appState.searchHistory]: [value]
    is the content of the input field. *)
Definition analyzeWord (searchHistory : list string) (value : string) : list string :=
  let word := toLowerCase (trim value) in
  if (String.length word =? 0)%nat then searchHistory
  else if bool_decide (word ∈ searchHistory) then searchHistory
  else
    let searchHistory := word :: searchHistory in
    if (maxHistory <? length searchHistory)%nat
    then removelast searchHistory else searchHistory.

(** [Array.prototype.slice(start, end)]. *)
Definition array_slice {A} (l : list A) (start end_ : Z) : list A :=
  let from := clamp_index (length l) start in
  let to := clamp_index (length l) end_ in
  take (to - from) (drop from l).

(** [Math.ceil(filteredDatabase.length / CONFIG.itemsPerPage)]. *)
Definition totalPages {A} (filteredDatabase : list A) : Z :=
  Z.of_nat ((length filteredDatabase + (itemsPerPage - 1)) / itemsPerPage).

(** [changePage(page)], on [appState.currentPage]. *)
Definition changePage {A} (filteredDatabase : list A) (currentPage page : Z) : Z :=
  if (page <? 1)%Z || (totalPages filteredDatabase <? page)%Z then currentPage
  else page.

(** The [pageItems] of [renderDatabaseTable]. *)
Definition pageItems {A} (filteredDatabase : list A) (currentPage : Z) : list A :=
  let startIndex := ((currentPage - 1) * Z.of_nat itemsPerPage)%Z in
  let endIndex := (startIndex + Z.of_nat itemsPerPage)%Z in
  array_slice filteredDatabase startIndex endIndex.

End MainScript.

(** Items and a database of the main script for the runs of its
    properties. *)
Module MainSamples.

Definition I (english' chinese' : string) : MainScript.Item :=
  {| MainScript.english := english'; MainScript.chinese := chinese';
     MainScript.pinyin := ""; MainScript.category := "Nature/Existence";
     MainScript.priority := 1; MainScript.analysis := None |}.

Definition database : list MainScript.Item :=
  [ I "Cat" "猫"; I "photograph" "照片"; I "happy" "乐" ].

Definition numbers : list nat := seq 0 25.

End MainSamples.

(** * Properties *)

(** ** Strings *)

Section StringFacts.

Lemma append_cons c (s t : string) : String c s +:+ t = String c (s +:+ t).
Proof. reflexivity. Qed.

Lemma str_take_drop n s : str_take n s +:+ str_drop n s = s.
Proof.
  revert s; induction n as [|n IH]; intros [|c s]; simpl; try reflexivity.
  rewrite append_cons. f_equal. apply IH.
Qed.

Lemma length_str_drop n s : String.length (str_drop n s) = String.length s - n.
Proof.
  revert s; induction n as [|n IH]; intros [|c s]; simpl; auto with lia.
Qed.

Lemma str_take_all n s : String.length s ≤ n → str_take n s = s.
Proof.
  revert s; induction n as [|n IH]; intros [|c s]; simpl; intros H;
    try reflexivity; try lia.
  rewrite IH; [reflexivity | lia].
Qed.

Lemma length_append (s t : string) :
  String.length (s +:+ t) = String.length s + String.length t.
Proof. induction s as [|c s IH]; [reflexivity|]. rewrite append_cons. simpl. lia. Qed.

Lemma clamp_index_neg len k :
  0 < k → clamp_index len (- Z.of_nat k) = len - k.
Proof.
  intros Hk. unfold clamp_index.
  destruct (Z.ltb_spec (- Z.of_nat k) 0); lia.
Qed.

Lemma clamp_index_nat len k : clamp_index len (Z.of_nat k) = Nat.min k len.
Proof.
  unfold clamp_index. destruct (Z.ltb_spec (Z.of_nat k) 0); lia.
Qed.

(** [w.slice(0, -s.length)] is what precedes a non-empty ending [s]. *)
Lemma endsWith_slice w s :
  0 < String.length s → endsWith w s = true →
  slice w 0 (Some (- Z.of_nat (String.length s))%Z) +:+ s = w.
Proof.
  intros Hs H. unfold endsWith in H.
  apply andb_true_iff in H as [Hlen Heq].
  apply Nat.leb_le in Hlen. apply String.eqb_eq in Heq.
  unfold slice. rewrite clamp_index_neg by assumption.
  change 0%Z with (Z.of_nat 0). rewrite clamp_index_nat. simpl.
  rewrite Nat.sub_0_r.
  rewrite <- Heq at 2. apply str_take_drop.
Qed.

(** [w.slice(p.length)] is what follows the beginning [p]. *)
Lemma startsWith_slice w p :
  startsWith w p = true → p +:+ slice w (Z.of_nat (String.length p)) None = w.
Proof.
  intros H. unfold startsWith in H.
  apply andb_true_iff in H as [Hlen Heq].
  apply Nat.leb_le in Hlen. apply String.eqb_eq in Heq.
  unfold slice. rewrite clamp_index_nat.
  rewrite Nat.min_l by assumption.
  rewrite str_take_all by (rewrite length_str_drop; lia).
  rewrite <- Heq at 1. apply str_take_drop.
Qed.

End StringFacts.

(** ** Loops with an early return *)

Lemma first_some_elim {A B} (f : A → option B) (l : list A) (b : B) :
  first_some f l = Some b → ∃ a, a ∈ l ∧ f a = Some b.
Proof.
  induction l as [|a l IH]; simpl; [discriminate|].
  destruct (f a) as [b'|] eqn:E.
  - intros [= <-]. exists a. split; [left | assumption].
  - intros H. destruct (IH H) as (a' & Hin & Ha'). exists a'. split; [now right | assumption].
Qed.

(** ** Completions and loops that may throw *)

Lemma bind_Return {A B} (m : completion A) (f : A → completion B) (b : B) :
  (m ≫= f) = Return b → ∃ a, m = Return a ∧ f a = Return b.
Proof. destruct m as [a|e]; simpl; [eauto | discriminate]. Qed.

(** ** The cache holds what the cascade computed *)

Lemma analyze_sound db this now word :
  cache_sound db this → cache_sound db (snd (analyze db this now word)).
Proof.
  intros Hs. unfold analyze.
  destruct (cache this !! normalize word) as [a|] eqn:Hc; [exact Hs|].
  destruct (cascade db now word) as [a|e] eqn:Hr; [|exact Hs].
  intros k a' Hk. simpl in Hk.
  destruct (decide (normalize word = k)) as [<-|Hne].
  - rewrite lookup_insert_eq in Hk. injection Hk as <-. eauto.
  - rewrite lookup_insert_ne in Hk by assumption. eauto.
Qed.

Lemma reachable_sound db this : reachable db this → cache_sound db this.
Proof.
  induction 1 as [|this now word _ IH].
  - intros k a Hk. simpl in Hk. rewrite lookup_empty in Hk. discriminate.
  - now apply analyze_sound.
Qed.

(** Whatever [analyze] returns was computed by the cascade, now or at an
    earlier call, for a word with the same normalization. *)
Lemma analyze_cascade db this now word a this' :
  reachable db this → analyze db this now word = (Return a, this') →
  ∃ now' word', normalize word' = normalize word ∧ cascade db now' word' = Return a.
Proof.
  intros Hr%reachable_sound. unfold analyze.
  destruct (cache this !! normalize word) as [a0|] eqn:Hc.
  - intros [= -> _]. exact (Hr _ _ Hc).
  - destruct (cascade db now word) as [a0|e] eqn:Hrun; intros [= <- _]. eauto.
Qed.

(** ** Decompositions of the inflection and affix strategies *)

Lemma append_empty_r (s : string) : s +:+ "" = s.
Proof. induction s as [|c s IH]; [reflexivity|]. rewrite append_cons. now f_equal. Qed.

Lemma inflections_not_empty i :
  i ∈ MORPHEME_RULES.inflections → 0 < String.length i.
Proof.
  revert i. apply Forall_forall.
  unfold MORPHEME_RULES.inflections. repeat constructor.
Qed.

Lemma suffixes_not_empty i :
  i ∈ MORPHEME_RULES.suffixes → 0 < String.length i.
Proof.
  revert i. apply Forall_forall.
  unfold MORPHEME_RULES.suffixes. repeat (constructor; [simpl; lia|]). constructor.
Qed.

Lemma try_inflection_parts db w i m :
  0 < String.length i → try_inflection db w i = Some m →
  parts_text (infl_decomposition m) = w.
Proof.
  intros Hi. unfold try_inflection.
  destruct (endsWith w i) eqn:He; [|discriminate].
  destruct (directMatch db _) as [v|]; [|discriminate].
  intros [= <-]. simpl. rewrite append_empty_r. now apply endsWith_slice.
Qed.

Lemma matchInflections_parts db w m :
  matchInflections db w = Some m → parts_text (infl_decomposition m) = w.
Proof.
  intros (i & Hin & Hi)%first_some_elim.
  eapply try_inflection_parts; [|exact Hi]. now apply inflections_not_empty.
Qed.

Lemma try_prefix_parts db w p m :
  try_prefix db w p = Some m →
  parts_text (affix_decomposition m) = w ∧ affix_type m = prefixed
  ∧ affix_confidence m = 0.85%Q.
Proof.
  unfold try_prefix.
  destruct (startsWith w p) eqn:He; [|discriminate]. simpl.
  destruct (_ <? _)%nat; [|discriminate].
  destruct (directMatch db _) as [v|]; [|discriminate].
  intros [= <-]. simpl. rewrite append_empty_r. split; [|split; reflexivity].
  now apply startsWith_slice.
Qed.

Lemma try_suffix_parts db w x m :
  0 < String.length x → try_suffix db w x = Some m →
  parts_text (affix_decomposition m) = w ∧ affix_type m = suffixed
  ∧ affix_confidence m = 0.80%Q.
Proof.
  intros Hx. unfold try_suffix.
  destruct (endsWith w x) eqn:He; [|discriminate]. simpl.
  destruct (_ <? _)%nat; [|discriminate].
  destruct (directMatch db _) as [v|]; [|discriminate].
  intros [= <-]. simpl. rewrite append_empty_r. split; [|split; reflexivity].
  now apply endsWith_slice.
Qed.

Lemma matchWithAffixes_parts db w m :
  matchWithAffixes db w = Some m →
  parts_text (affix_decomposition m) = w
  ∧ ((affix_type m = prefixed ∧ affix_confidence m = 0.85%Q)
     ∨ (affix_type m = suffixed ∧ affix_confidence m = 0.80%Q)).
Proof.
  unfold matchWithAffixes.
  destruct (first_some (try_prefix db w) _) as [m'|] eqn:Hp.
  - intros [= <-]. apply first_some_elim in Hp as (p & _ & Hp).
    apply try_prefix_parts in Hp. intuition.
  - intros (x & Hin & Hx)%first_some_elim.
    apply try_suffix_parts in Hx; [intuition | now apply suffixes_not_empty].
Qed.

(** The shape of what the cascade returns, strategy by strategy. *)
Lemma cascade_cases db now w a :
  cascade db now w = Return a →
  let lw := normalize w in
  let a0 := {| original := w; normalized := lw; found := false;
               confidence := 0%Q; matchType := not_found; result := None;
               decomposition := []; suggestions := []; timestamp := now |} in
  (∃ v, directMatch db lw = Some v ∧ a = matched a0 1.0%Q direct (RValue v) [] [])
  ∨ (directMatch db lw = None
     ∧ ∃ m, matchInflections db lw = Some m
        ∧ a = matched a0 0.95%Q inflection (RValue (infl_result m))
                (infl_decomposition m) [])
  ∨ (directMatch db lw = None ∧ matchInflections db lw = None
     ∧ ∃ m, matchWithAffixes db lw = Some m
        ∧ a = matched a0 (affix_confidence m) (affix_type m) (affix_result m)
                (affix_decomposition m) [])
  ∨ (directMatch db lw = None ∧ matchInflections db lw = None
     ∧ matchWithAffixes db lw = None
     ∧ ∃ m, findSimilarWords db lw = Return (Some m)
        ∧ a = matched a0 (sim_confidence m) similar (RValue (VEntry (sim_result m)))
                [] (sim_suggestions m))
  ∨ (directMatch db lw = None ∧ matchInflections db lw = None
     ∧ matchWithAffixes db lw = None ∧ findSimilarWords db lw = Return None
     ∧ ∃ m, analyzeCompoundWord db lw = Some m
        ∧ a = matched a0 (comp_confidence m) compound (RCompound (comp_result m))
                (comp_decomposition m) [])
  ∨ (directMatch db lw = None ∧ matchInflections db lw = None
     ∧ matchWithAffixes db lw = None ∧ findSimilarWords db lw = Return None
     ∧ analyzeCompoundWord db lw = None ∧ a = a0).
Proof.
  intros H lw a0. unfold cascade in H. fold lw in H. fold a0 in H.
  destruct (directMatch db lw) as [v|] eqn:Hd.
  { injection H as <-. left. eauto. }
  right. destruct (matchInflections db lw) as [m|] eqn:Hi.
  { injection H as <-. left. eauto. }
  right. destruct (matchWithAffixes db lw) as [m|] eqn:Ha.
  { injection H as <-. left. eauto. }
  right. destruct (findSimilarWords db lw) as [[m|]|e] eqn:Hs; simpl in H;
    [| |discriminate].
  { injection H as <-. left. eauto 6. }
  right. destruct (analyzeCompoundWord db lw) as [m|] eqn:Hc.
  { injection H as <-. left. eauto 7. }
  right. injection H as <-. auto 7.
Qed.

(** ** The candidates of the similar-word strategy *)

Lemma above_threshold_app w l1 l2 :
  above_threshold w (l1 ++ l2) = above_threshold w l1 ++ above_threshold w l2.
Proof. unfold above_threshold. now rewrite map_app, filter_app. Qed.

Lemma scan_bucket_spec w candidates ws :
  scan_bucket w candidates ws = candidates ++ above_threshold w ws.
Proof.
  revert candidates; induction ws as [|e ws IH]; intros candidates.
  - simpl. now rewrite app_nil_r.
  - change (e :: ws) with ([e] ++ ws). rewrite above_threshold_app.
    simpl. rewrite IH. unfold above_threshold at 2. simpl.
    rewrite filter_cons, filter_nil. unfold scored at 2. simpl.
    destruct (Qle_bool threshold _) eqn:Hq.
    + rewrite decide_True by reflexivity. now rewrite <- app_assoc.
    + rewrite decide_False by discriminate. now rewrite app_nil_l.
Qed.

Lemma collect_candidates_fold db w ls pool :
  foldM (fun candidates len =>
           ws ← wordsOfLength db len; Return (scan_bucket w candidates ws))
        (above_threshold w pool) ls
  = (foldM (fun pool len => ws ← wordsOfLength db len; Return (pool ++ ws)) pool ls
       ≫= fun pool' => Return (above_threshold w pool')).
Proof.
  revert pool; induction ls as [|len ls IH]; intros pool; simpl; [reflexivity|].
  destruct (wordsOfLength db len) as [ws|e]; simpl; [|reflexivity].
  rewrite scan_bucket_spec, <- above_threshold_app. apply IH.
Qed.

(** The candidates are the entries of the pool that reach the threshold, in
    the order of the pool. *)
Lemma collect_candidates_spec db w :
  collect_candidates db w
  = (candidate_pool db w ≫= fun pool => Return (above_threshold w pool)).
Proof. exact (collect_candidates_fold db w (lengths w) []). Qed.

Lemma above_threshold_positive w ws c :
  c ∈ above_threshold w ws → (0 < similarity c)%Q.
Proof.
  unfold above_threshold. intros [Hq _]%list_elem_of_filter.
  apply Qle_bool_iff in Hq. eapply Qlt_le_trans; [|exact Hq]. reflexivity.
Qed.

(** ** The stable sort of the candidates *)

Lemma insert_candidate_perm c l : insert_candidate c l ≡ₚ c :: l.
Proof.
  induction l as [|d l IH]; simpl; [reflexivity|].
  destruct (Qle_bool _ _); [reflexivity|].
  rewrite IH. apply Permutation_swap.
Qed.

Lemma sort_candidates_perm l : sort_candidates l ≡ₚ l.
Proof.
  induction l as [|c l IH]; simpl; [reflexivity|].
  now rewrite insert_candidate_perm, IH.
Qed.

Lemma findSimilarWords_spec db w r :
  findSimilarWords db w = Return r →
  ∃ pool, candidate_pool db w = Return pool
    ∧ r = match sort_candidates (above_threshold w pool) with
          | [] => None
          | top :: rest =>
              Some {| sim_confidence := similarity top;
                      sim_result := word top;
                      sim_suggestions := map word (take 4 rest) |}
          end.
Proof.
  unfold findSimilarWords. rewrite collect_candidates_spec.
  destruct (candidate_pool db w) as [pool|e]; simpl; [|discriminate].
  intros H. exists pool. split; [reflexivity|].
  destruct (sort_candidates _) as [|top rest]; now injection H as <-.
Qed.

Lemma findSimilarWords_confidence db w m :
  findSimilarWords db w = Return (Some m) → (0 < sim_confidence m)%Q.
Proof.
  intros (pool & _ & H)%findSimilarWords_spec.
  destruct (sort_candidates _) as [|top rest] eqn:Hs; [discriminate|].
  injection H as ->. simpl.
  apply (above_threshold_positive w pool).
  rewrite <- (sort_candidates_perm (above_threshold w pool)), Hs. left.
Qed.

Lemma analyzeCompoundWord_confidence db w m :
  analyzeCompoundWord db w = Some m → comp_confidence m = 0.75%Q.
Proof.
  unfold analyzeCompoundWord. destruct (_ <? _)%nat; [discriminate|].
  intros (pat & _ & H)%first_some_elim. unfold try_pattern in H.
  destruct (regex_match pat w) as [[g1 g2]|]; [|discriminate].
  destruct (_ <=? _)%nat; [|discriminate].
  destruct (match_parts db _) as [d|]; [|discriminate].
  destruct (_ <=? _)%nat; [|discriminate].
  now injection H as <-.
Qed.

(** ** The invariant of an analysis (C2) and its decomposition (C8) *)

Lemma cascade_invariant db now w a :
  cascade db now w = Return a → analysis_invariant a.
Proof.
  intros H. apply cascade_cases in H. simpl in H. unfold analysis_invariant.
  destruct H as [(v & _ & ->) | [(_ & m & _ & ->) | [(_ & _ & m & Hm & ->)
    | [(_ & _ & _ & m & Hm & ->) | [(_ & _ & _ & _ & m & Hm & ->)
    | (_ & _ & _ & _ & _ & ->)]]]]]; simpl.
  - repeat split; try discriminate; auto.
  - repeat split; try discriminate; auto.
  - apply matchWithAffixes_parts in Hm as (_ & [[-> ->] | [-> ->]]);
      repeat split; try discriminate; auto.
  - apply findSimilarWords_confidence in Hm.
    repeat split; try discriminate; auto.
  - apply analyzeCompoundWord_confidence in Hm as ->.
    repeat split; try discriminate; auto.
  - split; [discriminate | reflexivity].
Qed.

(** C2.  Whatever word [analyze] is given, on a new analyzer or on one whose
    cache earlier calls filled, the analysis that it returns satisfies:
    [found] implies a confidence above 0 and a [result] that is not null; and
    the match type [not_found] implies that [found] is false. *)
Theorem analyze_invariant db this now word a this' :
  reachable db this →
  analyze db this now word = (Return a, this') →
  (found a = true → (0 < confidence a)%Q ∧ result a ≠ None)
  ∧ (matchType a = not_found → found a = false).
Proof.
  intros Hr Ha.
  destruct (analyze_cascade _ _ _ _ _ _ Hr Ha) as (now' & word' & _ & Hc).
  exact (cascade_invariant _ _ _ _ Hc).
Qed.

(** Closes a goal whose hypothesis lists a match type among others. *)
Ltac not_listed H :=
  exfalso; revert H; rewrite ?elem_of_cons, elem_of_nil; intuition discriminate.

Lemma cascade_parts db now w a :
  cascade db now w = Return a →
  matchType a ∈ [inflection; prefixed; suffixed] →
  parts_text (decomposition a) = normalize w ∧ normalized a = normalize w.
Proof.
  intros H Hk. apply cascade_cases in H. simpl in H.
  destruct H as [(v & _ & ->) | [(_ & m & Hm & ->) | [(_ & _ & m & Hm & ->)
    | [(_ & _ & _ & m & Hm & ->) | [(_ & _ & _ & _ & m & Hm & ->)
    | (_ & _ & _ & _ & _ & ->)]]]]]; simpl in *.
  - not_listed Hk.
  - split; [|reflexivity]. now apply matchInflections_parts in Hm.
  - split; [|reflexivity]. now apply matchWithAffixes_parts in Hm as [? _].
  - not_listed Hk.
  - not_listed Hk.
  - not_listed Hk.
Qed.

(** C8.  For every analysis that [analyze] returns with match type
    [inflection], [prefixed] or [suffixed], the texts of the parts of the
    decomposition, concatenated in order, are the normalized input word. *)
Theorem decomposition_reproduces_word db this now word a this' :
  reachable db this →
  analyze db this now word = (Return a, this') →
  matchType a ∈ [inflection; prefixed; suffixed] →
  parts_text (decomposition a) = normalize word.
Proof.
  intros Hr Ha Hk.
  destruct (analyze_cascade _ _ _ _ _ _ Hr Ha) as (now' & word' & Hn & Hc).
  rewrite <- Hn. now apply (cascade_parts _ _ _ _ Hc).
Qed.

(** ** The compound strategy *)

Lemma match_stem_suffix_split alts s k g1 g2 :
  match_stem_suffix alts s k = Some (g1, g2) → g1 +:+ g2 = s.
Proof.
  induction k as [|k IH]; simpl; [discriminate|].
  destruct (existsb _ alts); [|exact IH].
  intros [= <- <-]. apply (str_take_drop (S k) s).
Qed.

Lemma match_prefix_stem_split alts s g1 g2 :
  match_prefix_stem alts s = Some (g1, g2) → g1 +:+ g2 = s.
Proof.
  intros (alt & _ & H)%first_some_elim. simpl in H.
  destruct (_ && _); [|discriminate].
  injection H as <- <-. apply str_take_drop.
Qed.

(** The two groups of a match make up the word. *)
Lemma regex_match_split pat s g1 g2 :
  regex_match pat s = Some (g1, g2) → g1 +:+ g2 = s.
Proof.
  destruct pat; simpl; eauto using match_stem_suffix_split, match_prefix_stem_split.
Qed.

Lemma try_pattern_spec db w pat m :
  try_pattern db w pat = Some m →
  ∃ g1 g2 v1 v2,
    regex_match pat w = Some (g1, g2)
    ∧ 3 ≤ String.length g1 ∧ 3 ≤ String.length g2
    ∧ directMatch db g1 = Some v1 ∧ directMatch db g2 = Some v2
    ∧ m = {| comp_confidence := 0.75%Q;
             comp_result :=
               {| english := w;
                  chinese := join_text [chinese_of v1; chinese_of v2];
                  pinyin := ""; category := "Compound"; priority := 4 |};
             comp_decomposition :=
               [ mkPart g1 component (chinese_of v1) None (Some v1);
                 mkPart g2 component (chinese_of v2) None (Some v2) ] |}.
Proof.
  unfold try_pattern.
  destruct (regex_match pat w) as [[g1 g2]|]; [|discriminate].
  rewrite !filter_cons, filter_nil.
  destruct (decide (3 ≤ String.length g1)) as [H1|H1];
    destruct (decide (3 ≤ String.length g2)) as [H2|H2]; simpl; try discriminate.
  destruct (directMatch db g1) as [v1|] eqn:E1; [|discriminate].
  destruct (directMatch db g2) as [v2|] eqn:E2; [|discriminate].
  simpl. intros [= <-]. exists g1, g2, v1, v2. auto 10.
Qed.

Lemma analyzeCompoundWord_spec db w m :
  analyzeCompoundWord db w = Some m →
  6 ≤ String.length w
  ∧ ∃ pat, pat ∈ patterns ∧ try_pattern db w pat = Some m.
Proof.
  unfold analyzeCompoundWord.
  destruct (Nat.ltb_spec (String.length w) 6) as [Hlt|Hge]; [discriminate|].
  intros (pat & Hin & Hpat)%first_some_elim. eauto.
Qed.

(** ** The object ROOT_DATABASE *)

Lemma of_nat_inj n m : of_nat n = of_nat m → n = m.
Proof.
  unfold of_nat. intros H.
  assert (Hnil : ∀ k, Nat.to_uint k ≠ Decimal.Nil).
  { intros k Hk. pose proof (DecimalNat.Unsigned.to_of (Nat.to_uint k)) as E.
    rewrite DecimalNat.Unsigned.of_to, Hk in E. discriminate. }
  apply (f_equal NilZero.uint_of_string) in H.
  rewrite !NilZero.usu in H by apply Hnil.
  injection H as H. now apply DecimalNat.Unsigned.to_uint_inj.
Qed.

Lemma length_key_inj n m : length_key n = length_key m → n = m.
Proof. unfold length_key. intros H%(inj _). now apply of_nat_inj. Qed.

Lemma length_key_not_letter n eng : length_key n ≠ letter_key eng.
Proof. unfold length_key, letter_key. cbv -[of_nat first_letter]. discriminate. Qed.

(** Nothing is inherited under a key of the secondary indexes. *)
Lemma inherited_index_key p ik : is_index_key ik → inherited p ik = None.
Proof.
  intros [x [-> | ->]]; destruct p as [w|]; reflexivity.
Qed.

Lemma get_index_key db ik : is_index_key ik → get db ik = own db !! ik.
Proof.
  intros H. unfold get. rewrite (inherited_index_key _ _ H).
  now destruct (own db !! ik).
Qed.

Lemma length_key_is_index n : is_index_key (length_key n).
Proof. exists (of_nat n). now left. Qed.

Lemma letter_key_is_index eng : is_index_key (letter_key eng).
Proof. exists (first_letter eng). now right. Qed.

Lemma index_key_not_proto ik : is_index_key ik → String.eqb ik "__proto__" = false.
Proof. intros [x [-> | ->]]; reflexivity. Qed.

Lemma set_word_bucket l db k w ik :
  is_index_key ik → bucket_ok l (own db !! ik) →
  bucket_ok l (own (set_word db k w) !! ik).
Proof.
  intros Hik H. unfold set_word.
  destruct (String.eqb k "__proto__"); simpl; [exact H|].
  destruct (decide (k = ik)) as [->|Hne].
  - now rewrite lookup_insert_eq.
  - now rewrite lookup_insert_ne.
Qed.

Lemma push_word_bucket l db ik' w db' ik :
  is_index_key ik' → bucket_ok l (own db !! ik) →
  push_word db ik' w = Return db' →
  bucket_ok (l ++ if decide (ik' = ik) then [w] else []) (own db' !! ik).
Proof.
  intros Hik' H. unfold push_word. rewrite (get_index_key _ _ Hik').
  destruct (decide (ik' = ik)) as [->|Hne].
  - destruct (own db !! ik) as [[w0|ws|k0]|] eqn:E; try discriminate;
      intros [= <-]; simpl; rewrite lookup_insert_eq; simpl in *; now subst.
  - rewrite app_nil_r.
    destruct (own db !! ik') as [[w0|ws|k0]|] eqn:E; try discriminate;
      intros [= <-]; simpl; now rewrite lookup_insert_ne.
Qed.

Lemma index_word_bucket l db w db' ik :
  is_index_key ik → bucket_ok l (own db !! ik) →
  index_word db w = Return db' →
  bucket_ok (l ++ contribution ik w) (own db' !! ik).
Proof.
  intros Hik H. unfold index_word. intros (db2 & H1 & H2)%bind_Return.
  unfold contribution. rewrite app_assoc.
  eapply push_word_bucket; [apply letter_key_is_index | | exact H2].
  eapply push_word_bucket; [apply length_key_is_index | | exact H1].
  now apply set_word_bucket.
Qed.

Lemma foldM_index_word_bucket ik rest : ∀ done db db',
  is_index_key ik → bucket_ok (flat_map (contribution ik) done) (own db !! ik) →
  foldM index_word db rest = Return db' →
  bucket_ok (flat_map (contribution ik) (done ++ rest)) (own db' !! ik).
Proof.
  induction rest as [|w rest IH]; intros done db db' Hik H; simpl.
  - intros [= <-]. now rewrite app_nil_r.
  - intros (db1 & H1 & H2)%bind_Return.
    change (w :: rest) with ([w] ++ rest). rewrite app_assoc.
    apply (IH _ db1); [assumption | | assumption].
    rewrite flat_map_app. simpl. rewrite app_nil_r.
    now apply (index_word_bucket _ db).
Qed.

(** After [extractRootData], the slot of an index key holds the words pushed
    under that key, in the order of the database, unless a word took it. *)
Lemma extractRootData_bucket WORD_DATABASE db ik :
  is_index_key ik → extractRootData WORD_DATABASE = Return db →
  bucket_ok (flat_map (contribution ik) WORD_DATABASE) (get db ik).
Proof.
  intros Hik H. rewrite (get_index_key _ _ Hik).
  apply (foldM_index_word_bucket ik WORD_DATABASE [] RootDatabase.empty); auto.
  simpl. now rewrite lookup_empty.
Qed.

Lemma contribution_length n l :
  flat_map (contribution (length_key n)) l = entries_of_length n l.
Proof.
  unfold entries_of_length.
  induction l as [|w l IH]; simpl; [reflexivity|].
  rewrite filter_cons, IH. unfold contribution, length_index, letter_index.
  rewrite (decide_False (P := letter_key _ = _))
    by (intros E; symmetry in E; now apply length_key_not_letter in E).
  destruct (decide (String.length (key w) = n)) as [->|Hne].
  - now rewrite decide_True.
  - rewrite decide_False; [reflexivity|]. intros E%length_key_inj. contradiction.
Qed.

Lemma contribution_letter c l :
  flat_map (contribution ("letter_" +:+ c)) l = entries_of_letter c l.
Proof.
  unfold entries_of_letter.
  induction l as [|w l IH]; simpl; [reflexivity|].
  rewrite filter_cons, IH. unfold contribution, length_index, letter_index.
  rewrite (decide_False (P := length_key _ = _)).
  2:{ unfold length_key. cbv -[of_nat]. discriminate. }
  unfold letter_key. simpl.
  destruct (decide (first_letter (key w) = c)) as [->|Hne].
  - now rewrite decide_True.
  - rewrite decide_False; [reflexivity|]. intros E%(inj _). contradiction.
Qed.

(** ** The direct index *)

(** A word found under a key was stored by [set_word] under that key. *)
Lemma set_word_entry db k w k' w' :
  get (set_word db k w) k' = Some (VEntry w') →
  (k' = k ∧ w' = w) ∨ get db k' = Some (VEntry w').
Proof.
  unfold set_word, get.
  destruct (String.eqb_spec k "__proto__") as [->|Hk]; simpl.
  - destruct (own db !! k') as [v|]; [now right|].
    destruct (String.eqb_spec k' "__proto__") as [->|Hk'].
    + intros [= <-]. now left.
    + destruct (field_truthy w k'); [discriminate|].
      unfold object_prototype. destruct (bool_decide _); discriminate.
  - destruct (decide (k = k')) as [<-|Hne].
    + rewrite lookup_insert_eq. intros [= <-]. now left.
    + rewrite lookup_insert_ne by assumption. now right.
Qed.

Lemma push_word_get db ik w db' k :
  push_word db ik w = Return db' → k ≠ ik → get db' k = get db k.
Proof.
  unfold push_word. intros H Hne.
  destruct (get db ik) as [[w0|ws|k0]|]; try discriminate;
    injection H as <-; unfold get; simpl; now rewrite lookup_insert_ne.
Qed.

Lemma push_word_entry db ik w db' k w' :
  push_word db ik w = Return db' →
  get db' k = Some (VEntry w') → get db k = Some (VEntry w').
Proof.
  intros H. destruct (decide (k = ik)) as [->|Hne].
  - unfold push_word in H.
    destruct (get db ik) as [[w0|ws|k0]|]; try discriminate;
      injection H as <-; unfold get; simpl; rewrite lookup_insert_eq; discriminate.
  - now rewrite (push_word_get _ _ _ _ _ H Hne).
Qed.

Lemma index_word_entry db w db' k w' :
  index_word db w = Return db' →
  get db' k = Some (VEntry w') →
  (k = key w ∧ w' = w) ∨ get db k = Some (VEntry w').
Proof.
  unfold index_word. intros (db2 & H1 & H2)%bind_Return Hk.
  apply (push_word_entry _ _ _ _ _ _ H2) in Hk.
  apply (push_word_entry _ _ _ _ _ _ H1) in Hk.
  now apply set_word_entry in Hk.
Qed.

(** Every word of the object is a word of the database, under its key. *)
Lemma extractRootData_entry WORD_DATABASE db k w :
  extractRootData WORD_DATABASE = Return db →
  get db k = Some (VEntry w) → key w = k ∧ w ∈ WORD_DATABASE.
Proof.
  unfold extractRootData.
  assert (G : ∀ rest db0 (done : list Entry),
             (∀ k w, get db0 k = Some (VEntry w) → key w = k ∧ w ∈ done) →
             foldM index_word db0 rest = Return db →
             ∀ k w, get db k = Some (VEntry w) → key w = k ∧ w ∈ done ++ rest).
  { induction rest as [|x rest IH]; intros db0 done Hinv; simpl.
    - intros [= <-]. rewrite app_nil_r. exact Hinv.
    - intros (db1 & H1 & H2)%bind_Return.
      change (x :: rest) with ([x] ++ rest). rewrite app_assoc.
      apply (IH db1); [|assumption].
      intros k' w' Hk'. apply (index_word_entry _ _ _ _ _ H1) in Hk'.
      destruct Hk' as [[-> ->] | Hk'].
      + split; [reflexivity|]. apply elem_of_app. right. left.
      + apply Hinv in Hk' as [? ?]. split; [assumption|].
        apply elem_of_app. now left. }
  intros H. apply (G WORD_DATABASE RootDatabase.empty []); [|exact H].
  intros k' w'. unfold get. simpl. rewrite lookup_empty.
  unfold object_prototype. destruct (bool_decide _); discriminate.
Qed.

(** The object has no own property [__proto__]. *)
Lemma index_word_own_proto db w db' :
  own db !! "__proto__" = None → index_word db w = Return db' →
  own db' !! "__proto__" = None.
Proof.
  intros H. unfold index_word. intros (db2 & H1 & H2)%bind_Return.
  assert (S1 : own (set_word db (key w) w) !! "__proto__" = None).
  { unfold set_word. destruct (String.eqb_spec (key w) "__proto__"); simpl;
      [assumption|]. now rewrite lookup_insert_ne. }
  assert (P : ∀ d ik d', is_index_key ik → own d !! "__proto__" = None →
              push_word d ik w = Return d' → own d' !! "__proto__" = None).
  { intros d ik d' Hik Hd. unfold push_word.
    assert (ik ≠ "__proto__").
    { intros ->. now apply index_key_not_proto in Hik. }
    destruct (get d ik) as [[w0|ws|k0]|]; try discriminate;
      intros [= <-]; simpl; now rewrite lookup_insert_ne. }
  eapply P; [apply letter_key_is_index | | exact H2].
  eapply P; [apply length_key_is_index | exact S1 | exact H1].
Qed.

Lemma set_word_get_same db k w :
  own db !! "__proto__" = None → get (set_word db k w) k = Some (VEntry w).
Proof.
  intros H. unfold set_word, get.
  destruct (String.eqb_spec k "__proto__") as [->|Hk]; simpl.
  - now rewrite H.
  - now rewrite lookup_insert_eq.
Qed.

Lemma set_word_keeps db k w k' w' :
  get db k = Some (VEntry w) → k' ≠ k →
  get (set_word db k' w') k = Some (VEntry w).
Proof.
  unfold set_word, get. intros H Hne.
  destruct (String.eqb_spec k' "__proto__") as [->|Hk']; simpl.
  - destruct (own db !! k) as [v|]; [assumption|].
    destruct (proto db) as [p|]; simpl in H.
    + destruct (String.eqb_spec k "__proto__") as [->|Hk]; [congruence|].
      destruct (field_truthy p k); [discriminate|].
      unfold object_prototype in H. destruct (bool_decide _); discriminate.
    + unfold object_prototype in H. destruct (bool_decide _); discriminate.
  - now rewrite lookup_insert_ne.
Qed.

Lemma push_word_keeps db ik w' db' k w :
  get db k = Some (VEntry w) → push_word db ik w' = Return db' →
  get db' k = Some (VEntry w).
Proof.
  intros H Hp. destruct (decide (k = ik)) as [->|Hne].
  - unfold push_word in Hp. rewrite H in Hp. discriminate.
  - now rewrite (push_word_get _ _ _ _ _ Hp Hne).
Qed.

Lemma last_with_key_snoc k done w :
  last_with_key k (done ++ [w])
  = if decide (key w = k) then Some w else last_with_key k done.
Proof.
  unfold last_with_key. rewrite filter_app, filter_cons, filter_nil.
  destruct (decide (key w = k)).
  - apply last_snoc.
  - now rewrite app_nil_r.
Qed.

Lemma index_word_direct db w db' k E :
  own db !! "__proto__" = None →
  (last_with_key k [w] = Some E ∨ (key w ≠ k ∧ get db k = Some (VEntry E))) →
  index_word db w = Return db' →
  get db' k = Some (VEntry E).
Proof.
  intros Hown Hcase. unfold index_word. intros (db2 & H1 & H2)%bind_Return.
  eapply push_word_keeps; [|exact H2].
  eapply push_word_keeps; [|exact H1].
  destruct Hcase as [Hl | [Hne Hg]].
  - unfold last_with_key in Hl. rewrite filter_cons, filter_nil in Hl.
    destruct (decide (key w = k)) as [<-|]; [|discriminate].
    injection Hl as <-. now apply set_word_get_same.
  - now apply set_word_keeps.
Qed.

(** After [extractRootData], the direct index holds, for every key of the
    database, the last word with that key. *)
Lemma extractRootData_direct WORD_DATABASE db k E :
  extractRootData WORD_DATABASE = Return db →
  last_with_key k WORD_DATABASE = Some E →
  get db k = Some (VEntry E).
Proof.
  unfold extractRootData.
  assert (G : ∀ rest db0 (done : list Entry),
             own db0 !! "__proto__" = None →
             (∀ E, last_with_key k done = Some E → get db0 k = Some (VEntry E)) →
             foldM index_word db0 rest = Return db →
             ∀ E, last_with_key k (done ++ rest) = Some E →
                  get db k = Some (VEntry E)).
  { induction rest as [|x rest IH]; intros db0 done Hown Hinv; simpl.
    - intros [= <-]. rewrite app_nil_r. exact Hinv.
    - intros (db1 & H1 & H2)%bind_Return.
      change (x :: rest) with ([x] ++ rest). rewrite app_assoc.
      apply (IH db1); [now apply (index_word_own_proto db0 x) | | assumption].
      intros E'. rewrite last_with_key_snoc.
      destruct (decide (key x = k)) as [Hk|Hk]; intros HE'.
      + injection HE' as <-.
        apply (index_word_direct db0 x); [assumption | | assumption].
        left. unfold last_with_key. rewrite filter_cons, filter_nil.
        now rewrite decide_True.
      + apply (index_word_direct db0 x); auto. }
  intros H. apply (G WORD_DATABASE RootDatabase.empty []); [| |exact H].
  - simpl. apply lookup_empty.
  - intros E'. unfold last_with_key. rewrite filter_nil. discriminate.
Qed.

(** With unique keys, every word of the database is the last with its key. *)
Lemma last_with_key_unique WORD_DATABASE E :
  NoDup (map key WORD_DATABASE) → E ∈ WORD_DATABASE →
  last_with_key (key E) WORD_DATABASE = Some E.
Proof.
  unfold last_with_key.
  induction WORD_DATABASE as [|w l IH]; intros Hnd Hin.
  - now apply elem_of_nil in Hin.
  - simpl in Hnd. apply NoDup_cons in Hnd as [Hw Hl].
    rewrite filter_cons. apply elem_of_cons in Hin as [->|Hin].
    + rewrite decide_True by reflexivity.
      assert (E0 : filter (fun x => key x = key w) l = []).
      { destruct (filter _ l) as [|x xs] eqn:Hf; [reflexivity|]. exfalso.
        assert (Hx : x ∈ filter (fun x => key x = key w) l) by (rewrite Hf; left).
        apply list_elem_of_filter in Hx as [Hkx Hx]. apply Hw.
        rewrite <- Hkx. apply list_elem_of_fmap. eauto. }
      now rewrite E0.
    + destruct (decide (key w = key E)) as [Hk|Hk].
      * exfalso. apply Hw. rewrite Hk. apply list_elem_of_fmap. eauto.
      * now apply IH.
Qed.

(** ** Normalization *)

Lemma is_space_lower_char c : is_space (lower_char c) = is_space c.
Proof. destruct c as [[] [] [] [] [] [] [] []]; reflexivity. Qed.

Lemma trimStart_toLowerCase s : trimStart (toLowerCase s) = toLowerCase (trimStart s).
Proof.
  induction s as [|c s IH]; simpl; [reflexivity|].
  rewrite is_space_lower_char. now destruct (is_space c).
Qed.

Lemma trimEnd_toLowerCase s : trimEnd (toLowerCase s) = toLowerCase (trimEnd s).
Proof.
  induction s as [|c s IH]; simpl; [reflexivity|].
  rewrite IH, is_space_lower_char.
  destruct (trimEnd s); simpl; [now destruct (is_space c) | reflexivity].
Qed.

(** A word without white space at its ends is normalized by lowercasing. *)
Lemma normalize_trimmed s : trim s = s → normalize s = toLowerCase s.
Proof.
  intros H. unfold normalize, trim.
  rewrite trimStart_toLowerCase, trimEnd_toLowerCase.
  unfold trim in H. now rewrite H.
Qed.

(** ** What [analyze] returns, from what the cascade returns *)

Lemma analyze_returns db this now word (P : Analysis → Prop) :
  reachable db this →
  (∀ now' word', normalize word' = normalize word →
     ∃ a, cascade db now' word' = Return a ∧ P a) →
  ∃ a this', analyze db this now word = (Return a, this') ∧ P a.
Proof.
  intros Hr%reachable_sound H. unfold analyze.
  destruct (cache this !! normalize word) as [a0|] eqn:Hc.
  - destruct (Hr _ _ Hc) as (now' & word' & Hn & Hrun).
    destruct (H now' word' Hn) as (a & Ha & HP).
    exists a0, this. split; [reflexivity|]. congruence.
  - destruct (H now word eq_refl) as (a & Ha & HP).
    rewrite Ha. eauto.
Qed.

Lemma cascade_direct db now w v :
  directMatch db (normalize w) = Some v →
  cascade db now w =
    Return {| original := w; normalized := normalize w; found := true;
              confidence := 1.0%Q; matchType := direct;
              result := Some (RValue v); decomposition := [];
              suggestions := []; timestamp := now |}.
Proof. intros H. unfold cascade. now rewrite H. Qed.

(** ** Words of the database (C1) *)

(** C1, amended.  In a database of words of code units below 128, for every
    word [E] that the direct index holds (the last word of the database with
    its key) and whose [english] has no white space at its ends, [analyze]
    of [E.english] returns [found = true], match type [direct], confidence
    1.0 and the word [E] itself as result, so that the [chinese] of the
    result is that of [E]. *)
Theorem stored_word_direct WORD_DATABASE db this now E :
  ascii_lexicon WORD_DATABASE →
  extractRootData WORD_DATABASE = Return db →
  reachable db this →
  last_with_key (key E) WORD_DATABASE = Some E →
  trim (english E) = english E →
  ∃ a this',
    analyze db this now (english E) = (Return a, this')
    ∧ found a = true ∧ matchType a = direct ∧ confidence a = 1.0%Q
    ∧ result a = Some (RValue (VEntry E))
    ∧ (result a ≫= result_chinese) = Some (chinese E).
Proof.
  intros _ Hload Hr Hlast Htrim.
  apply analyze_returns; [assumption|].
  intros now' word' Hn.
  rewrite (normalize_trimmed _ Htrim) in Hn.
  eexists. split.
  - apply cascade_direct. rewrite Hn.
    apply (extractRootData_direct _ _ _ _ Hload Hlast).
  - simpl. auto.
Qed.

(** ** The secondary indexes in the namespace of the direct index (C10) *)

(** After [extractRootData], the slot of the bucket of a word of the
    database holds the bucket, or a word that has the key of the bucket for
    its own key. *)
Lemma extractRootData_slot WORD_DATABASE db E ik bucket :
  extractRootData WORD_DATABASE = Return db →
  E ∈ WORD_DATABASE →
  (ik = length_index E
     ∧ bucket = entries_of_length (String.length (key E)) WORD_DATABASE)
  ∨ (ik = letter_index E
     ∧ bucket = entries_of_letter (first_letter (key E)) WORD_DATABASE) →
  E ∈ bucket
  ∧ (get db ik = Some (VArray bucket)
     ∨ ∃ w, w ∈ WORD_DATABASE ∧ key w = ik ∧ get db ik = Some (VEntry w)).
Proof.
  intros Hload HE Hik.
  assert (Hidx : is_index_key ik
                 ∧ flat_map (contribution ik) WORD_DATABASE = bucket
                 ∧ E ∈ bucket).
  { destruct Hik as [[-> ->] | [-> ->]].
    - split; [apply length_key_is_index|]. split.
      + apply contribution_length.
      + apply list_elem_of_filter. auto.
    - split; [apply letter_key_is_index|]. split.
      + apply contribution_letter.
      + apply list_elem_of_filter. auto. }
  destruct Hidx as (Hidx & Hflat & Hin). split; [assumption|].
  pose proof (extractRootData_bucket _ _ _ Hidx Hload) as Hb.
  rewrite Hflat in Hb.
  destruct (get db ik) as [[w|ws|k]|] eqn:Hg; simpl in Hb.
  - right. exists w.
    apply (extractRootData_entry _ _ _ _ Hload) in Hg as [Hk Hw]. auto.
  - left. now rewrite Hb.
  - contradiction.
  - rewrite Hb in Hin. now apply elem_of_nil in Hin.
Qed.

(** C10.  The direct lookup reads the object that also holds the secondary
    indexes.  In a database of words of code units below 128, for every word
    [E] and for the key [ik] of its bucket by length, which is [length_]
    followed by the length of its key in decimal, or by first letter, which
    is [letter_] followed by the first character [c] of its key, every input
    that normalizes to [ik] makes [analyze] return [found = true], match
    type [direct] and confidence 1.0.  The result is the array of the words
    of the database of that length (whose key starts with [c]), in the order
    of the database, which contains [E], and not a single word; the one
    exception is a database in which a word has the key [ik] for its own
    key, and then that word may be the result. *)
Theorem index_key_direct_match WORD_DATABASE db this now E ik bucket input :
  ascii_lexicon WORD_DATABASE →
  is_ascii input = true →
  extractRootData WORD_DATABASE = Return db →
  reachable db this →
  E ∈ WORD_DATABASE →
  (ik = "length_" +:+ of_nat (String.length (key E))
     ∧ bucket = filter (fun w => String.length (key w) = String.length (key E))
                       WORD_DATABASE)
  ∨ (∃ c rest,
       key E = String c rest
       ∧ ik = "letter_" +:+ String c ""
       ∧ bucket = filter (fun w => str_take 1 (key w) = String c "") WORD_DATABASE) →
  normalize input = ik →
  ∃ a this',
    analyze db this now input = (Return a, this')
    ∧ found a = true ∧ matchType a = direct ∧ confidence a = 1.0%Q
    ∧ E ∈ bucket
    ∧ (result a = Some (RValue (VArray bucket))
       ∨ ∃ w, w ∈ WORD_DATABASE ∧ key w = ik
              ∧ result a = Some (RValue (VEntry w)))
    ∧ ((∀ w, w ∈ WORD_DATABASE → key w ≠ ik) →
       result a = Some (RValue (VArray bucket))).
Proof.
  intros _ _ Hload Hr HE Hik Hn.
  assert (Hik' : (ik = length_index E
                  ∧ bucket = entries_of_length (String.length (key E)) WORD_DATABASE)
                 ∨ (ik = letter_index E
                    ∧ bucket = entries_of_letter (first_letter (key E)) WORD_DATABASE)).
  { destruct Hik as [[-> ->] | (c & rest & Hkey & -> & ->)]; [now left | right].
    unfold letter_index, letter_key, entries_of_letter. rewrite Hkey. simpl.
    split; [reflexivity|]. apply list_filter_iff. intros w.
    destruct (key w) as [|c' rest']; simpl; [split; discriminate|].
    split; congruence. }
  clear Hik.
  destruct (extractRootData_slot _ _ _ _ _ Hload HE Hik') as [Hin Hslot].
  apply analyze_returns; [assumption|].
  intros now' input' Hn'. rewrite Hn in Hn'.
  destruct Hslot as [Hget | (w & Hw & Hk & Hget)]; eexists; (split;
    [apply cascade_direct; rewrite Hn'; exact Hget|]); simpl.
  - repeat split; auto.
  - repeat split; eauto.
    intros Hfree. now apply Hfree in Hw.
Qed.

(** ** Compound words (C5) *)

(** C5, amended.  For a database and an input of code units below 128, an
    analysis with match type [compound] is only returned when one of the
    patterns extracts two parts of length at least 3, which make up the
    normalized word, and each part has a direct match.  The direct match of
    a part is a word exactly when the database has words with that part for
    key, and it is then the last of them; otherwise it is another member of
    the object that the direct lookup reads.  The analysis has
    [found = true] and confidence 0.75, its decomposition lists the two parts
    in the order of the word, and its result is a synthesized word of
    category [Compound] whose [chinese] is the [chinese] of the first part
    followed by that of the second when both are words; a part that is not a
    word adds nothing to it. *)
Theorem compound_requires_all_parts WORD_DATABASE db this now input a this' :
  ascii_lexicon WORD_DATABASE →
  is_ascii input = true →
  extractRootData WORD_DATABASE = Return db →
  reachable db this →
  analyze db this now input = (Return a, this') →
  matchType a = compound →
  ∃ pat g1 g2 v1 v2 r,
    pat ∈ patterns
    ∧ regex_match pat (normalize input) = Some (g1, g2)
    ∧ g1 +:+ g2 = normalize input
    ∧ 3 ≤ String.length g1 ∧ 3 ≤ String.length g2
    ∧ directMatch db g1 = Some v1 ∧ directMatch db g2 = Some v2
    ∧ (∀ e, v1 = VEntry e ↔ last_with_key g1 WORD_DATABASE = Some e)
    ∧ (∀ e, v2 = VEntry e ↔ last_with_key g2 WORD_DATABASE = Some e)
    ∧ found a = true
    ∧ confidence a = 0.75%Q
    ∧ map part (decomposition a) = [g1; g2]
    ∧ result a = Some (RCompound r)
    ∧ english r = normalize input
    ∧ category r = "Compound" ∧ pinyin r = "" ∧ priority r = 4%Z
    ∧ (∀ e1 e2, v1 = VEntry e1 → v2 = VEntry e2 →
         chinese r = chinese e1 +:+ chinese e2)
    ∧ (∀ e1, v1 = VEntry e1 → (∀ e2, v2 ≠ VEntry e2) → chinese r = chinese e1)
    ∧ (∀ e2, (∀ e1, v1 ≠ VEntry e1) → v2 = VEntry e2 → chinese r = chinese e2)
    ∧ ((∀ e1, v1 ≠ VEntry e1) → (∀ e2, v2 ≠ VEntry e2) → chinese r = "").
Proof.
  intros _ _ Hload Hr Ha Hk.
  destruct (analyze_cascade _ _ _ _ _ _ Hr Ha) as (now' & word' & Hn & Hc).
  rewrite <- Hn. clear Hn Ha Hr.
  apply cascade_cases in Hc. simpl in Hc.
  destruct Hc as [(v & _ & ->) | [(_ & m & Hm & ->) | [(_ & _ & m & Hm & ->)
    | [(_ & _ & _ & m & Hm & ->) | [(_ & _ & _ & _ & m & Hm & ->)
    | (_ & _ & _ & _ & _ & ->)]]]]]; simpl in Hk; try discriminate.
  { apply matchWithAffixes_parts in Hm as (_ & [[Ht _] | [Ht _]]); congruence. }
  apply analyzeCompoundWord_spec in Hm as (_ & pat & Hin & Hp).
  apply try_pattern_spec in Hp
    as (g1 & g2 & v1 & v2 & Hre & H1 & H2 & Hv1 & Hv2 & ->).
  assert (Hword : ∀ g v, directMatch db g = Some v →
            ∀ e, v = VEntry e ↔ last_with_key g WORD_DATABASE = Some e).
  { intros g v Hg e. unfold directMatch in Hg. split.
    - intros ->. pose proof Hg as Hg'.
      apply (extractRootData_entry _ _ _ _ Hload) in Hg' as [Hkey Hw].
      destruct (last_with_key g WORD_DATABASE) as [w'|] eqn:Hl.
      + apply (extractRootData_direct _ _ _ _ Hload) in Hl. congruence.
      + unfold last_with_key in Hl. apply last_None in Hl.
        assert (Hin' : e ∈ filter (fun x => key x = g) WORD_DATABASE)
          by (apply list_elem_of_filter; auto).
        rewrite Hl in Hin'. now apply elem_of_nil in Hin'.
    - intros Hl. apply (extractRootData_direct _ _ _ _ Hload) in Hl. congruence. }
  eexists pat, g1, g2, v1, v2, _. simpl.
  split; [assumption|]. split; [assumption|].
  split; [now apply regex_match_split in Hre|].
  split; [assumption|]. split; [assumption|].
  split; [assumption|]. split; [assumption|].
  split; [now apply Hword|]. split; [now apply Hword|].
  do 4 (split; [reflexivity|]). simpl.
  do 4 (split; [reflexivity|]).
  split; [|split; [|split]].
  - intros e1 e2 -> ->. simpl. now rewrite append_empty_r.
  - intros e1 -> Hno. destruct v2 as [e2| |]; simpl; auto using append_empty_r.
    now destruct (Hno e2).
  - intros e2 Hno ->. destruct v1 as [e1| |]; simpl; auto using append_empty_r.
    now destruct (Hno e1).
  - intros Hno1 Hno2. destruct v1 as [e1| |]; [now destruct (Hno1 e1)| |];
      (destruct v2 as [e2| |]; [now destruct (Hno2 e2)| |]); reflexivity.
Qed.

(** The keys of the index by length are normalized words. *)
Lemma normalize_plain s : forallb is_plain (chars s) = true → normalize s = s.
Proof.
  intros H. unfold normalize, trim.
  assert (L : toLowerCase s = s).
  { induction s as [|c s IH]; simpl in *; [reflexivity|].
    apply andb_true_iff in H as [Hc Hs]. rewrite (IH Hs).
    unfold is_plain in Hc. apply andb_true_iff in Hc as [_ Hu].
    unfold lower_char. now destruct (is_upper c). }
  rewrite L. clear L.
  assert (T : trimStart s = s).
  { destruct s as [|c s]; simpl in *; [reflexivity|].
    apply andb_true_iff in H as [Hc _]. unfold is_plain in Hc.
    apply andb_true_iff in Hc as [Hsp _]. now destruct (is_space c). }
  rewrite T. clear T.
  induction s as [|c s IH]; simpl in *; [reflexivity|].
  apply andb_true_iff in H as [Hc Hs]. rewrite (IH Hs).
  unfold is_plain in Hc. apply andb_true_iff in Hc as [Hsp _].
  destruct s; [now destruct (is_space c) | reflexivity].
Qed.

Lemma digits_plain d : forallb is_plain (chars (NilEmpty.string_of_uint d)) = true.
Proof. induction d; simpl; auto. Qed.

Lemma normalize_length_key n : normalize (length_key n) = length_key n.
Proof.
  apply normalize_plain. unfold length_key, of_nat, NilZero.string_of_uint.
  destruct (Nat.to_uint n) eqn:E; try reflexivity;
    rewrite <- E; cbn -[NilEmpty.string_of_uint Nat.to_uint];
    apply digits_plain.
Qed.

(** ** The pool of the similar-word strategy (C7) *)

Lemma wordsOfLength_load WORD_DATABASE db n ws :
  extractRootData WORD_DATABASE = Return db →
  wordsOfLength db n = Return ws → ws = entries_of_length n WORD_DATABASE.
Proof.
  intros Hload. unfold wordsOfLength.
  pose proof (extractRootData_bucket _ _ _ (length_key_is_index n) Hload) as Hb.
  rewrite contribution_length in Hb.
  destruct (get db (length_key n)) as [[w|l|k]|]; simpl in Hb;
    try discriminate; intros [= <-]; congruence.
Qed.

Lemma candidate_pool_load WORD_DATABASE db w pool :
  extractRootData WORD_DATABASE = Return db →
  candidate_pool db w = Return pool → pool = pool_of WORD_DATABASE w.
Proof.
  intros Hload. unfold candidate_pool, pool_of.
  assert (G : ∀ ls pool0,
    foldM (fun pool len => ws ← wordsOfLength db len; Return (pool ++ ws)) pool0 ls
      = Return pool →
    pool = pool0 ++ flat_map (fun len => entries_of_length len WORD_DATABASE) ls).
  { induction ls as [|len ls IH]; intros pool0; simpl.
    - intros [= <-]. now rewrite app_nil_r.
    - intros (pool1 & H1 & H2)%bind_Return.
      apply bind_Return in H1 as (ws & Hws & [= <-]).
      apply (wordsOfLength_load _ _ _ _ Hload) in Hws as ->.
      rewrite (IH _ H2). now rewrite <- app_assoc. }
  intros H. now rewrite (G _ _ H).
Qed.

Lemma elem_of_pool_of WORD_DATABASE w E :
  E ∈ pool_of WORD_DATABASE w ↔
  E ∈ WORD_DATABASE
  ∧ Nat.max 3 (String.length w - 3) ≤ String.length (key E) ≤ String.length w + 3.
Proof.
  unfold pool_of, lengths, lengthRange.
  rewrite list_elem_of_In, in_flat_map. split.
  - intros (len & Hlen%in_seq & HE%list_elem_of_In).
    unfold entries_of_length in HE. apply list_elem_of_filter in HE as [<- HE].
    split; [assumption | lia].
  - intros (HE & Hlo & Hhi). exists (String.length (key E)). split.
    + apply in_seq. lia.
    + apply list_elem_of_In. unfold entries_of_length.
      apply list_elem_of_filter. auto.
Qed.

(** C7, amended.  For a database and a word [w] of code units below 128,
    the words that the similar-word strategy compares [w], of length [n],
    with are exactly the words of the database whose length [L] satisfies
    [max(3, n - 3) <= L <= n + 3]: the candidates are those of them whose
    similarity reaches the threshold, taken by increasing length and, within
    a length, in the order of the database. *)
Theorem candidates_within_length_range WORD_DATABASE db w candidates :
  ascii_lexicon WORD_DATABASE →
  is_ascii w = true →
  extractRootData WORD_DATABASE = Return db →
  collect_candidates db w = Return candidates →
  candidates = above_threshold w (pool_of WORD_DATABASE w)
  ∧ ∀ E, E ∈ pool_of WORD_DATABASE w ↔
         E ∈ WORD_DATABASE
         ∧ Nat.max 3 (String.length w - 3) ≤ String.length (key E)
           ≤ String.length w + 3.
Proof.
  intros _ _ Hload. rewrite collect_candidates_spec.
  intros (pool & Hpool & [= <-])%bind_Return.
  rewrite (candidate_pool_load _ _ _ _ Hload Hpool).
  split; [reflexivity|]. intros E. apply elem_of_pool_of.
Qed.

(** ** The ranking of the candidates (C6) *)







(** ** Determinism of [analyze] (C9) *)

(** The cascade depends on the raw word through its normalization, apart
    from the field [original], and on the clock through [timestamp] only. *)
Lemma cascade_content db now1 now2 w1 w2 a1 a2 :
  normalize w1 = normalize w2 →
  cascade db now1 w1 = Return a1 → cascade db now2 w2 = Return a2 →
  content a1 = content a2.
Proof.
  intros Hn. unfold cascade. rewrite Hn.
  destruct (directMatch db _); [now intros [= <-] [= <-]|].
  destruct (matchInflections db _); [now intros [= <-] [= <-]|].
  destruct (matchWithAffixes db _); [now intros [= <-] [= <-]|].
  destruct (findSimilarWords db _) as [[m|]|e]; simpl;
    [now intros [= <-] [= <-] | | discriminate].
  destruct (analyzeCompoundWord db _); now intros [= <-] [= <-].
Qed.

(** A call that returns leaves its analysis in the cache. *)
Lemma analyze_cached db this now w a this' :
  analyze db this now w = (Return a, this') →
  cache this' !! normalize w = Some a.
Proof.
  unfold analyze.
  destruct (cache this !! normalize w) as [a0|] eqn:Hc.
  - now intros [= <- <-].
  - destruct (cascade db now w) as [a0|e]; intros [= <- <-].
    simpl. apply lookup_insert_eq.
Qed.

(** C9, amended.  Two calls of [analyze] on words with the same
    normalization, on the same analyzer or on two analyzers (new, or with
    caches filled by earlier calls) over the same [ROOT_DATABASE], return
    analyses that agree on [normalized], [found], [confidence], [matchType],
    [result], [decomposition] and [suggestions]; [original] and [timestamp]
    are those of the call that computed the analysis.  A second call on the
    same analyzer hits the cache and returns the analysis of the first call
    in every field, and leaves the analyzer as it is. *)
Theorem analyze_deterministic db :
  (∀ this1 this2 now1 now2 w1 w2 a1 a2 this1' this2',
     reachable db this1 → reachable db this2 →
     normalize w1 = normalize w2 →
     analyze db this1 now1 w1 = (Return a1, this1') →
     analyze db this2 now2 w2 = (Return a2, this2') →
     content a1 = content a2)
  ∧ (∀ this now1 now2 w1 w2 a1 this',
       normalize w1 = normalize w2 →
       analyze db this now1 w1 = (Return a1, this') →
       analyze db this' now2 w2 = (Return a1, this')).
Proof.
  split.
  - intros this1 this2 now1 now2 w1 w2 a1 a2 this1' this2' Hr1 Hr2 Hn H1 H2.
    destruct (analyze_cascade _ _ _ _ _ _ Hr1 H1) as (n1 & x1 & Hx1 & Hc1).
    destruct (analyze_cascade _ _ _ _ _ _ Hr2 H2) as (n2 & x2 & Hx2 & Hc2).
    apply (cascade_content db n1 n2 x1 x2); congruence.
  - intros this now1 now2 w1 w2 a1 this' Hn H1.
    apply analyze_cached in H1. unfold analyze. now rewrite <- Hn, H1.
Qed.

(** ** The empty word (C3) *)

Lemma cascade_not_found db now w :
  directMatch db (normalize w) = None →
  matchInflections db (normalize w) = None →
  matchWithAffixes db (normalize w) = None →
  findSimilarWords db (normalize w) = Return None →
  analyzeCompoundWord db (normalize w) = None →
  cascade db now w =
    Return {| original := w; normalized := normalize w; found := false;
              confidence := 0%Q; matchType := not_found; result := None;
              decomposition := []; suggestions := []; timestamp := now |}.
Proof. intros H1 H2 H3 H4 H5. unfold cascade. now rewrite H1, H2, H3, H4, H5. Qed.

(** C3, amended.  For an input that is empty or made of white space only,
    when the object holds nothing under the empty key and its bucket of the
    words of length 3 is absent or empty, [analyze] does not throw and
    returns the analysis of a word that is not found: [found = false],
    confidence 0, match type [not_found] and no result. *)
Theorem empty_word_not_found db this now word :
  reachable db this →
  normalize word = "" →
  directMatch db "" = None →
  wordsOfLength db 3 = Return [] →
  ∃ a this',
    analyze db this now word = (Return a, this')
    ∧ found a = false ∧ confidence a = 0%Q ∧ matchType a = not_found
    ∧ result a = None.
Proof.
  intros Hr Hn Hd Hb.
  apply analyze_returns; [assumption|].
  intros now' word' Hn'. rewrite Hn in Hn'.
  eexists. split.
  - apply cascade_not_found; rewrite Hn'; try reflexivity; [assumption|].
    unfold findSimilarWords, collect_candidates. simpl. now rewrite Hb.
  - simpl. auto.
Qed.

(** ** The order of the inflections (C4) *)


Lemma append_assoc (x y z : string) : (x +:+ y) +:+ z = x +:+ (y +:+ z).
Proof.
  induction x as [|c x IH]; [reflexivity|]. rewrite !append_cons. now f_equal.
Qed.




(** ** When [analyze] returns *)

(** The one exception of [analyze] comes from a slot of the index by length
    that holds a word instead of an array. *)
Lemma cascade_returns db now w :
  (∀ len, ∃ ws, wordsOfLength db len = Return ws) →
  ∃ a, cascade db now w = Return a.
Proof.
  intros Hok. unfold cascade.
  destruct (directMatch db _); [eauto|].
  destruct (matchInflections db _); [eauto|].
  destruct (matchWithAffixes db _); [eauto|].
  assert (Hc : ∃ r, findSimilarWords db (normalize w) = Return r).
  { unfold findSimilarWords, collect_candidates.
    generalize (lengths (normalize w)). generalize (@nil Candidate).
    intros acc ls. revert acc.
    induction ls as [|len ls IH]; intros acc; simpl.
    - destruct (sort_candidates acc); eauto.
    - destruct (Hok len) as [ws ->]. simpl. apply IH. }
  destruct Hc as [[m|] ->]; simpl; [eauto|].
  destruct (analyzeCompoundWord db _); eauto.
Qed.

Lemma analyze_total db this now w :
  (∀ len, ∃ ws, wordsOfLength db len = Return ws) →
  ∃ a this', analyze db this now w = (Return a, this').
Proof.
  intros Hok. unfold analyze.
  destruct (cache this !! normalize w); [eauto|].
  destruct (cascade_returns db now w Hok) as [a ->]. eauto.
Qed.

(** After [extractRootData] on a database without a word whose key is the
    key of a bucket by length, [analyze] returns for every input. *)
Lemma analyze_total_loaded WORD_DATABASE db this now w :
  extractRootData WORD_DATABASE = Return db →
  (∀ x n, x ∈ WORD_DATABASE → key x ≠ length_key n) →
  ∃ a this', analyze db this now w = (Return a, this').
Proof.
  intros Hload Hfree. apply analyze_total. intros len. unfold wordsOfLength.
  pose proof (extractRootData_bucket _ _ _ (length_key_is_index len) Hload) as Hb.
  destruct (get db (length_key len)) as [[x|ws|k]|] eqn:Hg; simpl in Hb; eauto.
  - apply (extractRootData_entry _ _ _ _ Hload) in Hg as [Hk Hx].
    now apply (Hfree x len) in Hx.
  - contradiction.
Qed.

(** ** Concrete runs *)

Section Runs.

Import Samples.

(** Solves [analyze db this now w = (Return ?a, ?this')] and similar
    equations on closed terms by evaluation. *)
Ltac run := vm_compute; reflexivity.

(** C1 fails as stated, in two ways.  The only word of the first database
    has a space in front of its [english]: [analyze] of that [english] looks
    up [cat], finds no direct match, and returns a similar match of
    confidence 0.9.  In the second database two words have the key [cat]:
    the direct index keeps the last one, and [analyze] of the [english] of
    the first returns the [chinese] of the last. *)
Lemma stored_word_not_matched :
  (extractRootData [spaced_cat] = Return (root_of [spaced_cat])
   ∧ spaced_cat ∈ [spaced_cat]
   ∧ ∃ a this',
       analyze (root_of [spaced_cat]) constructor 0 (english spaced_cat)
         = (Return a, this')
       ∧ matchType a = similar ∧ matchType a ≠ direct ∧ confidence a = 0.9%Q)
  ∧ (extractRootData [cat; old_cat] = Return (root_of [cat; old_cat])
     ∧ cat ∈ [cat; old_cat]
     ∧ ∃ a this',
         analyze (root_of [cat; old_cat]) constructor 0 (english cat)
           = (Return a, this')
         ∧ matchType a = direct
         ∧ (result a ≫= result_chinese) = Some (chinese old_cat)
         ∧ (result a ≫= result_chinese) ≠ Some (chinese cat)).
Proof.
  split.
  - split; [run|]. split; [left|].
    eexists; eexists. split; [run|]. repeat split. discriminate.
  - split; [run|]. split; [left|].
    eexists; eexists. split; [run|]. repeat split. discriminate.
Qed.

Lemma stored_word_direct_witness :
  ∃ a this',
    analyze (root_of [cat]) constructor 0 (english cat) = (Return a, this')
    ∧ found a = true ∧ matchType a = direct ∧ confidence a = 1.0%Q
    ∧ result a = Some (RValue (VEntry cat))
    ∧ (result a ≫= result_chinese) = Some (chinese cat).
Proof.
  apply (stored_word_direct [cat] (root_of [cat]) constructor 0 cat).
  - repeat constructor.
  - run.
  - apply reachable_new.
  - run.
  - run.
Defined.

Lemma analyze_invariant_witness :
  ∃ a this',
    analyze (root_of [cat]) constructor 0 "Cats" = (Return a, this')
    ∧ (found a = true → (0 < confidence a)%Q ∧ result a ≠ None)
    ∧ (matchType a = not_found → found a = false).
Proof.
  eexists; eexists. split; [run|].
  eapply (analyze_invariant (root_of [cat]) constructor 0 "Cats");
    [apply reachable_new | run].
Defined.

(** C3 fails as stated: with one word of length 3 in the database, the
    empty input gets that word as a similar match of confidence 0.9. *)
Lemma empty_word_similar_match :
  extractRootData [cat] = Return (root_of [cat])
  ∧ normalize "" = ""
  ∧ ∃ a this',
      analyze (root_of [cat]) constructor 0 "" = (Return a, this')
      ∧ found a = true ∧ matchType a = similar ∧ confidence a = 0.9%Q
      ∧ result a = Some (RValue (VEntry cat)).
Proof.
  split; [run|]. split; [run|].
  eexists; eexists. split; [run|]. repeat split.
Qed.

Lemma empty_word_not_found_witness :
  ∃ a this',
    analyze (root_of [water]) constructor 0 "  " = (Return a, this')
    ∧ found a = false ∧ confidence a = 0%Q ∧ matchType a = not_found
    ∧ result a = None.
Proof.
  apply (empty_word_not_found (root_of [water]) constructor 0 "  ").
  - apply reachable_new.
  - run.
  - run.
  - run.
Defined.



(** C5 fails as stated: a part with a direct match need not be a word of the
    database, and then it has no gloss.  The direct lookup of [length_5]
    finds the bucket of the words of length 5, so that [length_5graphy] is a
    compound whose [chinese] is that of [graphy] alone; and the direct
    lookup of [constructor] finds a member that every object inherits, so
    that [constructorfree] is a compound whose [chinese] is that of [free]
    alone. *)
Lemma compound_part_outside_lexicon :
  (extractRootData [photo; graphy] = Return (root_of [photo; graphy])
   ∧ (∀ w, w ∈ [photo; graphy] → key w ≠ "length_5")
   ∧ directMatch (root_of [photo; graphy]) "length_5" = Some (VArray [photo])
   ∧ ∃ a this' r,
       analyze (root_of [photo; graphy]) constructor 0 "length_5graphy"
         = (Return a, this')
       ∧ found a = true ∧ matchType a = compound ∧ confidence a = 0.75%Q
       ∧ map part (decomposition a) = ["length_5"; "graphy"]
       ∧ result a = Some (RCompound r)
       ∧ chinese r = chinese graphy)
  ∧ (extractRootData [free] = Return (root_of [free])
     ∧ (∀ w, w ∈ [free] → key w ≠ "constructor")
     ∧ directMatch (root_of [free]) "constructor" = Some (VInherited "constructor")
     ∧ ∃ a this' r,
         analyze (root_of [free]) constructor 0 "constructorfree"
           = (Return a, this')
         ∧ found a = true ∧ matchType a = compound ∧ confidence a = 0.75%Q
         ∧ map part (decomposition a) = ["constructor"; "free"]
         ∧ result a = Some (RCompound r)
         ∧ chinese r = chinese free).
Proof.
  split.
  - split; [run|]. split.
    { intros w Hw. revert Hw. rewrite ?elem_of_cons, elem_of_nil.
      intros [->|[->|[]]]; discriminate. }
    split; [run|].
    eexists; eexists; eexists. split; [run|]. repeat split.
  - split; [run|]. split.
    { intros w Hw. revert Hw. rewrite ?elem_of_cons, elem_of_nil.
      intros [->|[]]; discriminate. }
    split; [run|].
    eexists; eexists; eexists. split; [run|]. repeat split.
Qed.

Lemma compound_requires_all_parts_witness :
  ∃ a this',
    analyze (root_of [photo; graphy]) constructor 0 "Photography" = (Return a, this')
    ∧ ∃ pat g1 g2 v1 v2 r,
        pat ∈ patterns
        ∧ regex_match pat (normalize "Photography") = Some (g1, g2)
        ∧ g1 +:+ g2 = normalize "Photography"
        ∧ 3 ≤ String.length g1 ∧ 3 ≤ String.length g2
        ∧ directMatch (root_of [photo; graphy]) g1 = Some v1
        ∧ directMatch (root_of [photo; graphy]) g2 = Some v2
        ∧ (∀ e, v1 = VEntry e ↔ last_with_key g1 [photo; graphy] = Some e)
        ∧ (∀ e, v2 = VEntry e ↔ last_with_key g2 [photo; graphy] = Some e)
        ∧ found a = true
        ∧ confidence a = 0.75%Q
        ∧ map part (decomposition a) = [g1; g2]
        ∧ result a = Some (RCompound r)
        ∧ english r = normalize "Photography"
        ∧ category r = "Compound" ∧ pinyin r = "" ∧ priority r = 4%Z
        ∧ (∀ e1 e2, v1 = VEntry e1 → v2 = VEntry e2 →
             chinese r = chinese e1 +:+ chinese e2)
        ∧ (∀ e1, v1 = VEntry e1 → (∀ e2, v2 ≠ VEntry e2) → chinese r = chinese e1)
        ∧ (∀ e2, (∀ e1, v1 ≠ VEntry e1) → v2 = VEntry e2 → chinese r = chinese e2)
        ∧ ((∀ e1, v1 ≠ VEntry e1) → (∀ e2, v2 ≠ VEntry e2) → chinese r = "").
Proof.
  eexists; eexists. split; [run|].
  eapply (compound_requires_all_parts [photo; graphy] (root_of [photo; graphy])
            constructor 0 "Photography");
    [repeat constructor | run | run | apply reachable_new | run | run].
Defined.



(** C7 fails as stated: [ab] is within 3 of the length of [abz] and its
    similarity to [abz] is 0.9, but the loop starts at length 3: the pool
    and the candidates are empty, and [abz] is not found. *)
Lemma short_word_outside_pool :
  extractRootData [ab] = Return (root_of [ab])
  ∧ ab ∈ [ab]
  ∧ String.length "abz" - String.length (key ab) ≤ 3
  ∧ String.length (key ab) - String.length "abz" ≤ 3
  ∧ calculateSimilarity "abz" (key ab) = 0.9%Q
  ∧ candidate_pool (root_of [ab]) "abz" = Return []
  ∧ collect_candidates (root_of [ab]) "abz" = Return []
  ∧ ∃ a this',
      analyze (root_of [ab]) constructor 0 "abz" = (Return a, this')
      ∧ matchType a = not_found.
Proof.
  split; [run|].
  split; [left|]. split; [simpl; lia|]. split; [simpl; lia|].
  split; [run|]. split; [run|]. split; [run|].
  eexists; eexists. split; [run|]. reflexivity.
Qed.

Lemma candidates_within_length_range_witness :
  ∃ candidates,
    collect_candidates (root_of [abcdef; bcd; ab]) "abcde" = Return candidates
    ∧ candidates = above_threshold "abcde" (pool_of [abcdef; bcd; ab] "abcde")
    ∧ ∀ E, E ∈ pool_of [abcdef; bcd; ab] "abcde" ↔
           E ∈ [abcdef; bcd; ab]
           ∧ Nat.max 3 (String.length "abcde" - 3) ≤ String.length (key E)
             ≤ String.length "abcde" + 3.
Proof.
  eexists. split; [run|].
  apply (candidates_within_length_range [abcdef; bcd; ab]
           (root_of [abcdef; bcd; ab]) "abcde");
    [repeat constructor | run | run | run].
Defined.

Lemma decomposition_reproduces_word_witness :
  ∃ a this',
    analyze (root_of [happy]) constructor 0 " UnHappy " = (Return a, this')
    ∧ matchType a = prefixed
    ∧ parts_text (decomposition a) = normalize " UnHappy ".
Proof.
  eexists; eexists. split; [run|]. split; [run|].
  eapply (decomposition_reproduces_word (root_of [happy]) constructor 0
            " UnHappy "); [apply reachable_new | run |].
  right. left.
Defined.

(** C9 fails as stated.  Two new analyzers asked for the same word at two
    times return analyses with different [timestamp]; and after a call with
    [Cat], a call with [cat] on the same analyzer returns the cached analysis,
    whose [original] is [Cat], where a new analyzer returns [cat]. *)
Lemma analyses_differ_in_original_and_timestamp :
  (∃ a1 a2 this1 this2,
     analyze RootDatabase.empty constructor 0 "cat" = (Return a1, this1)
     ∧ analyze RootDatabase.empty constructor 1 "cat" = (Return a2, this2)
     ∧ timestamp a1 = 0%Z ∧ timestamp a2 = 1%Z ∧ a1 ≠ a2)
  ∧ (∃ a1 a2 a3 this1 this2 this3,
       normalize "Cat" = normalize "cat"
       ∧ analyze RootDatabase.empty constructor 0 "Cat" = (Return a1, this1)
       ∧ analyze RootDatabase.empty this1 0 "cat" = (Return a2, this2)
       ∧ analyze RootDatabase.empty constructor 0 "cat" = (Return a3, this3)
       ∧ original a2 = "Cat" ∧ original a3 = "cat" ∧ a2 ≠ a3).
Proof.
  split.
  - do 4 eexists. split; [run|]. split; [run|]. repeat split. discriminate.
  - do 6 eexists. split; [run|]. split; [run|]. split; [run|]. split; [run|].
    repeat split. discriminate.
Qed.

Lemma analyze_deterministic_witness :
  (∃ a1 a2 this1 this2,
     analyze (root_of [cat]) constructor 0 "Cat" = (Return a1, this1)
     ∧ analyze (root_of [cat]) this1 5 " cat" = (Return a2, this2)
     ∧ content a1 = content a2)
  ∧ (∃ a1 this1,
       analyze (root_of [cat]) constructor 0 "Cat" = (Return a1, this1)
       ∧ analyze (root_of [cat]) this1 5 " cat" = (Return a1, this1)).
Proof.
  destruct (analyze_deterministic (root_of [cat])) as [Hcontent Hhit].
  split.
  - do 4 eexists. split; [run|]. split; [run|].
    eapply (Hcontent constructor (snd (analyze (root_of [cat]) constructor 0 "Cat"))
              0%Z 5%Z "Cat" " cat").
    + apply reachable_new.
    + apply reachable_analyze, reachable_new.
    + run.
    + run.
    + run.
  - do 2 eexists. split; [run|].
    apply (Hhit constructor 0%Z 5%Z "Cat" " cat"); run.
Defined.

Lemma index_key_direct_match_witness :
  (∃ a this',
     analyze (root_of [abcde; cat; box]) constructor 0 "LENGTH_5" = (Return a, this')
     ∧ found a = true ∧ matchType a = direct ∧ confidence a = 1.0%Q
     ∧ abcde ∈ [abcde]
     ∧ (result a = Some (RValue (VArray [abcde]))
        ∨ ∃ w, w ∈ [abcde; cat; box] ∧ key w = "length_5"
               ∧ result a = Some (RValue (VEntry w)))
     ∧ ((∀ w, w ∈ [abcde; cat; box] → key w ≠ "length_5") →
        result a = Some (RValue (VArray [abcde]))))
  ∧ (∃ a this',
       analyze (root_of [abcde; cat; box]) constructor 0 " Letter_c" = (Return a, this')
       ∧ found a = true ∧ matchType a = direct ∧ confidence a = 1.0%Q
       ∧ cat ∈ [cat]
       ∧ (result a = Some (RValue (VArray [cat]))
          ∨ ∃ w, w ∈ [abcde; cat; box] ∧ key w = "letter_c"
                 ∧ result a = Some (RValue (VEntry w)))
       ∧ ((∀ w, w ∈ [abcde; cat; box] → key w ≠ "letter_c") →
          result a = Some (RValue (VArray [cat])))).
Proof.
  split.
  - apply (index_key_direct_match [abcde; cat; box] (root_of [abcde; cat; box])
             constructor 0 abcde "length_5" [abcde] "LENGTH_5").
    + repeat constructor.
    + run.
    + run.
    + apply reachable_new.
    + left.
    + left. split; run.
    + run.
  - apply (index_key_direct_match [abcde; cat; box] (root_of [abcde; cat; box])
             constructor 0 cat "letter_c" [cat] " Letter_c").
    + repeat constructor.
    + run.
    + run.
    + apply reachable_new.
    + right. left.
    + right. exists "c"%char, "at". split; [run|]. split; run.
    + run.
Defined.

(** The exception of C10: the word [length_5] comes after the only word of
    length 5 and takes the slot of the bucket. *)
Lemma index_key_taken_by_word :
  extractRootData [abcde; length_5] = Return (root_of [abcde; length_5])
  ∧ ∃ a this',
      analyze (root_of [abcde; length_5]) constructor 0 "length_5"
        = (Return a, this')
      ∧ matchType a = direct
      ∧ result a = Some (RValue (VEntry length_5)).
Proof. split; [run|]. eexists; eexists. split; [run|]. repeat split. Qed.

(** With that database, the similar-word strategy meets the word in the slot
    of the bucket of length 5 and throws; nothing enters the cache. *)
Lemma analyze_throws :
  analyze (root_of [abcde; length_5]) constructor 0 "zzzzz"
  = (Throw TypeError, constructor).
Proof. run. Qed.

(** A word whose key is the key of its own bucket makes [extractRootData]
    throw. *)
Lemma extractRootData_throws :
  extractRootData [E "length_8" "己"] = Throw TypeError.
Proof. run. Qed.

End Runs.

(** * Further properties of the analyzer *)

(** ** Sets of characters and the similarity *)

Lemma new_Set_fold (l acc : list ascii) :
  NoDup acc →
  NoDup (fold_left (fun acc x => if bool_decide (x ∈ acc) then acc else (acc ++ [x])%list) l acc)
  ∧ ∀ x, x ∈ fold_left (fun acc x => if bool_decide (x ∈ acc) then acc else (acc ++ [x])%list) l acc
         ↔ x ∈ acc ∨ x ∈ l.
Proof.
  revert acc; induction l as [|c l IH]; intros acc Hnd; simpl.
  - split; [assumption|]. intros x. rewrite elem_of_nil. tauto.
  - destruct (bool_decide_reflect (c ∈ acc)) as [Hin|Hin].
    + destruct (IH acc Hnd) as [H1 H2]. split; [assumption|].
      intros x. rewrite H2, elem_of_cons. split; [tauto|].
      intros [?|[->|?]]; auto.
    + assert (Hnd' : NoDup (acc ++ [c])).
      { apply NoDup_app. repeat split; [assumption | | apply NoDup_singleton].
        intros x Hx Hc. apply list_elem_of_singleton in Hc as ->. contradiction. }
      destruct (IH _ Hnd') as [H1 H2]. split; [assumption|].
      intros x. rewrite H2, elem_of_app, list_elem_of_singleton, elem_of_cons. tauto.
Qed.

Lemma NoDup_new_Set l : NoDup (new_Set l).
Proof. apply new_Set_fold, NoDup_nil_2. Qed.

Lemma elem_of_new_Set l x : x ∈ new_Set l ↔ x ∈ l.
Proof.
  unfold new_Set. destruct (new_Set_fold l [] (NoDup_nil_2)) as [_ H].
  rewrite H, elem_of_nil. tauto.
Qed.

(** Two sets with the same elements have the same size. *)
Lemma length_new_Set_ext l k :
  (∀ x, x ∈ l ↔ x ∈ k) → length (new_Set l) = length (new_Set k).
Proof.
  intros H. apply Permutation_length, NoDup_Permutation; try apply NoDup_new_Set.
  intros x. now rewrite !elem_of_new_Set.
Qed.

Lemma length_new_Set_le l k :
  (∀ x, x ∈ l → x ∈ k) → length (new_Set l) ≤ length (new_Set k).
Proof.
  intros H. apply submseteq_length, NoDup_submseteq; [apply NoDup_new_Set|].
  intros x. rewrite !elem_of_new_Set. apply H.
Qed.

(** X1.  [calculateSimilarity] is symmetric: the two orders of its arguments
    give the same number. *)
Theorem calculateSimilarity_symmetric (str1 str2 : string) :
  calculateSimilarity str1 str2 = calculateSimilarity str2 str1.
Proof.
  unfold calculateSimilarity.
  rewrite (String.eqb_sym str2 str1), (orb_comm (includes str2 str1)).
  destruct (String.eqb str1 str2); [reflexivity|].
  destruct (includes str1 str2 || includes str2 str1); [reflexivity|].
  f_equal; [f_equal|f_equal].
  - apply length_new_Set_ext. intros x.
    rewrite !list_elem_of_filter, !elem_of_new_Set. tauto.
  - apply length_new_Set_ext. intros x.
    rewrite !elem_of_app, !elem_of_new_Set. tauto.
Qed.

Lemma includes_empty s : includes s "" = true.
Proof. destruct s; reflexivity. Qed.

Lemma calculateSimilarity_upper (str1 str2 : string) :
  (calculateSimilarity str1 str2 <= 1)%Q.
Proof.
  unfold calculateSimilarity.
  destruct (String.eqb str1 str2); [discriminate|].
  destruct (includes str1 str2 || includes str2 str1); [discriminate|].
  set (i := new_Set (filter _ _)). set (u := new_Set (_ ++ _)).
  assert (Hle : length i ≤ length u).
  { apply length_new_Set_le. intros x.
    rewrite list_elem_of_filter, elem_of_app. tauto. }
  unfold Qle. simpl. lia.
Qed.

Lemma calculateSimilarity_lower (str1 str2 : string) :
  (0 <= calculateSimilarity str1 str2)%Q.
Proof.
  unfold calculateSimilarity.
  destruct (String.eqb str1 str2); [discriminate|].
  destruct (includes str1 str2 || includes str2 str1); [discriminate|].
  unfold Qle. simpl. lia.
Qed.

(** X2.  The similarity of two strings is a number between 0 and 1.  It is
    1.0 for a string and itself, and 0.9 for two different strings one of
    which includes the other; the empty string is included in every string,
    so its similarity to any other string is 0.9. *)
Theorem calculateSimilarity_range (str1 str2 : string) :
  (0 <= calculateSimilarity str1 str2)%Q
  ∧ (calculateSimilarity str1 str2 <= 1)%Q
  ∧ calculateSimilarity str1 str1 = 1.0%Q
  ∧ (str1 ≠ str2 → includes str1 str2 = true ∨ includes str2 str1 = true →
     calculateSimilarity str1 str2 = 0.9%Q)
  ∧ (str2 ≠ "" → calculateSimilarity "" str2 = 0.9%Q).
Proof.
  split; [apply calculateSimilarity_lower|].
  split; [apply calculateSimilarity_upper|].
  split; [unfold calculateSimilarity; now rewrite String.eqb_refl|].
  assert (G : ∀ a b, a ≠ b → includes a b = true ∨ includes b a = true →
                     calculateSimilarity a b = 0.9%Q).
  { intros a b Hne Hinc. unfold calculateSimilarity.
    destruct (String.eqb_spec a b) as [|_]; [contradiction|].
    destruct Hinc as [-> | ->]; [reflexivity | now rewrite orb_true_r]. }
  split; [apply G|].
  intros Hne. apply G; [congruence|]. right. apply includes_empty.
Qed.

(** ** The fields of an analysis, match type by match type *)

Lemma above_threshold_bounds w ws c :
  c ∈ above_threshold w ws → (0.7 <= similarity c)%Q ∧ (similarity c <= 1)%Q.
Proof.
  unfold above_threshold.
  intros [Hq (e & -> & _)%list_elem_of_fmap]%list_elem_of_filter.
  split; [now apply Qle_bool_iff in Hq | apply calculateSimilarity_upper].
Qed.

Lemma findSimilarWords_bounds db w m :
  findSimilarWords db w = Return (Some m) →
  (0.7 <= sim_confidence m)%Q ∧ (sim_confidence m <= 1)%Q
  ∧ length (sim_suggestions m) ≤ 4.
Proof.
  intros (pool & _ & H)%findSimilarWords_spec.
  destruct (sort_candidates _) as [|top rest] eqn:Hs; [discriminate|].
  injection H as ->. simpl.
  assert (Hin : top ∈ above_threshold w pool).
  { rewrite <- (sort_candidates_perm (above_threshold w pool)), Hs. left. }
  apply above_threshold_bounds in Hin as [H1 H2].
  repeat split; try assumption.
  rewrite length_map, length_take. lia.
Qed.

Lemma matchInflections_length db w m :
  matchInflections db w = Some m → length (infl_decomposition m) = 2.
Proof.
  intros (i & _ & H)%first_some_elim. unfold try_inflection in H.
  destruct (endsWith w i); [|discriminate].
  destruct (directMatch db _); [|discriminate]. now injection H as <-.
Qed.

Lemma matchWithAffixes_length db w m :
  matchWithAffixes db w = Some m → length (affix_decomposition m) = 2.
Proof.
  unfold matchWithAffixes.
  destruct (first_some (try_prefix db w) _) as [m'|] eqn:Hp.
  - intros [= <-]. apply first_some_elim in Hp as (p & _ & Hp).
    unfold try_prefix in Hp. destruct (_ && _); [|discriminate].
    destruct (directMatch db _); [|discriminate]. now injection Hp as <-.
  - intros (x & _ & Hx)%first_some_elim.
    unfold try_suffix in Hx. destruct (_ && _); [|discriminate].
    destruct (directMatch db _); [|discriminate]. now injection Hx as <-.
Qed.

Lemma analyzeCompoundWord_length db w m :
  analyzeCompoundWord db w = Some m → length (comp_decomposition m) = 2.
Proof.
  intros (_ & pat & _ & H)%analyzeCompoundWord_spec.
  apply try_pattern_spec in H as (g1 & g2 & v1 & v2 & _ & _ & _ & _ & _ & ->).
  reflexivity.
Qed.

(** Splits the result of the cascade into its six branches. *)
Ltac cascade_branches Hc m Hm :=
  apply cascade_cases in Hc; simpl in Hc;
  destruct Hc as [(m & Hm & ->) | [(Hd & m & Hm & ->) | [(Hd & Hi & m & Hm & ->)
    | [(Hd & Hi & Ha & m & Hm & ->) | [(Hd & Hi & Ha & Hs & m & Hm & ->)
    | (Hd & Hi & Ha & Hs & Hm & ->)]]]]]; simpl.

(** X3.  The confidence of an analysis is fixed by its match type: 1.0 for
    [direct], 0.95 for [inflection], 0.85 for [prefixed], 0.80 for
    [suffixed], 0.75 for [compound], 0 for [not_found]; for [similar] it is
    the similarity of the match, between the threshold 0.7 and 1. *)
Theorem confidence_by_match_type db this now input a this' :
  reachable db this →
  analyze db this now input = (Return a, this') →
  match matchType a with
  | direct => confidence a = 1.0%Q
  | inflection => confidence a = 0.95%Q
  | prefixed => confidence a = 0.85%Q
  | suffixed => confidence a = 0.80%Q
  | similar => (0.7 <= confidence a)%Q ∧ (confidence a <= 1)%Q
  | compound => confidence a = 0.75%Q
  | not_found => confidence a = 0%Q
  end.
Proof.
  intros Hr Han.
  destruct (analyze_cascade _ _ _ _ _ _ Hr Han) as (now' & word' & _ & Hc).
  cascade_branches Hc m Hm; try reflexivity.
  - apply matchWithAffixes_parts in Hm as (_ & [[-> ->] | [-> ->]]); reflexivity.
  - apply findSimilarWords_bounds in Hm. tauto.
  - now apply analyzeCompoundWord_confidence in Hm.
Qed.

(** X4.  An analysis is not found exactly when its match type is
    [not_found], and then it has confidence 0 and no result.  Only a
    [similar] analysis has suggestions, four at most, so that an analysis
    that is not found never has any; a decomposition has two parts for the
    match types [inflection], [prefixed], [suffixed] and [compound], and is
    empty for the others. *)
Theorem analysis_shape db this now input a this' :
  reachable db this →
  analyze db this now input = (Return a, this') →
  (found a = false ↔ matchType a = not_found)
  ∧ (found a = false → confidence a = 0%Q ∧ result a = None ∧ suggestions a = [])
  ∧ (suggestions a ≠ [] → matchType a = similar)
  ∧ length (suggestions a) ≤ 4
  ∧ length (decomposition a)
    = match matchType a with
      | inflection | prefixed | suffixed | compound => 2
      | direct | similar | not_found => 0
      end.
Proof.
  intros Hr Han.
  destruct (analyze_cascade _ _ _ _ _ _ Hr Han) as (now' & word' & _ & Hc).
  cascade_branches Hc m Hm.
  - repeat split; try discriminate; try congruence; auto with lia.
  - apply matchInflections_length in Hm.
    repeat split; try discriminate; try congruence; auto with lia.
  - pose proof (matchWithAffixes_length _ _ _ Hm) as Hl.
    apply matchWithAffixes_parts in Hm as (_ & [[Ht _] | [Ht _]]); rewrite Ht;
      repeat split; try discriminate; try congruence; auto with lia.
  - apply findSimilarWords_bounds in Hm as (_ & _ & Hl).
    repeat split; try discriminate; try congruence; auto with lia.
  - apply analyzeCompoundWord_length in Hm.
    repeat split; try discriminate; try congruence; auto with lia.
  - repeat split; try discriminate; try congruence; auto with lia.
Qed.

(** ** The order of the strategies *)

Lemma first_some_None {A B} (f : A → option B) (l : list A) :
  first_some f l = None ↔ ∀ a, a ∈ l → f a = None.
Proof.
  induction l as [|a l IH]; simpl.
  - split; [intros _ a Ha; now apply elem_of_nil in Ha | reflexivity].
  - destruct (f a) eqn:E.
    + split; [discriminate|]. intros H. rewrite <- E. apply H. left.
    + rewrite IH. split.
      * intros H x [->|Hx]%elem_of_cons; auto.
      * intros H x Hx. apply H. now right.
Qed.


Lemma matchWithAffixes_type db w m :
  matchWithAffixes db w = Some m → affix_type m = prefixed ∨ affix_type m = suffixed.
Proof. intros H. apply matchWithAffixes_parts in H. tauto. Qed.

(** X5.  The strategies are tried in one order and the first that succeeds
    decides: the analysis is [direct] exactly when the normalized word has a
    direct match; [inflection] exactly when it has none and an inflection
    applies; [prefixed] or [suffixed] exactly when neither holds and an affix
    applies; and [similar], [compound] or [not_found] exactly when none of
    the three applies. *)
Theorem first_strategy_wins db this now input a this' :
  reachable db this →
  analyze db this now input = (Return a, this') →
  let w := normalize input in
  (matchType a = direct ↔ directMatch db w ≠ None)
  ∧ (matchType a = inflection ↔
       directMatch db w = None ∧ matchInflections db w ≠ None)
  ∧ (matchType a = prefixed ∨ matchType a = suffixed ↔
       directMatch db w = None ∧ matchInflections db w = None
       ∧ matchWithAffixes db w ≠ None)
  ∧ (matchType a = similar ∨ matchType a = compound ∨ matchType a = not_found ↔
       directMatch db w = None ∧ matchInflections db w = None
       ∧ matchWithAffixes db w = None).
Proof.
  intros Hr Han w.
  destruct (analyze_cascade _ _ _ _ _ _ Hr Han) as (now' & word' & Hn & Hc).
  subst w. rewrite <- Hn. clear Hn Han Hr.
  cascade_branches Hc m Hm.
  - rewrite Hm. repeat split; try discriminate; try congruence;
      intuition (try discriminate; try congruence).
  - rewrite Hd, Hm. repeat split; try discriminate; try congruence;
      intuition (try discriminate; try congruence).
  - rewrite Hd, Hi, Hm.
    destruct (matchWithAffixes_type _ _ _ Hm) as [-> | ->];
      repeat split; try discriminate; try congruence;
      intuition (try discriminate; try congruence).
  - rewrite Hd, Hi, Ha. repeat split; try discriminate; try congruence;
      intuition (try discriminate; try congruence).
  - rewrite Hd, Hi, Ha. repeat split; try discriminate; try congruence;
      intuition (try discriminate; try congruence).
  - rewrite Hd, Hi, Ha. repeat split; try discriminate; try congruence;
      intuition (try discriminate; try congruence).
Qed.



(** ** Prefixes and suffixes *)

Lemma str_take_append x s : str_take (String.length x) (x +:+ s) = x.
Proof.
  induction x as [|c x IH]; [now destruct s|]. rewrite append_cons. simpl. now f_equal.
Qed.

Lemma startsWith_append p s : startsWith (p +:+ s) p = true.
Proof.
  unfold startsWith. rewrite length_append, str_take_append, String.eqb_refl.
  apply andb_true_iff. split; [apply Nat.leb_le; lia | reflexivity].
Qed.

Lemma slice_after_prefix p s : slice (p +:+ s) (Z.of_nat (String.length p)) None = s.
Proof.
  pose proof (startsWith_slice _ _ (startsWith_append p s)) as H.
  now apply (inj (String.append p)) in H.
Qed.

Lemma try_prefix_inv db w p m :
  try_prefix db w p = Some m →
  ∃ stem v,
    p +:+ stem = w ∧ 3 ≤ String.length stem ∧ directMatch db stem = Some v
    ∧ m = {| affix_type := prefixed; affix_confidence := 0.85%Q;
             affix_result :=
               RSpread v (getPrefixMeaning p +:+ to_text (chinese_of v));
             affix_decomposition :=
               [ mkPart p prefix None (Some (getPrefixMeaning p)) None;
                 mkPart stem base (chinese_of v) None None ] |}.
Proof.
  unfold try_prefix.
  destruct (startsWith w p) eqn:He; [|discriminate]. simpl.
  destruct (Nat.ltb_spec (String.length p + 2) (String.length w)) as [Hlen|];
    [|discriminate].
  destruct (directMatch db _) as [v|] eqn:Hv; [|discriminate].
  intros [= <-]. apply startsWith_slice in He.
  exists (slice w (Z.of_nat (String.length p)) None), v.
  repeat split; try assumption.
  apply (f_equal String.length) in He. rewrite length_append in He. lia.
Qed.

Lemma try_suffix_inv db w x m :
  0 < String.length x → try_suffix db w x = Some m →
  ∃ stem v,
    stem +:+ x = w ∧ 3 ≤ String.length stem ∧ directMatch db stem = Some v
    ∧ m = {| affix_type := suffixed; affix_confidence := 0.80%Q;
             affix_result :=
               RSpread v (to_text (chinese_of v) +:+ getSuffixMeaning x);
             affix_decomposition :=
               [ mkPart stem base (chinese_of v) None None;
                 mkPart x suffix None (Some (getSuffixMeaning x)) None ] |}.
Proof.
  intros Hx. unfold try_suffix.
  destruct (endsWith w x) eqn:He; [|discriminate]. simpl.
  destruct (Nat.ltb_spec (String.length x + 2) (String.length w)) as [Hlen|];
    [|discriminate].
  destruct (directMatch db _) as [v|] eqn:Hv; [|discriminate].
  intros [= <-]. apply endsWith_slice in He; [|assumption].
  exists (slice w 0 (Some (- Z.of_nat (String.length x))%Z)), v.
  repeat split; try assumption.
  apply (f_equal String.length) in He. rewrite length_append in He. lia.
Qed.

Lemma try_prefix_None db p stem :
  try_prefix db (p +:+ stem) p = None → 3 ≤ String.length stem →
  directMatch db stem = None.
Proof.
  unfold try_prefix. rewrite startsWith_append, slice_after_prefix, length_append.
  intros H Hlen. simpl in H.
  destruct (Nat.ltb_spec (String.length p + 2) (String.length p + String.length stem));
    [|lia].
  now destruct (directMatch db stem).
Qed.

(** X7.  A [prefixed] analysis comes from a prefix of the table followed by
    a stem of at least 3 characters that has a direct match; its result is a
    copy of that match whose [chinese] is the meaning of the prefix followed
    by the [chinese] of the match.  A [suffixed] analysis comes in the same
    way from a stem of at least 3 characters followed by a suffix of the
    table, with the meaning of the suffix after the [chinese] of the match;
    and it is only returned when no prefix of the table leaves a stem of at
    least 3 characters with a direct match. *)
Theorem affix_match_details db this now input a this' :
  reachable db this →
  analyze db this now input = (Return a, this') →
  (matchType a = prefixed →
     ∃ p stem v,
       p ∈ MORPHEME_RULES.prefixes
       ∧ p +:+ stem = normalize input ∧ 3 ≤ String.length stem
       ∧ directMatch db stem = Some v
       ∧ result a = Some (RSpread v (getPrefixMeaning p +:+ to_text (chinese_of v)))
       ∧ decomposition a =
           [ mkPart p prefix None (Some (getPrefixMeaning p)) None;
             mkPart stem base (chinese_of v) None None ])
  ∧ (matchType a = suffixed →
       (∃ x stem v,
          x ∈ MORPHEME_RULES.suffixes
          ∧ stem +:+ x = normalize input ∧ 3 ≤ String.length stem
          ∧ directMatch db stem = Some v
          ∧ result a = Some (RSpread v (to_text (chinese_of v) +:+ getSuffixMeaning x))
          ∧ decomposition a =
              [ mkPart stem base (chinese_of v) None None;
                mkPart x suffix None (Some (getSuffixMeaning x)) None ])
       ∧ (∀ p stem,
            p ∈ MORPHEME_RULES.prefixes → p +:+ stem = normalize input →
            3 ≤ String.length stem → directMatch db stem = None)).
Proof.
  intros Hr Han.
  destruct (analyze_cascade _ _ _ _ _ _ Hr Han) as (now' & word' & Hn & Hc).
  rewrite <- Hn. clear Hn Han Hr.
  cascade_branches Hc m Hm; try (split; discriminate).
  - unfold matchWithAffixes in Hm.
    destruct (first_some (try_prefix db _) _) as [m'|] eqn:Hp.
    + injection Hm as <-. apply first_some_elim in Hp as (p & Hin & Hp).
      apply try_prefix_inv in Hp as (stem & v & Hw & Hlen & Hv & ->). simpl.
      split; [|discriminate]. intros _. exists p, stem, v. auto 10.
    + rewrite first_some_None in Hp.
      apply first_some_elim in Hm as (x & Hin & Hx).
      apply try_suffix_inv in Hx as (stem & v & Hw & Hlen & Hv & ->);
        [|now apply suffixes_not_empty]. simpl.
      split; [discriminate|]. intros _. split.
      * exists x, stem, v. auto 10.
      * intros p stem' Hp' Hw' Hlen'. apply (try_prefix_None db p); [|assumption].
        rewrite Hw'. now apply Hp.
Qed.

(** ** Normalization and the keys of the cache *)

Lemma lower_char_idem c : lower_char (lower_char c) = lower_char c.
Proof. destruct c as [[] [] [] [] [] [] [] []]; reflexivity. Qed.

Lemma toLowerCase_idem s : toLowerCase (toLowerCase s) = toLowerCase s.
Proof. induction s as [|c s IH]; simpl; [reflexivity|]. now rewrite lower_char_idem, IH. Qed.

Lemma trimEnd_idem s : trimEnd (trimEnd s) = trimEnd s.
Proof.
  induction s as [|c s IH]; simpl; [reflexivity|].
  destruct (trimEnd s) as [|d t] eqn:E.
  - destruct (is_space c) eqn:Hc; simpl; [reflexivity | now rewrite Hc].
  - change (trimEnd (String c (String d t)))
      with (match trimEnd (String d t) with
            | EmptyString => if is_space c then EmptyString else String c EmptyString
            | t0 => String c t0
            end).
    now rewrite IH.
Qed.

Lemma trimStart_trimEnd s : trimStart (trimEnd (trimStart s)) = trimEnd (trimStart s).
Proof.
  induction s as [|c s IH]; simpl; [reflexivity|].
  destruct (is_space c) eqn:Hc; [exact IH|].
  simpl. destruct (trimEnd s); rewrite ?Hc; simpl; now rewrite Hc.
Qed.

Lemma trim_idem s : trim (trim s) = trim s.
Proof. unfold trim. now rewrite trimStart_trimEnd, trimEnd_idem. Qed.

Lemma trim_toLowerCase s : trim (toLowerCase s) = toLowerCase (trim s).
Proof. unfold trim. now rewrite trimStart_toLowerCase, trimEnd_toLowerCase. Qed.

Lemma normalize_lower word : toLowerCase (normalize word) = normalize word.
Proof. unfold normalize. now rewrite <- trim_toLowerCase, toLowerCase_idem. Qed.

Lemma normalize_idem word : normalize (normalize word) = normalize word.
Proof.
  unfold normalize at 1. rewrite normalize_lower. unfold normalize. apply trim_idem.
Qed.

(** X9.  Normalization is idempotent, and a normalized word is left as it
    is by [toLowerCase] and by [trim]: every input with the same
    normalization as a word, the normalized word itself included, is
    handled as that word. *)
Theorem normalize_idempotent (word : string) :
  normalize (normalize word) = normalize word
  ∧ toLowerCase (normalize word) = normalize word
  ∧ trim (normalize word) = normalize word.
Proof.
  split; [apply normalize_idem|]. split; [apply normalize_lower|].
  unfold normalize. apply trim_idem.
Qed.

Lemma cascade_normalized db now w a :
  cascade db now w = Return a → normalized a = normalize w.
Proof.
  intros Hc. cascade_branches Hc m Hm; reflexivity.
Qed.

(** X8.  In the cache of an analyzer, every key is a normalized word and is
    the [normalized] field of the analysis stored under it.  A call of
    [analyze] never removes or replaces a cached analysis: it leaves the
    cache as it is when it hits the cache or throws, and otherwise adds the
    analysis it returns under the normalization of its input. *)
Theorem cache_keys_normalized db this :
  reachable db this →
  (∀ k a, cache this !! k = Some a → normalize k = k ∧ normalized a = k)
  ∧ (∀ now input r this',
       analyze db this now input = (r, this') →
       cache this ⊆ cache this'
       ∧ (∀ k, k ≠ normalize input → cache this' !! k = cache this !! k)
       ∧ match r with
         | Return a => cache this' !! normalize input = Some a
         | Throw _ => this' = this
         end).
Proof.
  intros Hr. split.
  - intros k a Hk. apply reachable_sound in Hr.
    destruct (Hr k a Hk) as (now & w & <- & Hc).
    split; [apply normalize_idem | now apply cascade_normalized in Hc].
  - intros now input r this'. unfold analyze.
    destruct (cache this !! normalize input) as [a0|] eqn:Hc.
    + intros [= <- <-]. auto.
    + destruct (cascade db now input) as [a0|e]; intros [= <- <-]; simpl; [|auto].
      split; [now apply insert_subseteq|].
      split; [|apply lookup_insert_eq].
      intros k Hk. now apply lookup_insert_ne.
Qed.

(** ** When [extractRootData] returns and when it throws *)

Lemma push_word_free db ik w :
  is_index_key ik →
  (∀ k, is_index_key k → ∀ x, own db !! k ≠ Some (VEntry x)) →
  (∀ k y, own db !! k ≠ Some (VInherited y)) →
  ∃ db', push_word db ik w = Return db'
    ∧ (∀ k, is_index_key k → ∀ x, own db' !! k ≠ Some (VEntry x))
    ∧ (∀ k y, own db' !! k ≠ Some (VInherited y)).
Proof.
  intros Hik Hfree Hinh. unfold push_word. rewrite (get_index_key _ _ Hik).
  destruct (own db !! ik) as [[x|ws|y]|] eqn:E.
  - now apply Hfree in E.
  - eexists. split; [reflexivity|]. simpl. split.
    + intros k Hk x. destruct (decide (ik = k)) as [<-|Hne].
      * rewrite lookup_insert_eq. discriminate.
      * rewrite lookup_insert_ne by assumption. now apply Hfree.
    + intros k y. destruct (decide (ik = k)) as [<-|Hne].
      * rewrite lookup_insert_eq. discriminate.
      * rewrite lookup_insert_ne by assumption. apply Hinh.
  - now apply Hinh in E.
  - eexists. split; [reflexivity|]. simpl. split.
    + intros k Hk x. destruct (decide (ik = k)) as [<-|Hne].
      * rewrite lookup_insert_eq. discriminate.
      * rewrite lookup_insert_ne by assumption. now apply Hfree.
    + intros k y. destruct (decide (ik = k)) as [<-|Hne].
      * rewrite lookup_insert_eq. discriminate.
      * rewrite lookup_insert_ne by assumption. apply Hinh.
Qed.

Lemma index_word_free db w :
  ¬ is_index_key (key w) →
  (∀ k, is_index_key k → ∀ x, own db !! k ≠ Some (VEntry x)) →
  (∀ k y, own db !! k ≠ Some (VInherited y)) →
  ∃ db', index_word db w = Return db'
    ∧ (∀ k, is_index_key k → ∀ x, own db' !! k ≠ Some (VEntry x))
    ∧ (∀ k y, own db' !! k ≠ Some (VInherited y)).
Proof.
  intros Hw Hfree Hinh. unfold index_word. fold (key w).
  assert (S1 : (∀ k, is_index_key k →
                  ∀ x, own (set_word db (key w) w) !! k ≠ Some (VEntry x))
               ∧ (∀ k y, own (set_word db (key w) w) !! k ≠ Some (VInherited y))).
  { unfold set_word. destruct (String.eqb (key w) "__proto__"); simpl; [auto|].
    split.
    - intros k Hk x. destruct (decide (key w = k)) as [E|Hne].
      + rewrite E in Hw. contradiction.
      + rewrite lookup_insert_ne by assumption. now apply Hfree.
    - intros k y. destruct (decide (key w = k)) as [<-|Hne].
      + rewrite lookup_insert_eq. discriminate.
      + rewrite lookup_insert_ne by assumption. apply Hinh. }
  destruct S1 as [F1 I1].
  destruct (push_word_free _ _ w (length_key_is_index (String.length (key w))) F1 I1)
    as (db2 & -> & F2 & I2).
  simpl. apply (push_word_free _ _ w (letter_key_is_index (key w)) F2 I2).
Qed.

(** X10.  [extractRootData] runs to its end on every database in which no
    word has an [english] that, in lower case, starts with [length_] or
    [letter_]: the only exception of the function is a [push] on a word that
    took the slot of a bucket. *)
Theorem extractRootData_returns WORD_DATABASE :
  (∀ w, w ∈ WORD_DATABASE → ¬ is_index_key (key w)) →
  ∃ db, extractRootData WORD_DATABASE = Return db.
Proof.
  unfold extractRootData.
  assert (G : ∀ l db0,
             (∀ w, w ∈ l → ¬ is_index_key (key w)) →
             (∀ k, is_index_key k → ∀ x, own db0 !! k ≠ Some (VEntry x)) →
             (∀ k y, own db0 !! k ≠ Some (VInherited y)) →
             ∃ db, foldM index_word db0 l = Return db).
  { induction l as [|w l IH]; intros db0 Hl Hfree Hinh; simpl; [eauto|].
    destruct (index_word_free db0 w) as (db1 & -> & F1 & I1); auto.
    { apply Hl. left. }
    simpl. apply IH; auto. intros x Hx. apply Hl. now right. }
  intros H. apply G; [assumption | |]; intros; simpl; now rewrite lookup_empty.
Qed.

(** X11.  After [extractRootData] on such a database, when its words are of
    code units below 128, the bucket that [findSimilarWords] reads for a
    length holds exactly the words of the database whose [english] has that
    length, in the order of the database (no words when there is no bucket),
    and reading it never throws. *)
Theorem wordsOfLength_after_load WORD_DATABASE db n :
  ascii_lexicon WORD_DATABASE →
  extractRootData WORD_DATABASE = Return db →
  (∀ w, w ∈ WORD_DATABASE → ¬ is_index_key (key w)) →
  wordsOfLength db n = Return (entries_of_length n WORD_DATABASE).
Proof.
  intros _ Hload Hfree. unfold wordsOfLength.
  pose proof (extractRootData_bucket _ _ _ (length_key_is_index n) Hload) as Hb.
  rewrite contribution_length in Hb.
  destruct (get db (length_key n)) as [[x|ws|y]|] eqn:Hg; simpl in Hb.
  - apply (extractRootData_entry _ _ _ _ Hload) in Hg as [Hk Hx].
    apply Hfree in Hx. rewrite Hk in Hx. exfalso. apply Hx, length_key_is_index.
  - now rewrite Hb.
  - contradiction.
  - now rewrite Hb.
Qed.

(** X12.  After [extractRootData] on a database of words of code units
    below 128, the direct lookup of a key finds a word exactly when the
    database has words whose [english] in lower case is that key, and the
    word found is the last of them: the last write wins. *)
Theorem directMatch_after_load WORD_DATABASE db k w :
  ascii_lexicon WORD_DATABASE →
  extractRootData WORD_DATABASE = Return db →
  (directMatch db k = Some (VEntry w) ↔ last_with_key k WORD_DATABASE = Some w).
Proof.
  intros _ Hload. unfold directMatch. split.
  - intros Hg. pose proof Hg as Hg'.
    apply (extractRootData_entry _ _ _ _ Hload) in Hg' as [Hk Hw].
    destruct (last_with_key k WORD_DATABASE) as [w'|] eqn:Hl.
    + apply (extractRootData_direct _ _ _ _ Hload) in Hl. congruence.
    + unfold last_with_key in Hl. apply last_None in Hl.
      assert (Hin : w ∈ filter (fun x => key x = k) WORD_DATABASE)
        by (apply list_elem_of_filter; auto).
      rewrite Hl in Hin. now apply elem_of_nil in Hin.
  - apply (extractRootData_direct _ _ _ _ Hload).
Qed.







(** * Properties of the main script *)

(** ** [getLemmas] *)

Lemma dedupe_fold (l acc : list string) :
  NoDup acc →
  ∃ new,
    fold_left (fun acc x => if bool_decide (x ∈ acc) then acc else acc ++ [x]) l acc
    = acc ++ new
    ∧ NoDup (acc ++ new)
    ∧ ∀ x, x ∈ acc ++ new ↔ x ∈ acc ∨ x ∈ l.
Proof.
  revert acc; induction l as [|c l IH]; intros acc Hnd; simpl.
  - exists []. rewrite app_nil_r. split; [reflexivity|]. split; [assumption|].
    intros x. rewrite elem_of_nil. tauto.
  - destruct (bool_decide_reflect (c ∈ acc)) as [Hin|Hin].
    + destruct (IH acc Hnd) as (new & E & H1 & H2). exists new.
      split; [assumption|]. split; [assumption|].
      intros x. rewrite H2, elem_of_cons. split; [tauto|].
      intros [?|[->|?]]; auto.
    + assert (Hnd' : NoDup (acc ++ [c])).
      { apply NoDup_app. repeat split; [assumption | | apply NoDup_singleton].
        intros x Hx Hc. apply list_elem_of_singleton in Hc as ->. contradiction. }
      destruct (IH _ Hnd') as (new & E & H1 & H2). exists (c :: new).
      rewrite E, <- app_assoc in *. simpl in *.
      split; [reflexivity|]. split; [assumption|].
      intros x. rewrite H2, elem_of_app, list_elem_of_singleton, elem_of_cons. tauto.
Qed.

Lemma dedupe_spec (x : string) (l : list string) :
  ∃ rest, MainScript.dedupe (x :: l) = x :: rest
    ∧ NoDup (x :: rest)
    ∧ ∀ y, y ∈ x :: rest ↔ y ∈ x :: l.
Proof.
  unfold MainScript.dedupe. simpl.
  destruct (dedupe_fold l [x]) as (new & E & H1 & H2); [apply NoDup_singleton|].
  exists new. simpl in *. split; [assumption|]. split; [assumption|].
  intros y. rewrite (H2 y), list_elem_of_singleton, elem_of_cons. tauto.
Qed.

Lemma fold_left_push {A B} (f : B → list A) (l : list B) (acc : list A) :
  fold_left (fun acc x => acc ++ f x) l acc = acc ++ flat_map f l.
Proof.
  revert acc; induction l as [|b l IH]; intros acc; simpl.
  - now rewrite app_nil_r.
  - now rewrite IH, app_assoc.
Qed.

Lemma length_take_string n s :
  String.length (str_take n s) = Nat.min n (String.length s).
Proof.
  revert s; induction n as [|n IH]; intros [|c s]; simpl; auto with lia.
Qed.

Lemma length_slice_end w k :
  0 < k → String.length (slice w 0 (Some (- Z.of_nat k)%Z)) = String.length w - k.
Proof.
  intros Hk. unfold slice. rewrite clamp_index_neg by assumption.
  change 0%Z with (Z.of_nat 0). rewrite clamp_index_nat. simpl.
  rewrite length_take_string. lia.
Qed.

Lemma length_slice_from w n :
  String.length (slice w (Z.of_nat n) None) = String.length w - n.
Proof.
  unfold slice. rewrite clamp_index_nat, length_take_string, length_str_drop. lia.
Qed.

Lemma suffix_lemmas_length word suffix l :
  0 < String.length suffix →
  l ∈ MainScript.suffix_lemmas word suffix →
  3 ≤ String.length l < String.length word.
Proof.
  intros Hs. unfold MainScript.suffix_lemmas.
  destruct (endsWith word suffix); simpl; [|now intros ?%elem_of_nil].
  destruct (Nat.ltb_spec (String.length suffix + 2) (String.length word)) as [Hlen|];
    [|now intros ?%elem_of_nil].
  assert (Hy : ∀ sfx, String.length sfx = 2 → String.length sfx + 2 < String.length word →
             3 ≤ String.length (slice word 0 (Some (-3)%Z) +:+ "y") < String.length word).
  { intros sfx H2 Hl. rewrite length_append.
    change (-3)%Z with (- Z.of_nat 3)%Z. rewrite length_slice_end by lia. simpl. lia. }
  rewrite elem_of_cons, elem_of_app.
  intros [-> | [Hin | Hin]].
  - rewrite length_slice_end by assumption. lia.
  - destruct (String.eqb_spec suffix "es") as [->|]; simpl in Hin;
      [|now apply elem_of_nil in Hin].
    destruct (endsWith word "ies"); [|now apply elem_of_nil in Hin].
    apply list_elem_of_singleton in Hin as ->. now apply (Hy "es").
  - destruct (String.eqb_spec suffix "ed") as [->|]; simpl in Hin;
      [|now apply elem_of_nil in Hin].
    destruct (endsWith word "ied"); [|now apply elem_of_nil in Hin].
    apply list_elem_of_singleton in Hin as ->. now apply (Hy "ed").
Qed.

Lemma prefix_lemmas_length word prefix l :
  0 < String.length prefix →
  l ∈ MainScript.prefix_lemmas word prefix →
  3 ≤ String.length l < String.length word.
Proof.
  intros Hp. unfold MainScript.prefix_lemmas.
  destruct (startsWith word prefix); simpl; [|now intros ?%elem_of_nil].
  destruct (Nat.ltb_spec (String.length prefix + 2) (String.length word)) as [Hlen|];
    [|now intros ?%elem_of_nil].
  intros ->%list_elem_of_singleton. rewrite length_slice_from. lia.
Qed.

(** X14.  [getLemmas] returns the word itself first, without duplicates;
    every other lemma is shorter than the word and has at least 3
    characters. *)
Theorem getLemmas_shape (word : string) :
  (∃ rest, MainScript.getLemmas word = word :: rest)
  ∧ NoDup (MainScript.getLemmas word)
  ∧ ∀ l, l ∈ MainScript.getLemmas word →
         l = word ∨ 3 ≤ String.length l < String.length word.
Proof.
  unfold MainScript.getLemmas. rewrite !fold_left_push, <- app_assoc.
  set (sfx := flat_map (MainScript.suffix_lemmas word) _).
  set (pfx := flat_map (MainScript.prefix_lemmas word) _).
  change ([word] ++ sfx ++ pfx) with (word :: (sfx ++ pfx)).
  destruct (dedupe_spec word (sfx ++ pfx)) as (rest & -> & Hnd & Hel).
  split; [eauto|]. split; [assumption|].
  intros l Hl. apply Hel in Hl. apply elem_of_cons in Hl as [->|Hl]; [now left|].
  right. subst sfx pfx. apply elem_of_app in Hl as [Hl|Hl].
  - apply list_elem_of_In, in_flat_map in Hl as (x & Hs & Hl).
    apply (suffix_lemmas_length word x); [|now apply list_elem_of_In].
    simpl in Hs. intuition (subst; simpl; lia).
  - apply list_elem_of_In, in_flat_map in Hl as (x & Hp & Hl).
    apply (prefix_lemmas_length word x); [|now apply list_elem_of_In].
    simpl in Hp. intuition (subst; simpl; lia).
Qed.

(** ** The similarity and the fuzzy match of the main script *)

Lemma includes_length s t : includes s t = true → String.length t ≤ String.length s.
Proof.
  induction s as [|c s IH]; simpl.
  - rewrite orb_false_r. unfold startsWith. intros [H _]%andb_true_iff.
    now apply Nat.leb_le in H.
  - intros [H|H]%orb_true_iff.
    + unfold startsWith in H. apply andb_true_iff in H as [H _].
      now apply Nat.leb_le in H.
    + apply IH in H. lia.
Qed.

Lemma includes_same_length s t :
  String.length s = String.length t → (includes s t = true ↔ s = t).
Proof.
  intros Hlen. split.
  - destruct s as [|c s]; simpl.
    + destruct t; [reflexivity | discriminate].
    + intros [H|H]%orb_true_iff.
      * unfold startsWith in H. apply andb_true_iff in H as [_ H].
        apply String.eqb_eq in H. rewrite <- Hlen in H.
        now rewrite str_take_all in H by reflexivity.
      * apply includes_length in H. simpl in Hlen. lia.
  - intros <-. destruct s as [|c s]; simpl; [reflexivity|].
    apply orb_true_iff. left. unfold startsWith.
    rewrite Nat.leb_refl, str_take_all by reflexivity. apply String.eqb_refl.
Qed.

Lemma jaccard_le_1 (set1 set2 : list ascii) :
  ((Z.of_nat (length (new_Set (filter (fun x => x ∈ set2) set1)))
    # Pos.of_nat (length (new_Set (set1 ++ set2)))) <= 1)%Q.
Proof.
  set (i := new_Set (filter _ _)). set (u := new_Set (_ ++ _)).
  assert (Hle : length i ≤ length u).
  { apply length_new_Set_le. intros x.
    rewrite list_elem_of_filter, elem_of_app. tauto. }
  unfold Qle. simpl. lia.
Qed.

Lemma jaccard_eq_1 (set1 set2 : list ascii) :
  set1 ≠ [] →
  ((Z.of_nat (length (new_Set (filter (fun x => x ∈ set2) set1)))
    # Pos.of_nat (length (new_Set (set1 ++ set2)))) == 1)%Q
  ↔ ∀ c, c ∈ set1 ↔ c ∈ set2.
Proof.
  intros Hne.
  set (i := new_Set (filter _ _)). set (u := new_Set (_ ++ _)).
  assert (Hi : ∀ x, x ∈ i ↔ x ∈ set1 ∧ x ∈ set2).
  { intros x. unfold i. rewrite elem_of_new_Set, list_elem_of_filter. tauto. }
  assert (Hu : ∀ x, x ∈ u ↔ x ∈ set1 ∨ x ∈ set2).
  { intros x. unfold u. now rewrite elem_of_new_Set, elem_of_app. }
  assert (Hpos : 0 < length u).
  { destruct set1 as [|c set1]; [contradiction|].
    assert (Hc : c ∈ u) by (apply Hu; left; left).
    destruct u; [now apply elem_of_nil in Hc | simpl; lia]. }
  assert (Hq : ((Z.of_nat (length i) # Pos.of_nat (length u)) == 1)%Q
               ↔ length i = length u).
  { unfold Qeq. simpl. lia. }
  rewrite Hq. split.
  - intros Hlen.
    assert (Hperm : i ≡ₚ u).
    { apply submseteq_length_Permutation; [|lia].
      apply NoDup_submseteq; [apply NoDup_new_Set|].
      intros x. rewrite Hi, Hu. tauto. }
    intros c. pose proof (Hi c) as Hic. pose proof (Hu c) as Huc.
    rewrite Hperm in Hic. tauto.
  - intros Hsame. apply length_new_Set_ext. intros x.
    rewrite list_elem_of_filter, elem_of_app, (Hsame x). tauto.
Qed.

Lemma main_similarity_cases (str1 str2 : string) :
  (str1 = "" ∧ str2 = "" ∧ MainScript.calculateSimilarity str1 str2 = 1.0%Q)
  ∨ ((str1 ≠ "" ∨ str2 ≠ "")
     ∧ (includes str1 str2 = true ∨ includes str2 str1 = true)
     ∧ MainScript.calculateSimilarity str1 str2 = 0.9%Q)
  ∨ (str1 ≠ "" ∧ includes str1 str2 = false ∧ includes str2 str1 = false
     ∧ MainScript.calculateSimilarity str1 str2
       = (Z.of_nat (length (new_Set (filter (fun x => x ∈ new_Set (chars str2))
                                            (new_Set (chars str1)))))
          # Pos.of_nat (length (new_Set (new_Set (chars str1) ++ new_Set (chars str2)))))%Q).
Proof.
  unfold MainScript.calculateSimilarity.
  assert (Hnil : ∀ s, String.length s = 0 → s = "").
  { intros [|c s]; [reflexivity | discriminate]. }
  assert (Hno : ∀ s t, String.length s < String.length t → includes s t = false).
  { intros s t Hlt. destruct (includes s t) eqn:E; [|reflexivity].
    apply includes_length in E. lia. }
  assert (Hne1 : includes str2 str1 = false → str1 ≠ "").
  { intros E ->. now rewrite includes_empty in E. }
  destruct (Nat.ltb_spec (String.length str2) (String.length str1)) as [Hlt|Hle].
  - destruct (Nat.eqb_spec (String.length str1) 0) as [E0|E0]; [lia|].
    destruct (includes str1 str2) eqn:E.
    + right. left. split; [left; intros ->; simpl in Hlt; lia|]. auto.
    + right. right. pose proof (Hno str2 str1 Hlt). auto.
  - destruct (Nat.eqb_spec (String.length str2) 0) as [E0|E0].
    + left. rewrite (Hnil str2 E0). rewrite (Hnil str1) by lia. auto.
    + destruct (includes str2 str1) eqn:E.
      * right. left. split; [right; intros ->; now apply E0|]. auto.
      * right. right. split; [auto|]. split; [|auto].
        destruct (includes str1 str2) eqn:E'; [|reflexivity].
        pose proof (includes_length _ _ E') as Hl.
        assert (Hlen : String.length str1 = String.length str2) by lia.
        apply (includes_same_length _ _ Hlen) in E'. subst str2.
        assert (includes str1 str1 = true) by (now apply includes_same_length).
        congruence.
Qed.

(** X15.  The similarity of the main script is symmetric and lies between
    0 and 1.  Because inclusion is tested before anything else, two strings
    one of which includes the other score 0.9 unless both are empty; so a
    non-empty string and itself score 0.9 and not 1.0.  Two empty strings
    score 1.0 by the first test.  The score is 1 in these cases only: for
    two empty strings, and for two strings neither of which includes the
    other and that have the same characters, as [aab] and [abb] (the
    characters are the code units of strings of code units below 128). *)
Theorem main_similarity_properties (str1 str2 : string) :
  MainScript.calculateSimilarity str1 str2 = MainScript.calculateSimilarity str2 str1
  ∧ (0 <= MainScript.calculateSimilarity str1 str2)%Q
  ∧ (MainScript.calculateSimilarity str1 str2 <= 1)%Q
  ∧ (str1 ≠ "" → MainScript.calculateSimilarity str1 str1 = 0.9%Q)
  ∧ MainScript.calculateSimilarity "" "" = 1.0%Q
  ∧ (str1 ≠ "" ∨ str2 ≠ "" →
     includes str1 str2 = true ∨ includes str2 str1 = true →
     MainScript.calculateSimilarity str1 str2 = 0.9%Q)
  ∧ (is_ascii str1 = true → is_ascii str2 = true →
     ((MainScript.calculateSimilarity str1 str2 == 1)%Q
      ↔ (str1 = "" ∧ str2 = "")
        ∨ (includes str1 str2 = false ∧ includes str2 str1 = false
           ∧ ∀ c, c ∈ chars str1 ↔ c ∈ chars str2))).
Proof.
  split; [|split; [|split; [|split; [|split; [reflexivity|split]]]]].
  - unfold MainScript.calculateSimilarity.
    assert (J : (Z.of_nat (length (new_Set (filter (fun x => x ∈ new_Set (chars str2))
                                                   (new_Set (chars str1)))))
                 # Pos.of_nat (length (new_Set (new_Set (chars str1) ++ new_Set (chars str2)))))%Q
                = (Z.of_nat (length (new_Set (filter (fun x => x ∈ new_Set (chars str1))
                                                     (new_Set (chars str2)))))
                   # Pos.of_nat (length (new_Set (new_Set (chars str2) ++ new_Set (chars str1)))))%Q).
    { f_equal; [f_equal|f_equal]; apply length_new_Set_ext; intros x.
      - rewrite !list_elem_of_filter, !elem_of_new_Set. tauto.
      - rewrite !elem_of_app, !elem_of_new_Set. tauto. }
    destruct (Nat.ltb_spec (String.length str2) (String.length str1)) as [H21|H21];
      destruct (Nat.ltb_spec (String.length str1) (String.length str2)) as [H12|H12];
      try lia; try (now rewrite J).
    assert (Hlen : String.length str1 = String.length str2) by lia.
    rewrite Hlen.
    destruct (String.length str2 =? 0)%nat; [reflexivity|].
    destruct (String.eqb_spec str1 str2) as [->|Hne]; [reflexivity|].
    assert (E1 : includes str2 str1 = false).
    { destruct (includes str2 str1) eqn:E; [|reflexivity].
      apply includes_same_length in E; [congruence | lia]. }
    assert (E2 : includes str1 str2 = false).
    { destruct (includes str1 str2) eqn:E; [|reflexivity].
      apply includes_same_length in E; [congruence | lia]. }
    now rewrite E1, E2, J.
  - unfold MainScript.calculateSimilarity.
    destruct (_ =? 0)%nat; [discriminate|].
    destruct (includes _ _); [discriminate|].
    unfold Qle. simpl. lia.
  - unfold MainScript.calculateSimilarity.
    destruct (_ =? 0)%nat; [discriminate|].
    destruct (includes _ _); [discriminate|].
    apply jaccard_le_1.
  - intros Hne. unfold MainScript.calculateSimilarity.
    rewrite Nat.ltb_irrefl.
    destruct str1 as [|c s]; [contradiction|]. simpl.
    unfold startsWith. rewrite Nat.leb_refl. simpl.
    now rewrite Ascii.eqb_refl, str_take_all, String.eqb_refl by reflexivity.
  - intros Hne Hinc.
    destruct (main_similarity_cases str1 str2)
      as [(-> & -> & _) | [(_ & _ & ->) | (_ & E1 & E2 & _)]].
    + now destruct Hne.
    + reflexivity.
    + destruct Hinc; congruence.
  - intros _ _. destruct (main_similarity_cases str1 str2)
      as [(-> & -> & ->) | [(Hne & Hinc & ->) | (Hne & E1 & E2 & ->)]].
    + split; [auto | reflexivity].
    + split; [discriminate|].
      intros [[-> ->] | (E1 & E2 & _)]; [now destruct Hne | destruct Hinc; congruence].
    + rewrite jaccard_eq_1.
      * split.
        -- intros H. right. split; [assumption|]. split; [assumption|].
           intros c. specialize (H c). now rewrite !elem_of_new_Set in H.
        -- intros [[-> _] | (_ & _ & H)]; [now destruct Hne|].
           intros c. now rewrite !elem_of_new_Set.
      * destruct str1 as [|c s]; [now destruct Hne|]. intros Hnil.
        assert (Hc : c ∈ new_Set (chars (String c s))).
        { apply elem_of_new_Set. left. }
        rewrite Hnil in Hc. now apply elem_of_nil in Hc.
Qed.

Lemma gt_true a b : MainScript.gt a b = true ↔ (b < a)%Q.
Proof.
  unfold MainScript.gt. rewrite negb_true_iff. split.
  - intros H. apply Qnot_le_lt. intros Hle%Qle_bool_iff. congruence.
  - intros H. destruct (Qle_bool a b) eqn:E; [|reflexivity].
    apply Qle_bool_iff in E. exfalso. now apply (Qlt_not_le _ _ H).
Qed.

Lemma gt_false a b : MainScript.gt a b = false ↔ (a <= b)%Q.
Proof.
  unfold MainScript.gt. rewrite negb_false_iff. apply Qle_bool_iff.
Qed.

Lemma findFuzzyMatch_inv (database : list MainScript.Item) (word : string) :
  let sim := fun e =>
    MainScript.calculateSimilarity word (toLowerCase (MainScript.english e)) in
  match MainScript.findFuzzyMatch database word with
  | None => ∀ e, e ∈ database → (sim e <= 0.6)%Q
  | Some m =>
      MainScript.similarity m = sim (MainScript.entry m)
      ∧ (0.6 < MainScript.similarity m)%Q
      ∧ ∃ i, database !! i = Some (MainScript.entry m)
          ∧ (∀ e, e ∈ database → (sim e <= MainScript.similarity m)%Q)
          ∧ (∀ j e, j < i → database !! j = Some e →
                    (sim e < MainScript.similarity m)%Q)
  end.
Proof.
  intros sim. unfold MainScript.findFuzzyMatch.
  set (step := fun '(bestSimilarity, bestMatch) entry => _).
  assert (G : match fold_left step database (0%Q, None) with
              | (best, None) => best = 0%Q ∧ ∀ e, e ∈ database → (sim e <= 0.6)%Q
              | (best, Some m) =>
                  best = MainScript.similarity m
                  ∧ MainScript.similarity m = sim (MainScript.entry m)
                  ∧ (0.6 < MainScript.similarity m)%Q
                  ∧ ∃ i, database !! i = Some (MainScript.entry m)
                      ∧ (∀ e, e ∈ database → (sim e <= MainScript.similarity m)%Q)
                      ∧ (∀ j e, j < i → database !! j = Some e →
                                (sim e < MainScript.similarity m)%Q)
              end).
  { induction database as [|x l IH] using rev_ind.
    - simpl. split; [reflexivity|]. intros e He. now apply elem_of_nil in He.
    - rewrite fold_left_app. simpl.
      destruct (fold_left step l (0%Q, None)) as [best [m|]]; unfold step at 1;
        fold (sim x).
      + destruct IH as (-> & Hs & H06 & i & Hi & Hmax & Hfirst).
        destruct (MainScript.gt (sim x) (MainScript.similarity m)) eqn:G1; simpl.
        * apply gt_true in G1.
          assert (G2 : MainScript.gt (sim x) 0.6%Q = true).
          { apply gt_true. now apply Qlt_trans with (MainScript.similarity m). }
          rewrite G2. simpl. repeat split; [now apply Qlt_trans with (MainScript.similarity m)|].
          exists (length l). split; [now rewrite list_lookup_middle|]. split.
          -- intros e [He | ->%list_elem_of_singleton]%elem_of_app; [|apply Qle_refl].
             apply Qle_trans with (MainScript.similarity m); [now apply Hmax|].
             now apply Qlt_le_weak.
          -- intros j e Hj He. rewrite lookup_app_l in He by assumption.
             apply Qle_lt_trans with (MainScript.similarity m); [|assumption].
             apply Hmax. eapply list_elem_of_lookup_2; eauto.
        * apply gt_false in G1. repeat split; try assumption.
          exists i. split; [|split].
          -- rewrite lookup_app_l; [assumption|]. now apply lookup_lt_Some in Hi.
          -- intros e [He | ->%list_elem_of_singleton]%elem_of_app; auto.
          -- intros j e Hj He. apply (Hfirst j e Hj).
             rewrite lookup_app_l in He; [assumption|].
             apply lookup_lt_Some in Hi. lia.
      + destruct IH as [-> Hall].
        destruct (MainScript.gt (sim x) 0.6%Q) eqn:G2.
        * pose proof G2 as G2'. apply gt_true in G2'.
          assert (G1 : MainScript.gt (sim x) 0%Q = true).
          { apply gt_true. apply Qlt_trans with 0.6%Q; [reflexivity | assumption]. }
          rewrite G1. simpl. repeat split; [assumption|].
          exists (length l). split; [now rewrite list_lookup_middle|]. split.
          -- intros e [He | ->%list_elem_of_singleton]%elem_of_app; [|apply Qle_refl].
             apply Qle_trans with 0.6%Q; [now apply Hall | now apply Qlt_le_weak].
          -- intros j e Hj He. rewrite lookup_app_l in He by assumption.
             apply Qle_lt_trans with 0.6%Q; [|assumption].
             apply Hall. eapply list_elem_of_lookup_2; eauto.
        * rewrite andb_false_r. split; [reflexivity|].
          apply gt_false in G2.
          intros e [He | ->%list_elem_of_singleton]%elem_of_app; auto. }
  destruct (fold_left step database (0%Q, None)) as [best [m|]]; simpl; tauto.
Qed.

(** X16.  [findFuzzyMatch] returns nothing exactly when no item of the
    database has a similarity above 0.6 to the word.  Otherwise it returns a
    copy of an item with its similarity, which is above 0.6 and is the
    greatest of the database; among the items of that similarity it is the
    first, since a later item only replaces it with a strictly greater
    similarity. *)
Theorem findFuzzyMatch_best (database : list MainScript.Item) (word : string) :
  let sim := fun e =>
    MainScript.calculateSimilarity word (toLowerCase (MainScript.english e)) in
  (MainScript.findFuzzyMatch database word = None
   ↔ ∀ e, e ∈ database → (sim e <= 0.6)%Q)
  ∧ ∀ m, MainScript.findFuzzyMatch database word = Some m →
      MainScript.similarity m = sim (MainScript.entry m)
      ∧ (0.6 < MainScript.similarity m)%Q
      ∧ ∃ i, database !! i = Some (MainScript.entry m)
          ∧ (∀ e, e ∈ database → (sim e <= MainScript.similarity m)%Q)
          ∧ (∀ j e, j < i → database !! j = Some e →
                    (sim e < MainScript.similarity m)%Q).
Proof.
  intros sim. pose proof (findFuzzyMatch_inv database word) as F. cbn zeta in F.
  fold sim in F.
  destruct (MainScript.findFuzzyMatch database word) as [m|]; split.
  - split; [discriminate|]. intros Hall. exfalso.
    destruct F as (Hs & H06 & i & Hi & _).
    apply (Qlt_not_le _ _ H06). rewrite Hs. apply Hall.
    eapply list_elem_of_lookup_2; eauto.
  - now intros ? [= <-].
  - tauto.
  - discriminate.
Qed.

(** ** [findWordInDatabase] *)

Lemma getLemmas_head (word : string) :
  ∃ rest, MainScript.getLemmas word = word :: rest.
Proof.
  unfold MainScript.getLemmas. rewrite !fold_left_push, <- app_assoc.
  set (sfx := flat_map (MainScript.suffix_lemmas word) _).
  set (pfx := flat_map (MainScript.prefix_lemmas word) _).
  change ([word] ++ sfx ++ pfx) with (word :: (sfx ++ pfx)).
  destruct (dedupe_spec word (sfx ++ pfx)) as (rest & -> & _). eauto.
Qed.

Lemma find_word_Some database word i e :
  MainScript.find_word database word = Some (i, e) ↔
  database !! i = Some e
  ∧ toLowerCase (MainScript.english e) = word
  ∧ ∀ j y, database !! j = Some y → j < i →
           toLowerCase (MainScript.english y) ≠ word.
Proof. unfold MainScript.find_word. rewrite list_find_Some. reflexivity. Qed.

Lemma find_word_None database word :
  MainScript.find_word database word = None ↔
  ∀ e, e ∈ database → toLowerCase (MainScript.english e) ≠ word.
Proof.
  unfold MainScript.find_word. rewrite list_find_None, Forall_forall. reflexivity.
Qed.

Lemma find_word_insert database i e e' word :
  database !! i = Some e →
  MainScript.english e' = MainScript.english e →
  MainScript.find_word (<[i := e']> database) word
  = match MainScript.find_word database word with
    | Some (j, x) => Some (j, if decide (j = i) then e' else x)
    | None => None
    end.
Proof.
  intros Hi He.
  assert (Hlook : ∀ j y, <[i := e']> database !! j = Some y →
            ∃ x, database !! j = Some x
                 ∧ MainScript.english y = MainScript.english x
                 ∧ y = if decide (j = i) then e' else x).
  { intros j y Hj. destruct (decide (j = i)) as [->|Hne].
    - rewrite list_lookup_insert_eq in Hj by (now apply lookup_lt_Some in Hi).
      injection Hj as <-. eauto.
    - rewrite list_lookup_insert_ne in Hj by congruence. eauto. }
  destruct (MainScript.find_word database word) as [[j x]|] eqn:E.
  - apply find_word_Some in E as (Hj & Hx & Hfirst).
    apply find_word_Some. split; [|split].
    + destruct (decide (j = i)) as [->|Hne].
      * apply list_lookup_insert_eq. now apply lookup_lt_Some in Hi.
      * rewrite list_lookup_insert_ne by congruence. assumption.
    + destruct (decide (j = i)) as [->|Hne]; [|assumption].
      rewrite He. congruence.
    + intros k y Hk Hlt. destruct (Hlook k y Hk) as (x' & Hx' & Hy & _).
      rewrite Hy. now apply (Hfirst k x').
  - rewrite find_word_None in E. apply find_word_None.
    intros y Hy. apply list_elem_of_lookup in Hy as [j Hj].
    destruct (Hlook j y Hj) as (x & Hx & Hy & _). rewrite Hy.
    apply E. eapply list_elem_of_lookup_2; eauto.
Qed.

Lemma lemma_search_inv database lemmas lemma i e :
  first_some
    (fun lemma =>
       match MainScript.find_word database lemma with
       | Some (i, entry) => Some (lemma, i, entry)
       | None => None
       end) lemmas = Some (lemma, i, e) →
  lemma ∈ lemmas ∧ MainScript.find_word database lemma = Some (i, e).
Proof.
  intros H. apply first_some_elim in H as (a & Ha & H).
  destruct (MainScript.find_word database a) as [[j x]|] eqn:E; [|discriminate].
  injection H as -> -> ->. auto.
Qed.

Lemma lemma_search_insert database lemmas k e e' :
  database !! k = Some e →
  MainScript.english e' = MainScript.english e →
  first_some
    (fun lemma =>
       match MainScript.find_word (<[k := e']> database) lemma with
       | Some (i, entry) => Some (lemma, i, entry)
       | None => None
       end) lemmas
  = match first_some
            (fun lemma =>
               match MainScript.find_word database lemma with
               | Some (i, entry) => Some (lemma, i, entry)
               | None => None
               end) lemmas with
    | Some (lemma, j, x) => Some (lemma, j, if decide (j = k) then e' else x)
    | None => None
    end.
Proof.
  intros Hk He. induction lemmas as [|l lemmas IH]; simpl; [reflexivity|].
  rewrite (find_word_insert database k e e' l Hk He).
  destruct (MainScript.find_word database l) as [[j x]|]; [reflexivity | assumption].
Qed.

Lemma fmap_insert_same {A B} (f : A → B) (l : list A) i x y :
  l !! i = Some x → f y = f x → f <$> <[i := y]> l = f <$> l.
Proof.
  intros Hi Hf. rewrite list_fmap_insert, Hf. apply list_insert_id.
  now rewrite list_lookup_fmap, Hi.
Qed.

(** X17.  [findWordInDatabase] changes [appState.database] at most at the
    item it returns, and there only the field [analysis]: the database keeps
    its length and the other fields of every item.  A fuzzy match is a copy,
    and leaves the database as it was. *)
Theorem findWordInDatabase_frame database word r database' :
  MainScript.findWordInDatabase database word = (r, database') →
  length database' = length database
  ∧ MainScript.english <$> database' = MainScript.english <$> database
  ∧ MainScript.chinese <$> database' = MainScript.chinese <$> database
  ∧ MainScript.pinyin <$> database' = MainScript.pinyin <$> database
  ∧ MainScript.category <$> database' = MainScript.category <$> database
  ∧ MainScript.priority <$> database' = MainScript.priority <$> database
  ∧ match r with
    | Some (MainScript.InDatabase i item) =>
        database' !! i = Some item
        ∧ ∀ j, j ≠ i → database' !! j = database !! j
    | _ => database' = database
    end.
Proof.
  unfold MainScript.findWordInDatabase.
  assert (G : ∀ i e info,
    database !! i = Some e →
    let item := MainScript.with_analysis e info in
    length (<[i := item]> database) = length database
    ∧ MainScript.english <$> <[i := item]> database = MainScript.english <$> database
    ∧ MainScript.chinese <$> <[i := item]> database = MainScript.chinese <$> database
    ∧ MainScript.pinyin <$> <[i := item]> database = MainScript.pinyin <$> database
    ∧ MainScript.category <$> <[i := item]> database = MainScript.category <$> database
    ∧ MainScript.priority <$> <[i := item]> database = MainScript.priority <$> database
    ∧ <[i := item]> database !! i = Some item
    ∧ ∀ j, j ≠ i → <[i := item]> database !! j = database !! j).
  { intros i e info Hi item.
    split; [apply length_insert|].
    repeat (split; [now apply (fmap_insert_same _ database i e)|]).
    split.
    - apply list_lookup_insert_eq. now apply lookup_lt_Some in Hi.
    - intros j Hj. apply list_lookup_insert_ne. congruence. }
  destruct (MainScript.find_word database word) as [[i e]|] eqn:E.
  - intros [= <- <-]. apply find_word_Some in E as (Hi & _). now apply G.
  - destruct (first_some _ (MainScript.getLemmas word)) as [[[lemma i] e]|] eqn:L.
    + intros [= <- <-]. apply lemma_search_inv in L as (_ & (Hi & _)%find_word_Some).
      now apply G.
    + destruct (MainScript.findFuzzyMatch database word) as [[e s]|];
        intros [= <- <-]; repeat split.
Qed.

(** X18.  What [findWordInDatabase] returns.  Nothing, exactly when no item
    of the database is one of the lemmas of the word (the word itself is the
    first of them) and none has a similarity above 0.6.  An item of the
    database, when its name in lower case is one of the lemmas: with
    confidence 1.0 when it is the word itself, and as a match of type "lemma"
    with confidence 0.9 otherwise.  A copy, when no item is one of the
    lemmas: its confidence is the similarity, which is above 0.6, so the
    fallback 0.7 is never used. *)
Theorem findWordInDatabase_result (database : list MainScript.Item) (word : string) :
  let key := fun e => toLowerCase (MainScript.english e) in
  let sim := fun e => MainScript.calculateSimilarity word (key e) in
  match fst (MainScript.findWordInDatabase database word) with
  | None =>
      ∀ e, e ∈ database → (key e ∉ MainScript.getLemmas word) ∧ (sim e <= 0.6)%Q
  | Some (MainScript.InDatabase i item) =>
      ∃ old info,
        database !! i = Some old
        ∧ item = MainScript.with_analysis old info
        ∧ key old ∈ MainScript.getLemmas word
        ∧ (∀ j e, j < i → database !! j = Some e → key e ≠ key old)
        ∧ (key old = word → MainScript.confidence info = Some 1.0%Q)
        ∧ (key old ≠ word →
           (∀ e, e ∈ database → key e ≠ word)
           ∧ MainScript.matchType info = "lemma"
           ∧ MainScript.morphemes info = [key old]
           ∧ MainScript.confidence info = Some 0.9%Q)
  | Some (MainScript.Copy item s) =>
      ∃ old info,
        old ∈ database
        ∧ item = MainScript.with_analysis old info
        ∧ (∀ e, e ∈ database → key e ∉ MainScript.getLemmas word)
        ∧ s = sim old ∧ (0.6 < s)%Q
        ∧ (∀ e, e ∈ database → (sim e <= s)%Q)
        ∧ MainScript.matchType info = "fuzzy"
        ∧ MainScript.morphemes info = [MainScript.english old]
        ∧ MainScript.confidence info = Some s
  end.
Proof.
  intros key sim. unfold MainScript.findWordInDatabase.
  destruct (getLemmas_head word) as [rest Hhead].
  assert (Hword : word ∈ MainScript.getLemmas word) by (rewrite Hhead; left).
  destruct (MainScript.find_word database word) as [[i e]|] eqn:E.
  - cbn [fst]. apply find_word_Some in E as (Hi & He & Hfirst).
    eexists e, _. split; [assumption|]. split; [reflexivity|].
    fold (key e) in He. rewrite He.
    split; [assumption|]. split; [exact (fun j y Hj Hy => Hfirst j y Hy Hj)|].
    split; [reflexivity|]. intros Hne. now destruct Hne.
  - pose proof E as Hnone. rewrite find_word_None in Hnone.
    destruct (first_some _ (MainScript.getLemmas word)) as [[[lemma i] e]|] eqn:L.
    + cbn [fst]. apply lemma_search_inv in L as (Hin & (Hi & He & Hfirst)%find_word_Some).
      eexists e, _. split; [assumption|]. split; [reflexivity|].
      fold (key e) in He. rewrite He.
      split; [assumption|]. split; [exact (fun j y Hj Hy => Hfirst j y Hy Hj)|].
      split.
      * intros ->. exfalso. apply (Hnone e); [|assumption].
        eapply list_elem_of_lookup_2; eauto.
      * intros _. cbn. auto.
    + assert (Hno : ∀ e, e ∈ database → key e ∉ MainScript.getLemmas word).
      { intros e He Hin. rewrite first_some_None in L.
        specialize (L _ Hin). apply list_elem_of_lookup in He as [j Hj].
        destruct (MainScript.find_word database (key e)) as [[k x]|] eqn:F;
          [discriminate|].
        rewrite find_word_None in F. apply (F e); [|reflexivity].
        eapply list_elem_of_lookup_2; eauto. }
      pose proof (findFuzzyMatch_inv database word) as F. cbn zeta in F.
      destruct (MainScript.findFuzzyMatch database word) as [[e s]|]; cbn [fst].
      * cbn in F. destruct F as (Hs & H06 & i & Hi & Hmax & _).
        eexists e, _. split; [eapply list_elem_of_lookup_2; eauto|].
        split; [reflexivity|]. split; [assumption|].
        split; [assumption|]. split; [assumption|]. split; [assumption|].
        cbn. split; [reflexivity|]. split; [reflexivity|].
        destruct (Qeq_bool s 0) eqn:Z; [|reflexivity].
        apply Qeq_bool_iff in Z. rewrite Z in H06. discriminate.
      * intros e He. split; [now apply Hno | now apply F].
Qed.

(** X19.  Looking the same word up again returns the same result and leaves
    the database as the first call left it. *)
Theorem findWordInDatabase_again database word r database' :
  MainScript.findWordInDatabase database word = (r, database') →
  MainScript.findWordInDatabase database' word = (r, database').
Proof.
  unfold MainScript.findWordInDatabase at 1.
  destruct (MainScript.find_word database word) as [[i e]|] eqn:E.
  - intros [= <- <-]. pose proof E as (Hi & _)%find_word_Some.
    set (item := MainScript.with_analysis e _).
    unfold MainScript.findWordInDatabase.
    rewrite (find_word_insert database i e item word Hi eq_refl), E.
    rewrite decide_True by reflexivity.
    rewrite list_insert_insert_eq.
    assert (Hitem : MainScript.with_analysis item
              (MainScript.with_confidence
                 match MainScript.analysis item with
                 | Some info => info
                 | None => {| MainScript.structure := "Direct match";
                              MainScript.morphemes := [word];
                              MainScript.meaning := "Exact correspondence";
                              MainScript.matchType := "direct";
                              MainScript.confidence := None |}
                 end 1.0%Q) = item) by reflexivity.
    rewrite Hitem. reflexivity.
  - destruct (first_some _ (MainScript.getLemmas word)) as [[[lemma i] e]|] eqn:L.
    + intros [= <- <-].
      pose proof L as (_ & (Hi & _)%find_word_Some)%lemma_search_inv.
      set (item := MainScript.with_analysis e _).
      unfold MainScript.findWordInDatabase.
      rewrite (find_word_insert database i e item word Hi eq_refl), E.
      rewrite (lemma_search_insert database _ i e item Hi eq_refl), L.
      rewrite decide_True by reflexivity.
      rewrite list_insert_insert_eq. reflexivity.
    + destruct (MainScript.findFuzzyMatch database word) as [[e s]|] eqn:F;
        intros [= <- <-]; unfold MainScript.findWordInDatabase;
        now rewrite E, L, F.
Qed.

(** X20.  An item found through one of its inflected forms keeps the
    analysis of that lookup: when the item itself is looked up next, the
    exact match is returned with confidence 1.0 and still as a match of type
    "lemma". *)
Theorem lemma_match_then_exact database word i item database' :
  MainScript.findWordInDatabase database word
    = (Some (MainScript.InDatabase i item), database') →
  toLowerCase (MainScript.english item) ≠ word →
  ∃ item' info database'',
    MainScript.findWordInDatabase database' (toLowerCase (MainScript.english item))
      = (Some (MainScript.InDatabase i item'), database'')
    ∧ MainScript.analysis item' = Some info
    ∧ MainScript.matchType info = "lemma"
    ∧ MainScript.confidence info = Some 1.0%Q.
Proof.
  unfold MainScript.findWordInDatabase at 1.
  destruct (MainScript.find_word database word) as [[k e]|] eqn:E.
  - intros [= <- <- <-] Hne. apply find_word_Some in E as (_ & He & _).
    now destruct Hne.
  - destruct (first_some _ (MainScript.getLemmas word)) as [[[lemma k] e]|] eqn:L.
    + intros [= <- <- <-] _.
      apply lemma_search_inv in L as (_ & F).
      pose proof F as (Hi & He & _)%find_word_Some.
      set (item := MainScript.with_analysis e _).
      change (MainScript.english item) with (MainScript.english e). rewrite He.
      unfold MainScript.findWordInDatabase.
      rewrite (find_word_insert database k e item lemma Hi eq_refl), F.
      rewrite decide_True by reflexivity.
      eexists _, _, _. split; [reflexivity|]. cbn. auto.
    + destruct (MainScript.findFuzzyMatch database word) as [[e s]|]; discriminate.
Qed.

(** ** [detectClassicalRoots] *)

Lemma first_offset_Some s t n :
  MainScript.first_offset s t = Some n ↔
  startsWith (str_drop n s) t = true
  ∧ n ≤ String.length s
  ∧ ∀ k, k < n → startsWith (str_drop k s) t = false.
Proof.
  revert n; induction s as [|c s IH]; intros n; simpl.
  - destruct (startsWith EmptyString t) eqn:E.
    + split.
      * intros [= <-]. simpl. split; [assumption|]. split; [lia|]. intros k Hk; lia.
      * intros (_ & Hn & _). f_equal. lia.
    + split; [discriminate|]. intros (H & Hn & _).
      replace n with 0 in H by lia. simpl in H. congruence.
  - destruct (startsWith (String c s) t) eqn:E.
    + split.
      * intros [= <-]. simpl. split; [assumption|]. split; [lia|]. intros k Hk; lia.
      * intros (_ & _ & Hfirst). destruct n as [|n]; [reflexivity|].
        specialize (Hfirst 0 ltac:(lia)). simpl in Hfirst. congruence.
    + rewrite fmap_Some. split.
      * intros (m & F & ->). apply IH in F as (H1 & H2 & H3). simpl.
        split; [assumption|]. split; [lia|].
        intros [|k] Hk; simpl; [assumption | apply H3; lia].
      * intros (H1 & H2 & H3). destruct n as [|n]; [simpl in H1; congruence|].
        exists n. split; [|reflexivity]. apply IH. simpl in H1.
        split; [assumption|]. split; [lia|]. intros k Hk. apply (H3 (S k)). lia.
Qed.

Lemma includes_first_offset s t :
  includes s t = true ↔ ∃ n, MainScript.first_offset s t = Some n.
Proof.
  induction s as [|c s IH]; simpl.
  - destruct (startsWith EmptyString t); simpl; split; eauto;
      try discriminate; now intros [? ?].
  - destruct (startsWith (String c s) t); simpl; [split; eauto|].
    rewrite IH. destruct (MainScript.first_offset s t); simpl; split; eauto;
      intros [? ?]; discriminate.
Qed.

Lemma insert_root_perm r l : MainScript.insert_root r l ≡ₚ r :: l.
Proof.
  induction l as [|r' l IH]; simpl; [reflexivity|].
  destruct (MainScript.position r <=? MainScript.position r')%Z; [reflexivity|].
  rewrite IH. apply Permutation_swap.
Qed.

Lemma sort_roots_perm l : MainScript.sort_roots l ≡ₚ l.
Proof.
  induction l as [|r l IH]; simpl; [reflexivity|].
  unfold MainScript.sort_roots in *. simpl. now rewrite insert_root_perm, IH.
Qed.

Lemma insert_root_sorted r l :
  StronglySorted (fun a b => (MainScript.position a <= MainScript.position b)%Z) l →
  StronglySorted (fun a b => (MainScript.position a <= MainScript.position b)%Z)
    (MainScript.insert_root r l).
Proof.
  induction 1 as [|r' l Hs IH Hall]; simpl.
  - repeat constructor.
  - destruct (MainScript.position r <=? MainScript.position r')%Z eqn:E.
    + apply Z.leb_le in E. constructor; [now constructor|].
      constructor; [assumption|].
      eapply Forall_impl; [exact Hall|]. simpl. intros; lia.
    + apply Z.leb_gt in E. constructor; [assumption|].
      rewrite insert_root_perm. constructor; [lia | assumption].
Qed.

Lemma sort_roots_sorted l :
  StronglySorted (fun a b => (MainScript.position a <= MainScript.position b)%Z)
    (MainScript.sort_roots l).
Proof.
  induction l as [|r l IH]; [constructor|].
  unfold MainScript.sort_roots in *. simpl. now apply insert_root_sorted.
Qed.

Lemma found_roots_elem word table acc r :
  r ∈ fold_left
        (fun foundRoots '(root, meaning) =>
           if includes word root
           then foundRoots ++ [ {| MainScript.root := root;
                                   MainScript.root_meaning := meaning;
                                   MainScript.position := MainScript.indexOf word root |} ]
           else foundRoots)
        table acc
  ↔ r ∈ acc
    ∨ ((MainScript.root r, MainScript.root_meaning r) ∈ table
       ∧ includes word (MainScript.root r) = true
       ∧ MainScript.position r = MainScript.indexOf word (MainScript.root r)).
Proof.
  revert acc; induction table as [|[root meaning] table IH]; intros acc; simpl.
  - rewrite elem_of_nil. tauto.
  - rewrite IH. destruct (includes word root) eqn:E.
    + rewrite elem_of_app, list_elem_of_singleton, elem_of_cons. split.
      * intros [[H| ->]|(H1 & H2 & H3)]; simpl; auto.
      * intros [H|([H1|H1] & H2 & H3)]; auto.
        left. right. destruct r as [r0 m0 p0]; simpl in *. congruence.
    + rewrite elem_of_cons. split.
      * intros [H|(H1 & H2 & H3)]; auto.
      * intros [H|([H1|H1] & H2 & H3)]; auto.
        injection H1 as Hr Hm. rewrite Hr in H2. congruence.
Qed.

Lemma found_roots_list word table acc :
  fold_left
    (fun foundRoots '(root, meaning) =>
       if includes word root
       then foundRoots ++ [ {| MainScript.root := root;
                               MainScript.root_meaning := meaning;
                               MainScript.position := MainScript.indexOf word root |} ]
       else foundRoots)
    table acc
  = acc ++ ((fun p => {| MainScript.root := p.1; MainScript.root_meaning := p.2;
                         MainScript.position := MainScript.indexOf word p.1 |})
            <$> filter (fun p => includes word p.1 = true) table).
Proof.
  revert acc; induction table as [|[root meaning] table IH]; intros acc; simpl.
  - now rewrite app_nil_r.
  - rewrite IH, filter_cons. simpl.
    destruct (includes word root) eqn:E.
    + rewrite decide_True by reflexivity. now rewrite <- app_assoc.
    + rewrite decide_False by discriminate. reflexivity.
Qed.

Lemma NoDup_fmap_filter {A B} (f : A → B) (P : A → Prop)
    `{!∀ x, Decision (P x)} (l : list A) :
  NoDup (f <$> l) → NoDup (f <$> filter P l).
Proof.
  induction l as [|x l IH]; [auto|]. rewrite fmap_cons, NoDup_cons.
  intros [Hx Hl]. rewrite filter_cons. destruct (decide (P x)); [|auto].
  rewrite fmap_cons. apply NoDup_cons. split; [|auto].
  intros (y & Hy & Hin)%list_elem_of_fmap. apply Hx.
  apply list_elem_of_fmap. exists y. split; [assumption|].
  now apply list_elem_of_filter in Hin as [_ ?].
Qed.

(** X21.  For a word of code units below 128, [detectClassicalRoots] lists
    the roots of its table that the word includes, each once with its
    meaning and with the offset of its first occurrence in the word, in the
    order of these offsets: the result is a rearrangement of the entries of
    the table whose root the word includes, no root comes twice, and the
    positions never decrease. *)
Theorem detectClassicalRoots_spec (word : string) :
  is_ascii word = true →
  let found := MainScript.detectClassicalRoots word in
  StronglySorted (fun a b => (MainScript.position a <= MainScript.position b)%Z) found
  ∧ found ≡ₚ
      ((fun p => {| MainScript.root := p.1; MainScript.root_meaning := p.2;
                    MainScript.position := MainScript.indexOf word p.1 |})
       <$> filter (fun p => includes word p.1 = true) MainScript.classicalRoots)
  ∧ NoDup (MainScript.root <$> found)
  ∧ (∀ r, r ∈ found ↔
          (MainScript.root r, MainScript.root_meaning r) ∈ MainScript.classicalRoots
          ∧ includes word (MainScript.root r) = true
          ∧ MainScript.position r = MainScript.indexOf word (MainScript.root r))
  ∧ (∀ r, r ∈ found →
          ∃ n, MainScript.position r = Z.of_nat n
               ∧ startsWith (str_drop n word) (MainScript.root r) = true
               ∧ ∀ k, k < n → startsWith (str_drop k word) (MainScript.root r) = false).
Proof.
  intros _ found.
  assert (Hperm : found ≡ₚ
      ((fun p => {| MainScript.root := p.1; MainScript.root_meaning := p.2;
                    MainScript.position := MainScript.indexOf word p.1 |})
       <$> filter (fun p => includes word p.1 = true) MainScript.classicalRoots)).
  { subst found. unfold MainScript.detectClassicalRoots.
    now rewrite sort_roots_perm, found_roots_list. }
  assert (Hel : ∀ r, r ∈ found ↔
          (MainScript.root r, MainScript.root_meaning r) ∈ MainScript.classicalRoots
          ∧ includes word (MainScript.root r) = true
          ∧ MainScript.position r = MainScript.indexOf word (MainScript.root r)).
  { intros r. subst found. unfold MainScript.detectClassicalRoots.
    rewrite sort_roots_perm, found_roots_elem, elem_of_nil. tauto. }
  split; [apply sort_roots_sorted|]. split; [exact Hperm|]. split.
  { rewrite Hperm, <- list_fmap_compose.
    apply (NoDup_fmap_filter (fun p : string * string => p.1)).
    unfold MainScript.classicalRoots. simpl.
    repeat (apply NoDup_cons; split;
            [rewrite ?elem_of_cons, elem_of_nil; intuition discriminate|]).
    apply NoDup_nil_2. }
  split; [exact Hel|].
  intros r Hr. apply Hel in Hr as (_ & Hinc & Hpos).
  apply includes_first_offset in Hinc as [n Hn].
  exists n. unfold MainScript.indexOf in Hpos. rewrite Hn in Hpos.
  split; [assumption|]. apply first_offset_Some in Hn as (H1 & _ & H3). auto.
Qed.

(** ** [segmentCompoundWord] *)

Lemma concat_cons (x : string) (l : list string) :
  String.concat "" (x :: l) = x +:+ String.concat "" l.
Proof. destruct l; simpl; [now rewrite append_empty_r | reflexivity]. Qed.

Lemma concat_snoc (l : list string) (x : string) :
  String.concat "" (l ++ [x]) = String.concat "" l +:+ x.
Proof.
  induction l as [|y l IH].
  - simpl. reflexivity.
  - change ((y :: l) ++ [x]) with (y :: (l ++ [x])).
    now rewrite !concat_cons, IH, append_assoc.
Qed.

Lemma main_stem_suffix_inv alts s k g1 g2 :
  MainScript.match_stem_suffix alts s k = Some (g1, g2) →
  g1 +:+ g2 = s ∧ g2 ∈ alts.
Proof.
  induction k as [|k IH]; simpl; [discriminate|].
  destruct (existsb _ alts) eqn:E; [|exact IH].
  intros [= <- <-]. split; [apply (str_take_drop (S k) s)|].
  apply existsb_exists in E as (alt & Hin & ->%String.eqb_eq).
  now apply list_elem_of_In.
Qed.

Lemma main_prefix_stem_inv alts s g1 g2 :
  MainScript.match_prefix_stem alts s = Some (g1, g2) →
  g1 +:+ g2 = s ∧ g1 ∈ alts.
Proof.
  intros (alt & Hin & H)%first_some_elim. simpl in H.
  destruct (startsWith s alt) eqn:E; [|discriminate].
  destruct (_ && _); [|discriminate].
  injection H as <- <-. split; [apply str_take_drop|].
  unfold startsWith in E. apply andb_prop in E as [_ ->%String.eqb_eq].
  assumption.
Qed.

Lemma main_patterns_long pat alt :
  pat ∈ MainScript.patterns →
  alt ∈ match pat with StemSuffix alts | PrefixStem alts => alts end →
  2 ≤ String.length alt.
Proof.
  unfold MainScript.patterns. intros Hp Ha.
  repeat (apply elem_of_cons in Hp as [->|Hp];
          [repeat (apply elem_of_cons in Ha as [->|Ha]; [simpl; lia|]);
           now apply elem_of_nil in Ha|]).
  now apply elem_of_nil in Hp.
Qed.

Lemma split_at_vowels_spec rest : ∀ segments currentSegment segments' currentSegment',
  MainScript.split_at_vowels rest segments currentSegment
    = (segments', currentSegment') →
  ∃ new,
    segments' = segments ++ new
    ∧ Forall (fun s => 3 ≤ String.length s) new
    ∧ String.concat "" new +:+ currentSegment' = currentSegment +:+ rest
    ∧ (new = [] ∨ 3 ≤ String.length currentSegment').
Proof.
  induction rest as [|c remaining IH]; intros segments cur segments' cur'.
  - simpl. intros [= <- <-]. exists []. rewrite app_nil_r, append_empty_r.
    repeat split; auto.
  - cbn [MainScript.split_at_vowels].
    assert (Hcur : ∀ t, (cur +:+ String c "") +:+ t = cur +:+ String c t).
    { intros t. now rewrite append_assoc. }
    destruct remaining as [|next remaining'] eqn:R.
    + simpl. intros [= <- <-]. exists []. rewrite app_nil_r.
      repeat split; auto.
    + rewrite <- R in *.
      destruct (_ && _) eqn:C.
      * intros H. apply IH in H as (new & -> & Hall & Hcat & Hlast).
        apply andb_prop in C as [[[_ _]%andb_prop Hlen%Nat.ltb_lt]%andb_prop
                                 Hrem%Nat.ltb_lt].
        exists ((cur +:+ String c "") :: new). rewrite <- app_assoc.
        split; [reflexivity|]. split; [constructor; [lia | assumption]|].
        split.
        -- rewrite concat_cons, append_assoc, Hcat.
           change ("" +:+ remaining) with remaining. apply Hcur.
        -- right. destruct Hlast as [-> | ?]; [|assumption].
           change (cur' = remaining) in Hcat. rewrite Hcat. lia.
      * intros H. apply IH in H as (new & -> & Hall & Hcat & Hlast).
        exists new. rewrite Hcat, Hcur. auto.
Qed.

(** X22.  [segmentCompoundWord] never returns an empty list.  It returns
    the word alone, or segments of at least two characters; put together the
    segments give the word again, except for one character at the start or
    at the end that is dropped when a pattern leaves a group of a single
    character. *)
Theorem segmentCompoundWord_spec (word : string) :
  let segments := MainScript.segmentCompoundWord word in
  segments ≠ []
  ∧ (segments = [word] ∨ ∀ s, s ∈ segments → 2 ≤ String.length s)
  ∧ ∃ before after,
      word = before +:+ String.concat "" segments +:+ after
      ∧ String.length before ≤ 1 ∧ String.length after ≤ 1
      ∧ (before = "" ∨ after = "").
Proof.
  intros segments. subst segments. unfold MainScript.segmentCompoundWord.
  destruct (first_some _ MainScript.patterns) as [[g1 g2]|] eqn:P.
  - apply first_some_elim in P as (pat & Hpat & Hm).
    assert (Hsplit : g1 +:+ g2 = word
                     ∧ (2 ≤ String.length g1 ∨ 2 ≤ String.length g2)).
    { destruct pat as [alts|alts]; simpl in Hm.
      - apply main_stem_suffix_inv in Hm as [? Hin]. split; [assumption|].
        right. now apply (main_patterns_long _ _ Hpat).
      - apply main_prefix_stem_inv in Hm as [? Hin]. split; [assumption|].
        left. now apply (main_patterns_long _ _ Hpat). }
    destruct Hsplit as [<- Hlong].
    rewrite filter_cons, filter_cons, filter_nil.
    destruct (decide (1 < String.length g1)) as [H1|H1];
      destruct (decide (1 < String.length g2)) as [H2|H2]; try lia.
    + split; [discriminate|]. split.
      * right. intros s [->|[->|[]%elem_of_nil]%elem_of_cons]%elem_of_cons; lia.
      * exists "", "". rewrite !concat_cons. simpl.
        rewrite !append_empty_r. repeat split; auto.
    + split; [discriminate|]. split.
      * right. intros s [->|[]%elem_of_nil]%elem_of_cons; lia.
      * exists "", g2. simpl. repeat split; auto; lia.
    + split; [discriminate|]. split.
      * right. intros s [->|[]%elem_of_nil]%elem_of_cons; lia.
      * exists g1, "". simpl. rewrite append_empty_r. repeat split; auto; lia.
  - destruct (MainScript.split_at_vowels word [] "") as [segments cur] eqn:S.
    apply split_at_vowels_spec in S as (new & -> & Hall & Hcat & Hlast).
    simpl in Hcat. simpl app.
    destruct (1 <? length _)%nat eqn:L.
    + apply Nat.ltb_lt in L.
      destruct (0 <? String.length cur)%nat eqn:C.
      * destruct Hlast as [-> | Hcur]; [simpl in L; lia|].
        split; [intros E; now apply app_eq_nil in E as [_ ?]|]. split.
        -- right. intros s [Hs | ->%list_elem_of_singleton]%elem_of_app; [|lia].
           rewrite Forall_forall in Hall. specialize (Hall s Hs). lia.
        -- exists "", "". rewrite concat_snoc, Hcat. simpl.
           rewrite append_empty_r. repeat split; auto.
      * apply Nat.ltb_ge in C. destruct cur; [|simpl in C; lia].
        rewrite append_empty_r in Hcat. split; [intros ->; simpl in L; lia|].
        split.
        -- right. intros s Hs.
           rewrite Forall_forall in Hall. specialize (Hall s Hs). lia.
        -- exists "", "". rewrite Hcat. simpl.
           rewrite append_empty_r. repeat split; auto.
    + split; [discriminate|]. split; [now left|].
      exists "", "". simpl. rewrite append_empty_r. repeat split; auto.
Qed.

(** ** The search history *)

(** X23.  The search history holds no word twice and at most 50 words, and
    [analyzeWord] keeps it so, for every input of code units below 128: an
    input that is empty once trimmed and a word of the history leave it as
    it is, a new word comes first and the oldest word leaves a full
    history. *)
Theorem analyzeWord_history (searchHistory : list string) (value : string) :
  is_ascii value = true →
  NoDup searchHistory →
  length searchHistory ≤ MainScript.maxHistory →
  let word := toLowerCase (trim value) in
  let searchHistory' := MainScript.analyzeWord searchHistory value in
  NoDup searchHistory'
  ∧ length searchHistory' ≤ MainScript.maxHistory
  ∧ (word = "" ∨ word ∈ searchHistory → searchHistory' = searchHistory)
  ∧ (word ≠ "" → word ∉ searchHistory →
     searchHistory' = word :: take (MainScript.maxHistory - 1) searchHistory).
Proof.
  intros _ Hnd Hlen word searchHistory'. subst searchHistory'.
  unfold MainScript.analyzeWord. fold word.
  assert (Hempty : String.length word = 0 ↔ word = "").
  { destruct word; simpl; split; congruence. }
  destruct (Nat.eqb_spec (String.length word) 0) as [E|E].
  { apply Hempty in E. repeat split; auto. intros; contradiction. }
  assert (Hne : word ≠ "") by (intros H; apply Hempty in H; contradiction).
  destruct (bool_decide_reflect (word ∈ searchHistory)) as [Hin|Hin].
  { repeat split; auto. intros; contradiction. }
  assert (Hnew : (if (MainScript.maxHistory <? length (word :: searchHistory))%nat
                  then removelast (word :: searchHistory)
                  else word :: searchHistory)
                 = word :: take (MainScript.maxHistory - 1) searchHistory).
  { unfold MainScript.maxHistory in *. cbn [length].
    destruct (50 <? S (length searchHistory))%nat eqn:L.
    - apply Nat.ltb_lt in L. rewrite removelast_firstn_len. cbn [length Nat.pred].
      replace (length searchHistory) with (S (50 - 1)) by lia. reflexivity.
    - apply Nat.ltb_ge in L. now rewrite take_ge by lia. }
  rewrite Hnew. split; [|split; [|split]].
  - apply NoDup_cons. split.
    + intros H. apply Hin.
      rewrite <- (take_drop (MainScript.maxHistory - 1) searchHistory).
      apply elem_of_app. now left.
    + rewrite <- (take_drop (MainScript.maxHistory - 1) searchHistory) in Hnd.
      now apply NoDup_app in Hnd as [? _].
  - cbn [length]. rewrite length_take. unfold MainScript.maxHistory. lia.
  - intros [?|?]; contradiction.
  - reflexivity.
Qed.

(** ** The pages of the table *)

Lemma pageItems_take {A} (filteredDatabase : list A) (k : nat) :
  MainScript.pageItems filteredDatabase (Z.of_nat (S k))
  = take MainScript.itemsPerPage (drop (MainScript.itemsPerPage * k) filteredDatabase).
Proof.
  unfold MainScript.pageItems, MainScript.array_slice, MainScript.itemsPerPage.
  replace ((Z.of_nat (S k) - 1) * Z.of_nat 10)%Z with (Z.of_nat (10 * k)) by lia.
  replace (Z.of_nat (10 * k) + Z.of_nat 10)%Z with (Z.of_nat (10 * k + 10)) by lia.
  rewrite !clamp_index_nat.
  destruct (le_lt_dec (length filteredDatabase) (10 * k)) as [Hle|Hlt].
  - rewrite !drop_ge by lia. now rewrite !take_nil.
  - rewrite (Nat.min_l (10 * k)) by lia.
    destruct (le_lt_dec (10 * k + 10) (length filteredDatabase)) as [Hle'|Hlt'].
    + rewrite Nat.min_l by lia. f_equal. lia.
    + rewrite Nat.min_r by lia. rewrite !take_ge; [reflexivity | |];
        rewrite length_drop; lia.
Qed.

Lemma pages_concat {A} (l : list A) (n m : nat) :
  concat (map (fun k => take n (drop (n * k) l)) (seq 0 m)) = take (n * m) l.
Proof.
  induction m as [|m IH].
  - now rewrite Nat.mul_0_r.
  - rewrite seq_S, map_app, concat_app, IH. simpl. rewrite app_nil_r.
    replace (n * S m) with (n * m + n) by lia.
    now rewrite take_take_drop.
Qed.

Lemma totalPages_bounds {A} (filteredDatabase : list A) :
  let pages := (length filteredDatabase + (MainScript.itemsPerPage - 1))
               / MainScript.itemsPerPage in
  MainScript.totalPages filteredDatabase = Z.of_nat pages
  ∧ length filteredDatabase ≤ MainScript.itemsPerPage * pages
  ∧ MainScript.itemsPerPage * pages < length filteredDatabase + MainScript.itemsPerPage.
Proof.
  unfold MainScript.totalPages, MainScript.itemsPerPage. cbn zeta.
  split; [reflexivity|]. change (10 - 1) with 9.
  pose proof (Nat.div_mod_eq (length filteredDatabase + 9) 10).
  pose proof (Nat.mod_upper_bound (length filteredDatabase + 9) 10). lia.
Qed.

(** X24.  The pages 1 to [totalPages] of [renderDatabaseTable] show every
    item of the filtered database once and in order; each of these pages
    holds between 1 and 10 items. *)
Theorem pages_cover_database {A} (filteredDatabase : list A) :
  concat (map (fun page => MainScript.pageItems filteredDatabase (Z.of_nat page))
              (seq 1 (Z.to_nat (MainScript.totalPages filteredDatabase))))
  = filteredDatabase
  ∧ ∀ page, (1 <= page <= MainScript.totalPages filteredDatabase)%Z →
      1 ≤ length (MainScript.pageItems filteredDatabase page)
        ≤ MainScript.itemsPerPage.
Proof.
  destruct (totalPages_bounds filteredDatabase) as (Ht & Hlo & Hhi).
  cbn zeta in *. set (pages := _ / _) in *. rewrite Ht. split.
  - rewrite Nat2Z.id, <- seq_shift, map_map.
    rewrite (map_ext _ (fun k => take MainScript.itemsPerPage
                                   (drop (MainScript.itemsPerPage * k) filteredDatabase)))
      by (intros k; apply pageItems_take).
    rewrite pages_concat. now apply take_ge.
  - intros page Hp.
    destruct (Z.to_nat page) as [|k] eqn:K; [lia|].
    replace page with (Z.of_nat (S k)) by lia.
    rewrite pageItems_take, length_take, length_drop.
    unfold MainScript.itemsPerPage in *. nia.
Qed.

(** X25.  [changePage] keeps a page that has items: from a page between 1
    and [totalPages] it moves to the page asked for when that is one of
    these pages too, and stays where it is otherwise. *)
Theorem changePage_valid {A} (filteredDatabase : list A) (currentPage page : Z) :
  (1 <= currentPage <= MainScript.totalPages filteredDatabase)%Z →
  let currentPage' := MainScript.changePage filteredDatabase currentPage page in
  (1 <= currentPage' <= MainScript.totalPages filteredDatabase)%Z
  ∧ (currentPage' = page
     ↔ (1 <= page <= MainScript.totalPages filteredDatabase)%Z
       ∨ page = currentPage)
  ∧ (currentPage' = page ∨ currentPage' = currentPage)
  ∧ MainScript.pageItems filteredDatabase currentPage' ≠ [].
Proof.
  intros Hc currentPage'. subst currentPage'. unfold MainScript.changePage.
  assert (Hitems : ∀ p, (1 <= p <= MainScript.totalPages filteredDatabase)%Z →
                        MainScript.pageItems filteredDatabase p ≠ []).
  { intros p Hp E.
    destruct (totalPages_bounds filteredDatabase) as (Ht & Hlo & Hhi).
    cbn zeta in *. set (pages := _ / _) in *. rewrite Ht in Hp.
    destruct (Z.to_nat p) as [|k] eqn:K; [lia|].
    replace p with (Z.of_nat (S k)) in E by lia.
    apply (f_equal length) in E.
    rewrite pageItems_take, length_take, length_drop in E.
    unfold MainScript.itemsPerPage in *. cbn [length] in E. nia. }
  destruct (page <? 1)%Z eqn:E1; simpl.
  - apply Z.ltb_lt in E1. repeat split; auto; try lia; intros [?| ->]; lia.
  - apply Z.ltb_ge in E1.
    destruct (MainScript.totalPages filteredDatabase <? page)%Z eqn:E2.
    + apply Z.ltb_lt in E2. repeat split; auto; try lia; intros [?| ->]; lia.
    + apply Z.ltb_ge in E2. repeat split; auto; lia.
Qed.

(** * When [analyze] throws *)



(** * The input handler *)

Lemma length_toLowerCase s : String.length (toLowerCase s) = String.length s.
Proof. induction s as [|c s IH]; simpl; congruence. Qed.

(** X27.  For an input of code units below 128, [analyzeInput] never hands
    an empty word to [analyze]: it returns without a call exactly when the
    input field holds nothing but white space; otherwise it calls [analyze]
    on the trimmed input, whose normalization is that of the input itself
    and is not empty, so that no analysis enters the cache under the empty
    key. *)
Theorem analyzeInput_never_empty db this now value :
  is_ascii value = true →
  (fst (analyzeInput db this now value) = None ↔ trim value = "")
  ∧ (trim value = "" → analyzeInput db this now value = (None, this))
  ∧ (trim value ≠ "" →
     analyzeInput db this now value
       = (Some (fst (analyze db this now (trim value))),
          snd (analyze db this now (trim value)))
     ∧ normalize (trim value) = normalize value
     ∧ normalize value ≠ ""
     ∧ (cache this !! "" = None →
        cache (snd (analyzeInput db this now value)) !! "" = None)).
Proof.
  intros _.
  assert (Hlen : String.length (trim value) = 0 ↔ trim value = "").
  { destruct (trim value); simpl; split; congruence. }
  assert (Hnorm : normalize (trim value) = normalize value).
  { unfold normalize. now rewrite !trim_toLowerCase, trim_idem. }
  assert (Hne : trim value ≠ "" → normalize value ≠ "").
  { intros Hv Hn. apply Hv, Hlen.
    unfold normalize in Hn. rewrite trim_toLowerCase in Hn.
    apply (f_equal String.length) in Hn. now rewrite length_toLowerCase in Hn. }
  unfold analyzeInput.
  destruct (Nat.eqb_spec (String.length (trim value)) 0) as [E|E].
  - apply Hlen in E. repeat split; auto; contradiction.
  - assert (Hv : trim value ≠ "") by (intros H; now apply Hlen in H).
    destruct (analyze db this now (trim value)) as [r this'] eqn:A. simpl.
    split; [split; [discriminate | contradiction]|].
    split; [contradiction|]. intros _.
    split; [reflexivity|]. split; [assumption|]. split; [auto|].
    intros Hcache. unfold analyze in A. rewrite Hnorm in A.
    destruct (cache this !! normalize value); [now injection A as _ <-|].
    destruct (cascade db now (trim value)); injection A as _ <-; [|assumption].
    simpl. rewrite lookup_insert_ne; [assumption|]. now apply Hne.
Qed.

(** * Runs of the further properties *)

Section FurtherRuns.

Import Samples MainSamples.

Ltac run := vm_compute; reflexivity.

(** No word of a listed database has the key of a bucket. *)
Ltac no_index_keys :=
  let w := fresh "w" in
  let Hw := fresh "Hw" in
  let x := fresh "x" in
  let H := fresh "H" in
  intros w Hw [x [H|H]]; revert H; revert Hw;
  rewrite ?elem_of_cons, elem_of_nil;
  intuition (subst; cbv in *; discriminate).

Lemma confidence_by_match_type_witness :
  ∃ a this',
    analyze (root_of [cat]) constructor 0 "Cats" = (Return a, this')
    ∧ match matchType a with
      | direct => confidence a = 1.0%Q
      | inflection => confidence a = 0.95%Q
      | prefixed => confidence a = 0.85%Q
      | suffixed => confidence a = 0.80%Q
      | similar => (0.7 <= confidence a)%Q ∧ (confidence a <= 1)%Q
      | compound => confidence a = 0.75%Q
      | not_found => confidence a = 0%Q
      end.
Proof.
  eexists; eexists. split; [run|].
  eapply (confidence_by_match_type (root_of [cat]) constructor 0 "Cats");
    [apply reachable_new | run].
Defined.

Lemma analysis_shape_witness :
  ∃ a this',
    analyze (root_of [abcdef; bcd]) constructor 0 "abcde" = (Return a, this')
    ∧ (found a = false ↔ matchType a = not_found)
    ∧ (found a = false → confidence a = 0%Q ∧ result a = None ∧ suggestions a = [])
    ∧ (suggestions a ≠ [] → matchType a = similar)
    ∧ length (suggestions a) ≤ 4
    ∧ length (decomposition a)
      = match matchType a with
        | inflection | prefixed | suffixed | compound => 2
        | direct | similar | not_found => 0
        end.
Proof.
  eexists; eexists. split; [run|].
  eapply (analysis_shape (root_of [abcdef; bcd]) constructor 0 "abcde");
    [apply reachable_new | run].
Defined.

Lemma first_strategy_wins_witness :
  ∃ a this',
    analyze (root_of [cat]) constructor 0 "Cats" = (Return a, this')
    ∧ (matchType a = direct ↔ directMatch (root_of [cat]) (normalize "Cats") ≠ None)
    ∧ (matchType a = inflection ↔
         directMatch (root_of [cat]) (normalize "Cats") = None
         ∧ matchInflections (root_of [cat]) (normalize "Cats") ≠ None)
    ∧ (matchType a = prefixed ∨ matchType a = suffixed ↔
         directMatch (root_of [cat]) (normalize "Cats") = None
         ∧ matchInflections (root_of [cat]) (normalize "Cats") = None
         ∧ matchWithAffixes (root_of [cat]) (normalize "Cats") ≠ None)
    ∧ (matchType a = similar ∨ matchType a = compound ∨ matchType a = not_found ↔
         directMatch (root_of [cat]) (normalize "Cats") = None
         ∧ matchInflections (root_of [cat]) (normalize "Cats") = None
         ∧ matchWithAffixes (root_of [cat]) (normalize "Cats") = None).
Proof.
  eexists; eexists. split; [run|].
  eapply (first_strategy_wins (root_of [cat]) constructor 0 "Cats");
    [apply reachable_new | run].
Defined.


Lemma affix_match_details_witness :
  ∃ a this',
    analyze (root_of [happy]) constructor 0 "Unhappy" = (Return a, this')
    ∧ (matchType a = prefixed →
         ∃ p stem v,
           p ∈ MORPHEME_RULES.prefixes
           ∧ p +:+ stem = normalize "Unhappy" ∧ 3 ≤ String.length stem
           ∧ directMatch (root_of [happy]) stem = Some v
           ∧ result a = Some (RSpread v (getPrefixMeaning p +:+ to_text (chinese_of v)))
           ∧ decomposition a =
               [ mkPart p prefix None (Some (getPrefixMeaning p)) None;
                 mkPart stem base (chinese_of v) None None ])
    ∧ (matchType a = suffixed →
         (∃ x stem v,
            x ∈ MORPHEME_RULES.suffixes
            ∧ stem +:+ x = normalize "Unhappy" ∧ 3 ≤ String.length stem
            ∧ directMatch (root_of [happy]) stem = Some v
            ∧ result a = Some (RSpread v (to_text (chinese_of v) +:+ getSuffixMeaning x))
            ∧ decomposition a =
                [ mkPart stem base (chinese_of v) None None;
                  mkPart x suffix None (Some (getSuffixMeaning x)) None ])
         ∧ (∀ p stem,
              p ∈ MORPHEME_RULES.prefixes → p +:+ stem = normalize "Unhappy" →
              3 ≤ String.length stem → directMatch (root_of [happy]) stem = None)).
Proof.
  eexists; eexists. split; [run|].
  eapply (affix_match_details (root_of [happy]) constructor 0 "Unhappy");
    [apply reachable_new | run].
Defined.

Lemma cache_keys_normalized_witness :
  let this := snd (analyze (root_of [cat]) constructor 0 " Cats") in
  (∀ k a, cache this !! k = Some a → normalize k = k ∧ normalized a = k)
  ∧ (∀ now input r this',
       analyze (root_of [cat]) this now input = (r, this') →
       cache this ⊆ cache this'
       ∧ (∀ k, k ≠ normalize input → cache this' !! k = cache this !! k)
       ∧ match r with
         | Return a => cache this' !! normalize input = Some a
         | Throw _ => this' = this
         end).
Proof.
  apply (cache_keys_normalized (root_of [cat])
           (snd (analyze (root_of [cat]) constructor 0 " Cats"))).
  apply reachable_analyze, reachable_new.
Defined.

Lemma extractRootData_returns_witness :
  ∃ db, extractRootData [cat; water] = Return db.
Proof.
  apply (extractRootData_returns [cat; water]). no_index_keys.
Defined.

Lemma wordsOfLength_after_load_witness :
  wordsOfLength (root_of [cat; water; box]) 3
  = Return (entries_of_length 3 [cat; water; box]).
Proof.
  apply (wordsOfLength_after_load [cat; water; box] (root_of [cat; water; box]) 3).
  - repeat constructor.
  - run.
  - no_index_keys.
Defined.

Lemma directMatch_after_load_witness :
  directMatch (root_of [cat; old_cat]) "cat" = Some (VEntry old_cat)
  ↔ last_with_key "cat" [cat; old_cat] = Some old_cat.
Proof.
  apply (directMatch_after_load [cat; old_cat] (root_of [cat; old_cat]) "cat" old_cat).
  - repeat constructor.
  - run.
Defined.


Lemma findWordInDatabase_frame_witness :
  ∃ r database',
    MainScript.findWordInDatabase database "cats" = (r, database')
    ∧ length database' = length database
    ∧ MainScript.english <$> database' = MainScript.english <$> database
    ∧ MainScript.chinese <$> database' = MainScript.chinese <$> database
    ∧ MainScript.pinyin <$> database' = MainScript.pinyin <$> database
    ∧ MainScript.category <$> database' = MainScript.category <$> database
    ∧ MainScript.priority <$> database' = MainScript.priority <$> database
    ∧ match r with
      | Some (MainScript.InDatabase i item) =>
          database' !! i = Some item
          ∧ ∀ j, j ≠ i → database' !! j = database !! j
      | _ => database' = database
      end.
Proof.
  eexists; eexists. split; [run|].
  eapply (findWordInDatabase_frame database "cats"). run.
Defined.

Lemma findWordInDatabase_again_witness :
  ∃ r database',
    MainScript.findWordInDatabase database "cats" = (r, database')
    ∧ MainScript.findWordInDatabase database' "cats" = (r, database').
Proof.
  eexists; eexists. split; [run|].
  eapply (findWordInDatabase_again database "cats"). run.
Defined.

Lemma lemma_match_then_exact_witness :
  ∃ i item database',
    MainScript.findWordInDatabase database "cats"
      = (Some (MainScript.InDatabase i item), database')
    ∧ ∃ item' info database'',
        MainScript.findWordInDatabase database' (toLowerCase (MainScript.english item))
          = (Some (MainScript.InDatabase i item'), database'')
        ∧ MainScript.analysis item' = Some info
        ∧ MainScript.matchType info = "lemma"
        ∧ MainScript.confidence info = Some 1.0%Q.
Proof.
  eexists; eexists; eexists. split; [run|].
  eapply (lemma_match_then_exact database "cats").
  - run.
  - vm_compute. discriminate.
Defined.

Lemma analyzeWord_history_witness :
  NoDup (MainScript.analyzeWord ["dog"] " Cat ")
  ∧ length (MainScript.analyzeWord ["dog"] " Cat ") ≤ MainScript.maxHistory
  ∧ (toLowerCase (trim " Cat ") = "" ∨ toLowerCase (trim " Cat ") ∈ ["dog"] →
     MainScript.analyzeWord ["dog"] " Cat " = ["dog"])
  ∧ (toLowerCase (trim " Cat ") ≠ "" → toLowerCase (trim " Cat ") ∉ ["dog"] →
     MainScript.analyzeWord ["dog"] " Cat "
     = toLowerCase (trim " Cat ") :: take (MainScript.maxHistory - 1) ["dog"]).
Proof.
  apply (analyzeWord_history ["dog"] " Cat ").
  - run.
  - apply NoDup_singleton.
  - unfold MainScript.maxHistory. simpl. lia.
Defined.

Lemma detectClassicalRoots_spec_witness :
  StronglySorted (fun a b => (MainScript.position a <= MainScript.position b)%Z)
    (MainScript.detectClassicalRoots "telephotography")
  ∧ MainScript.detectClassicalRoots "telephotography" ≡ₚ
      ((fun p => {| MainScript.root := p.1; MainScript.root_meaning := p.2;
                    MainScript.position := MainScript.indexOf "telephotography" p.1 |})
       <$> filter (fun p => includes "telephotography" p.1 = true)
                  MainScript.classicalRoots)
  ∧ NoDup (MainScript.root <$> MainScript.detectClassicalRoots "telephotography")
  ∧ (∀ r, r ∈ MainScript.detectClassicalRoots "telephotography" ↔
          (MainScript.root r, MainScript.root_meaning r) ∈ MainScript.classicalRoots
          ∧ includes "telephotography" (MainScript.root r) = true
          ∧ MainScript.position r
            = MainScript.indexOf "telephotography" (MainScript.root r))
  ∧ (∀ r, r ∈ MainScript.detectClassicalRoots "telephotography" →
          ∃ n, MainScript.position r = Z.of_nat n
               ∧ startsWith (str_drop n "telephotography") (MainScript.root r) = true
               ∧ ∀ k, k < n →
                      startsWith (str_drop k "telephotography") (MainScript.root r)
                      = false).
Proof.
  apply (detectClassicalRoots_spec "telephotography"). run.
Defined.

Lemma analyzeInput_never_empty_witness :
  (fst (analyzeInput (root_of [cat]) constructor 0 " Cats ") = None
   ↔ trim " Cats " = "")
  ∧ (trim " Cats " = "" →
     analyzeInput (root_of [cat]) constructor 0 " Cats " = (None, constructor))
  ∧ (trim " Cats " ≠ "" →
     analyzeInput (root_of [cat]) constructor 0 " Cats "
       = (Some (fst (analyze (root_of [cat]) constructor 0 (trim " Cats "))),
          snd (analyze (root_of [cat]) constructor 0 (trim " Cats ")))
     ∧ normalize (trim " Cats ") = normalize " Cats "
     ∧ normalize " Cats " ≠ ""
     ∧ (cache constructor !! "" = None →
        cache (snd (analyzeInput (root_of [cat]) constructor 0 " Cats ")) !! ""
        = None)).
Proof.
  apply (analyzeInput_never_empty (root_of [cat]) constructor 0 " Cats "). run.
Defined.

Lemma changePage_valid_witness :
  (1 <= MainScript.changePage numbers 1 3 <= MainScript.totalPages numbers)%Z
  ∧ (MainScript.changePage numbers 1 3 = 3%Z
     ↔ (1 <= 3 <= MainScript.totalPages numbers)%Z ∨ 3%Z = 1%Z)
  ∧ (MainScript.changePage numbers 1 3 = 3%Z
     ∨ MainScript.changePage numbers 1 3 = 1%Z)
  ∧ MainScript.pageItems numbers (MainScript.changePage numbers 1 3) ≠ [].
Proof.
  apply (changePage_valid numbers 1 3).
  change (1 <= 1 <= 3)%Z. lia.
Defined.

End FurtherRuns.
